(** * Session store, request de-duplication and update ordering of telegram-tt

    A shallow embedding of
    - [src/util/sessions.ts] (the slotted session store and its legacy
      fallback) over a model of [localStorage] and of the JavaScript values
      that [JSON.parse] produces,
    - [fetchFullChat] and [deleteTopic] of the chat methods module,
    - the update sequencer described by the specification,
    with the properties of each stated and proved.

    Conventions of the JavaScript model.  Strings are byte strings: the
    UTF-8 text of the string, with three bytes for a surrogate that stands
    alone.
    A number is an IEEE double, kept as the decimal that names it (the
    shortest one that rounds to it, which is the one [String] prints), or
    [NaN], or one of the two infinities; a numeric text is rounded to the
    nearest double, to an infinity or to zero when it is read.  The two zeros
    are one value: no operation of the modelled code tells them apart.  A
    function that can throw returns an [outcome]. *)

From Stdlib Require Import ZArith Lia Bool Ascii.
From stdpp Require Import gmap strings list fin_maps sorting.

Local Open Scope Z_scope.
Set Warnings "-register-all".

(** String append computes under [simpl] when its first argument is known. *)
Arguments String.append !_ _ / : simpl nomatch.

(** ** JavaScript values *)

Module Js.

(** A number: an integer, or [m / 10^k] with [k > 0] and [m] not a multiple
    of ten, or one of the non-finite values.  The finite numbers of
    JavaScript are the decimals that [to_double] below leaves as they are. *)
Inductive number :=
  | NInt (z : Z)
  | NDec (m : Z) (k : positive)
  | NaN
  | NInf (negative : bool).

Inductive jsval :=
  | JUndefined
  | JNull
  | JBool (b : bool)
  | JNum (n : number)
  | JStr (s : string)
  | JArr (items : list jsval)
  | JObj (fields : list (string * jsval)).

Inductive error := SyntaxError | TypeError | ReferenceError.

Inductive outcome (A : Type) :=
  | Returns (a : A)
  | Throws (e : error).
Arguments Returns {A} a.
Arguments Throws {A} e.

Definition bind {A B} (x : outcome A) (f : A -> outcome B) : outcome B :=
  match x with
  | Returns a => f a
  | Throws e => Throws e
  end.

(** [try { body } catch { handler }] *)
Definition try_catch {A} (body : outcome A) (handler : A) : A :=
  match body with
  | Returns a => a
  | Throws _ => handler
  end.

#[global] Instance number_eq_dec : EqDecision number.
Proof. solve_decision. Defined.

#[global] Instance error_eq_dec : EqDecision error.
Proof. solve_decision. Defined.

(** ToBoolean: [Boolean(v)], [!v], and the tests of [if], [||] and [&&]. *)
Definition truthy (v : jsval) : bool :=
  match v with
  | JUndefined | JNull => false
  | JBool b => b
  | JNum (NInt z) => negb (z =? 0)
  | JNum NaN => false
  | JNum _ => true
  | JStr s => negb (String.eqb s "")
  | JArr _ | JObj _ => true
  end.

(** [a || b] and [a && b] on values. *)
Definition js_or (a b : jsval) : jsval := if truthy a then a else b.
Definition js_and (a b : jsval) : jsval := if truthy a then b else a.

(** *** Decimal digits *)

Definition digit_of (base : Z) (c : ascii) : option Z :=
  let n := Z.of_N (N_of_ascii c) in
  let d :=
    if (48 <=? n) && (n <=? 57) then Some (n - 48)
    else if (97 <=? n) && (n <=? 102) then Some (n - 87)
    else if (65 <=? n) && (n <=? 70) then Some (n - 55)
    else None in
  match d with
  | Some v => if v <? base then Some v else None
  | None => None
  end.

(** Reads the longest run of digits in [base]; returns its value, the number
    of digits read and the rest of the text. *)
Fixpoint scan_digits (base : Z) (s : string) (acc : Z) (cnt : nat)
  : Z * nat * string :=
  match s with
  | String c r =>
      match digit_of base c with
      | Some d => scan_digits base r (acc * base + d) (S cnt)
      | None => (acc, cnt, s)
      end
  | EmptyString => (acc, cnt, s)
  end.

Definition digit_char (d : Z) : ascii :=
  ascii_of_N (Z.to_N (if d <? 10 then d + 48 else d + 87)).

Fixpoint digits_go (fuel : nat) (n : Z) (acc : string) : string :=
  match fuel with
  | O => acc
  | S fuel' =>
      let acc' := String (digit_char (n mod 10)) acc in
      if n / 10 =? 0 then acc' else digits_go fuel' (n / 10) acc'
  end.

(** The decimal digits of a natural number [n >= 0]. *)
Definition digits (n : Z) : string :=
  digits_go (S (Z.to_nat (Z.log2 n))) n "".

(** A text of decimal digits, and the number it adds to [acc]. *)
Fixpoint is_digits (s : string) : bool :=
  match s with
  | EmptyString => true
  | String c r =>
      match digit_of 10 c with
      | Some _ => is_digits r
      | None => false
      end
  end.

Fixpoint digits_value (s : string) (acc : Z) : Z :=
  match s with
  | EmptyString => acc
  | String c r =>
      match digit_of 10 c with
      | Some d => digits_value r (acc * 10 + d)
      | None => acc
      end
  end.

(** Drops the trailing zeros of the mantissa while the exponent is negative. *)
Fixpoint strip_zeros (fuel : nat) (m e : Z) : Z * Z :=
  match fuel with
  | O => (m, e)
  | S fuel' =>
      if (e <? 0) && (m mod 10 =? 0) then strip_zeros fuel' (m / 10) (e + 1)
      else (m, e)
  end.

(** The number [m * 10^e], where [m] has at most [cnt] digits. *)
Definition mk_number (cnt : nat) (m e : Z) : number :=
  if m =? 0 then NInt 0
  else
    let '(m', e') := strip_zeros cnt m e in
    if 0 <=? e' then NInt (m' * 10 ^ e')
    else NDec m' (Z.to_pos (- e')).

(** The rest of [s] after the character [c], when [s] starts with it. *)
Definition starts_with (c : ascii) (s : string) : option string :=
  match s with
  | String c' r => if Ascii.eqb c c' then Some r else None
  | EmptyString => None
  end.

(** An optional exponent part [e[+-]digits]: [Some (0, s)] when [s] does not
    start with [e] or [E], [None] when the exponent is malformed. *)
Definition scan_exponent (s : string) : option (Z * string) :=
  match s with
  | String c r =>
      if (Ascii.eqb c "e" || Ascii.eqb c "E")%bool then
        let '(neg, r') :=
          match starts_with "-" r with
          | Some r' => (true, r')
          | None =>
              match starts_with "+" r with
              | Some r' => (false, r')
              | None => (false, r)
              end
          end in
        let '(v, cnt, rest) := scan_digits 10 r' 0 O in
        match cnt with
        | O => None
        | S _ => Some (if neg then - v else v, rest)
        end
      else Some (0, s)
  | EmptyString => Some (0, s)
  end.

Fixpoint zeros (n : nat) : string :=
  match n with
  | O => ""
  | S n' => String "0" (zeros n')
  end.

Fixpoint string_take (n : nat) (s : string) : string :=
  match n, s with
  | S n', String c r => String c (string_take n' r)
  | _, _ => ""
  end.

Fixpoint string_drop (n : nat) (s : string) : string :=
  match n, s with
  | S n', String c r => string_drop n' r
  | _, _ => s
  end.

Fixpoint strip_trailing_zeros_go (s : string) : string :=
  match s with
  | String c r =>
      match strip_trailing_zeros_go r with
      | EmptyString => if Ascii.eqb c "0" then "" else String c ""
      | r' => String c r'
      end
  | EmptyString => ""
  end.

(** Number::toString for the finite value [0.d1..dk * 10^n] given by its
    significant digits [ds] (no trailing zero) and the position [n] of the
    decimal point. *)
Definition print_positional (ds : string) (n : Z) : string :=
  let k := Z.of_nat (String.length ds) in
  if (k <=? n) && (n <=? 21) then ds +:+ zeros (Z.to_nat (n - k))
  else if (0 <? n) && (n <=? 21) then
    string_take (Z.to_nat n) ds +:+ "." +:+ string_drop (Z.to_nat n) ds
  else if (-6 <? n) && (n <=? 0) then
    "0." +:+ zeros (Z.to_nat (- n)) +:+ ds
  else
    let e := n - 1 in
    let es := (if e <? 0 then "-" else "+") +:+ digits (Z.abs e) in
    match ds with
    | String d EmptyString => String d "" +:+ "e" +:+ es
    | String d r => String d "" +:+ "." +:+ r +:+ "e" +:+ es
    | EmptyString => "0"
    end.

(** [String(n)] for a number. *)
Definition number_to_string (n : number) : string :=
  match n with
  | NaN => "NaN"
  | NInf neg => if neg then "-Infinity" else "Infinity"
  | NInt z =>
      if z =? 0 then "0"
      else
        let all := digits (Z.abs z) in
        (if z <? 0 then "-" else "") +:+
        print_positional (strip_trailing_zeros_go all)
                         (Z.of_nat (String.length all))
  | NDec m k =>
      let all := digits (Z.abs m) in
      (if m <? 0 then "-" else "") +:+
      print_positional all (Z.of_nat (String.length all) - Z.pos k)
  end.

(** *** Conversions *)

(** The white space and line terminators that [Number] strips from a
    string: those of one byte, of two bytes (U+00A0) and of three bytes
    (U+1680, U+2000 to U+200A, U+2028, U+2029, U+202F, U+205F, U+3000 and
    U+FEFF) in UTF-8. *)
Definition is_str_ws (c : ascii) : bool :=
  let n := N_of_ascii c in
  ((9 <=? n) && (n <=? 13) || (n =? 32))%N.

Definition is_str_ws2 (c1 c2 : ascii) : bool :=
  ((N_of_ascii c1 =? 194) && (N_of_ascii c2 =? 160))%N.

Definition is_str_ws3 (c1 c2 c3 : ascii) : bool :=
  let a := N_of_ascii c1 in
  let b := N_of_ascii c2 in
  let c := N_of_ascii c3 in
  ((a =? 225) && (b =? 154) && (c =? 128)
   || (a =? 226) && (b =? 128)
      && ((128 <=? c) && (c <=? 138) || (c =? 168) || (c =? 169) || (c =? 175))
   || (a =? 226) && (b =? 129) && (c =? 159)
   || (a =? 227) && (b =? 128) && (c =? 128)
   || (a =? 239) && (b =? 187) && (c =? 191))%N.

Fixpoint skip_str_ws (s : string) : string :=
  match s with
  | String c1 r1 =>
      if is_str_ws c1 then skip_str_ws r1
      else
        match r1 with
        | String c2 r2 =>
            if is_str_ws2 c1 c2 then skip_str_ws r2
            else
              match r2 with
              | String c3 r3 =>
                  if is_str_ws3 c1 c2 c3 then skip_str_ws r3 else s
              | EmptyString => s
              end
        | EmptyString => s
        end
  | EmptyString => s
  end.

Fixpoint strip_prefix (p s : string) : option string :=
  match p, s with
  | EmptyString, _ => Some s
  | String a p', String b s' => if Ascii.eqb a b then strip_prefix p' s' else None
  | String _ _, EmptyString => None
  end.

Definition number_opp (n : number) : number :=
  match n with
  | NInt z => NInt (- z)
  | NDec m k => NDec (- m) k
  | NaN => NaN
  | NInf neg => NInf (negb neg)
  end.

(** *** Doubles *)

(** [floor (log2 (p / q))] for positive [p] and [q]. *)
Definition ilog2_ratio (p q : Z) : Z :=
  let l := Z.log2 p - Z.log2 q in
  if 0 <=? l then (if q * 2 ^ l <=? p then l else l - 1)
  else (if q <=? p * 2 ^ (- l) then l else l - 1).

(** [n / d] rounded to the nearest integer, a tie to the even one. *)
Definition round_half_even (n d : Z) : Z :=
  let a := n / d in
  let r := n mod d in
  if d <? 2 * r then a + 1
  else if (2 * r =? d) && Z.odd a then a + 1
  else a.

(** The magnitude of a double: zero, [m * 2^e] with [2^52 <= m < 2^53], or
    with [m < 2^52] and [e = -1074] (a subnormal), or infinity. *)
Inductive double :=
  | DZero
  | DFin (m e : Z)
  | DInf.

#[global] Instance double_eq_dec : EqDecision double.
Proof. solve_decision. Defined.

(** The double nearest to [p / q] for positive [p] and [q] (roundTiesToEven):
    53 bits, the exponent of the last bit between -1074 and 971. *)
Definition nearest_double (p q : Z) : double :=
  let e := Z.max (ilog2_ratio p q - 52) (-1074) in
  let m :=
    if 0 <=? e then round_half_even p (q * 2 ^ e)
    else round_half_even (p * 2 ^ (- e)) q in
  let '(m, e) := if m =? 2 ^ 53 then (2 ^ 52, e + 1) else (m, e) in
  if m =? 0 then DZero
  else if 971 <? e then DInf
  else DFin m e.

(** The double that the magnitude of a decimal rounds to. *)
Definition double_of (n : number) : double :=
  match n with
  | NInt z => if z =? 0 then DZero else nearest_double (Z.abs z) 1
  | NDec m k => if m =? 0 then DZero else nearest_double (Z.abs m) (10 ^ Z.pos k)
  | NaN => DZero
  | NInf _ => DInf
  end.

Definition is_negative (n : number) : bool :=
  match n with
  | NInt z => z <? 0
  | NDec m _ => m <? 0
  | NaN => false
  | NInf neg => neg
  end.

(** [10^n <= p / q] *)
Definition pow10_le (n p q : Z) : bool :=
  if 0 <=? n then q * 10 ^ n <=? p else q <=? p * 10 ^ (- n).

(** The place of the decimal point of [p / q]: the [n] with
    [10^(n-1) <= p / q < 10^n], found next to [log2 (p / q) * log10 2]. *)
Definition decimal_point (p q : Z) : Z :=
  let g := ilog2_ratio p q * 30103 / 100000 in
  if pow10_le (g + 1) p q then g + 2
  else if pow10_le g p q then g + 1
  else g.

(** The decimal [s * 10^t] for [s >= 0]. *)
Definition decimal (s t : Z) : number :=
  mk_number (S (Z.to_nat (Z.log2 (Z.abs s)))) (Z.abs s) t.

(** Number::toString takes the digits of a double from the decimal with the
    fewest digits [k] that rounds to it, and of two such decimals the one
    nearer to the double (the even one when both are as near).  The search
    tries [k], [k + 1], ... for the value [p / q] of the double [d], whose
    decimal point is at [n]; the candidates with [k] digits are the two
    decimals around [p / q]. *)
Fixpoint shortest_go (fuel : nat) (k : Z) (d : double) (p q n : Z)
  : option number :=
  match fuel with
  | O => None
  | S fuel' =>
      let t := n - k in
      let '(a, b) :=
        if 0 <=? t then (p, q * 10 ^ t) else (p * 10 ^ (- t), q) in
      let lo := a / b in
      let r := a mod b in
      let c_lo := decimal lo t in
      let c_hi := decimal (lo + 1) t in
      let ok_lo := bool_decide (double_of c_lo = d) in
      let ok_hi := bool_decide (double_of c_hi = d) in
      if ok_lo && ok_hi then
        Some (if 2 * r <? b then c_lo
              else if b <? 2 * r then c_hi
              else if Z.even lo then c_lo else c_hi)
      else if ok_lo then Some c_lo
      else if ok_hi then Some c_hi
      else shortest_go fuel' (k + 1) d p q n
  end.

(** The decimal that names the double [m * 2^e].  (Seventeen digits tell any
    two doubles apart, so the search finds one.) *)
Definition shortest (m e : Z) : option number :=
  let '(p, q) := if 0 <=? e then (m * 2 ^ e, 1) else (m, 2 ^ (- e)) in
  shortest_go 17 1 (DFin m e) p q (decimal_point p q).

(** The Number value of a decimal: the double nearest to it, an infinity
    beyond the range of the doubles, zero below it. *)
Definition to_double (n : number) : number :=
  match n with
  | NaN | NInf _ => n
  | _ =>
      match double_of n with
      | DZero => NInt 0
      | DInf => NInf (is_negative n)
      | DFin m e =>
          match shortest m e with
          | Some c => if is_negative n then number_opp c else c
          | None => n
          end
      end
  end.

Arguments to_double : simpl never.
Arguments double_of : simpl never.

(** An integer literal in [base] that fills the rest of the text. *)
Definition radix_literal (base : Z) (s : string) : number :=
  let '(v, cnt, rest) := scan_digits base s 0 O in
  match cnt, skip_str_ws rest with
  | S _, EmptyString => to_double (NInt v)
  | _, _ => NaN
  end.

(** StrUnsignedDecimalLiteral followed by white space only. *)
Definition str_decimal (s : string) : number :=
  match strip_prefix "Infinity" s with
  | Some rest =>
      match skip_str_ws rest with EmptyString => NInf false | _ => NaN end
  | None =>
      let '(ip, icnt, r1) := scan_digits 10 s 0 O in
      let '(m, cnt, r2) :=
        match r1 with
        | String "." r => scan_digits 10 r ip icnt
        | _ => (ip, icnt, r1)
        end in
      match cnt, scan_exponent r2 with
      | S _, Some (e, r3) =>
          match skip_str_ws r3 with
          | EmptyString => to_double (mk_number cnt m (e - Z.of_nat (cnt - icnt)))
          | _ => NaN
          end
      | _, _ => NaN
      end
  end.

(** StringToNumber: [Number(s)] for a string. *)
Definition string_to_number (s : string) : number :=
  match skip_str_ws s with
  | EmptyString => NInt 0
  | String "0" (String "x" r) | String "0" (String "X" r) => radix_literal 16 r
  | String "0" (String "o" r) | String "0" (String "O" r) => radix_literal 8 r
  | String "0" (String "b" r) | String "0" (String "B" r) => radix_literal 2 r
  | String "-" r => number_opp (str_decimal r)
  | String "+" r => str_decimal r
  | s' => str_decimal s'
  end.

(** ToString: [String(v)] and template literals. *)
Fixpoint to_string (v : jsval) : string :=
  match v with
  | JUndefined => "undefined"
  | JNull => "null"
  | JBool b => if b then "true" else "false"
  | JNum n => number_to_string n
  | JStr s => s
  | JArr items =>
      let item x :=
        match x with
        | JUndefined | JNull => ""
        | _ => to_string x
        end in
      (fix join (l : list jsval) : string :=
         match l with
         | [] => ""
         | [x] => item x
         | x :: r => item x +:+ "," +:+ join r
         end) items
  | JObj _ => "[object Object]"
  end.

(** ToNumber: [Number(v)]. *)
Definition to_number (v : jsval) : number :=
  match v with
  | JUndefined => NaN
  | JNull => NInt 0
  | JBool b => NInt (if b then 1 else 0)
  | JNum n => n
  | JStr s => string_to_number s
  | JArr _ | JObj _ => string_to_number (to_string v)
  end.

(** *** Objects *)

(** An object is the list of its own properties in property order: array
    indices in ascending order first, then the other names in the order of
    their creation. *)
Definition array_index (k : string) : option Z :=
  let '(v, cnt, rest) := scan_digits 10 k 0 O in
  match cnt, rest with
  | S _, EmptyString =>
      if String.eqb (digits v) k && (v <? 4294967295) then Some v else None
  | _, _ => None
  end.

Fixpoint lookup_field (k : string) (fs : list (string * jsval)) : jsval :=
  match fs with
  | [] => JUndefined
  | (k', v) :: r => if String.eqb k k' then v else lookup_field k r
  end.

Fixpoint has_field (k : string) (fs : list (string * jsval)) : bool :=
  match fs with
  | [] => false
  | (k', _) :: r => String.eqb k k' || has_field k r
  end.

Fixpoint replace_field (k : string) (v : jsval) (fs : list (string * jsval))
  : list (string * jsval) :=
  match fs with
  | [] => []
  | (k', v') :: r =>
      if String.eqb k k' then (k', v) :: r else (k', v') :: replace_field k v r
  end.

Fixpoint insert_index (i : Z) (k : string) (v : jsval)
  (fs : list (string * jsval)) : list (string * jsval) :=
  match fs with
  | [] => [(k, v)]
  | (k', v') :: r =>
      match array_index k' with
      | Some j => if j <? i then (k', v') :: insert_index i k v r
                  else (k, v) :: fs
      | None => (k, v) :: fs
      end
  end.

(** [o[k] = v] on an ordinary object. *)
Definition set_field (k : string) (v : jsval) (fs : list (string * jsval))
  : list (string * jsval) :=
  if has_field k fs then replace_field k v fs
  else match array_index k with
       | Some i => insert_index i k v fs
       | None => fs ++ [(k, v)]
       end.

(** [v[k]] for a name [k] that no prototype defines (the names read by the
    modelled code are of that kind, and none is [length] or an index).
    Reading a property of [undefined] or [null] throws a TypeError. *)
Definition get_prop (v : jsval) (k : string) : outcome jsval :=
  match v with
  | JUndefined | JNull => Throws TypeError
  | JObj fs => Returns (lookup_field k fs)
  | _ => Returns JUndefined
  end.

(** [v?.[k]] *)
Definition get_prop_opt (v : jsval) (k : string) : jsval :=
  match v with
  | JObj fs => lookup_field k fs
  | _ => JUndefined
  end.

(** [{ ...v }]: the own properties of [v]; none for [undefined]. *)
Definition spread (v : jsval) : list (string * jsval) :=
  match v with
  | JObj fs => fs
  | _ => []
  end.

(** [Object.keys(o)] *)
Definition object_keys (fs : list (string * jsval)) : list string :=
  map fst fs.

End Js.

(** ** JSON.parse and JSON.stringify *)

Module Json.
Import Js.

Definition is_json_ws (c : ascii) : bool :=
  let n := N_of_ascii c in
  ((n =? 32) || (n =? 9) || (n =? 10) || (n =? 13))%N.

Fixpoint skip_ws (s : string) : string :=
  match s with
  | String c r => if is_json_ws c then skip_ws r else s
  | EmptyString => s
  end.

(** The UTF-8 bytes of a code point (a surrogate that stands alone is
    written as a code point of the basic plane is). *)
Definition utf8 (cp : Z) (tail : string) : string :=
  let byte n := ascii_of_N (Z.to_N n) in
  if cp <? 128 then String (byte cp) tail
  else if cp <? 2048 then
    String (byte (192 + cp / 64)) (String (byte (128 + cp mod 64)) tail)
  else if cp <? 65536 then
    String (byte (224 + cp / 4096))
      (String (byte (128 + (cp / 64) mod 64))
         (String (byte (128 + cp mod 64)) tail))
  else
    String (byte (240 + cp / 262144))
      (String (byte (128 + (cp / 4096) mod 64))
         (String (byte (128 + (cp / 64) mod 64))
            (String (byte (128 + cp mod 64)) tail))).

(** The two halves of a code point beyond the basic plane, and the code
    point that they stand for. *)
Definition is_high_surrogate (cp : Z) : bool := (55296 <=? cp) && (cp <=? 56319).
Definition is_low_surrogate (cp : Z) : bool := (56320 <=? cp) && (cp <=? 57343).
Definition surrogate_pair (high low : Z) : Z :=
  65536 + (high - 55296) * 1024 + (low - 56320).

Definition hex4 (a b c d : ascii) : option Z :=
  match digit_of 16 a, digit_of 16 b, digit_of 16 c, digit_of 16 d with
  | Some x, Some y, Some z, Some w => Some (((x * 16 + y) * 16 + z) * 16 + w)
  | _, _, _, _ => None
  end.

(** The character that follows the backslash of a simple escape. *)
Definition escape_char (e : ascii) : option ascii :=
  if Ascii.eqb e "034" then Some "034"%char
  else if Ascii.eqb e "\" then Some "\"%char
  else if Ascii.eqb e "/" then Some "/"%char
  else if Ascii.eqb e "b" then Some "008"%char
  else if Ascii.eqb e "f" then Some "012"%char
  else if Ascii.eqb e "n" then Some "010"%char
  else if Ascii.eqb e "r" then Some "013"%char
  else if Ascii.eqb e "t" then Some "009"%char
  else None.

(** The characters of a string literal after its opening quote, up to and
    including the closing quote.  The escape of a high surrogate with the
    escape of a low surrogate after it is one code point. *)
Fixpoint parse_string_body (s : string) : option (string * string) :=
  match s with
  | EmptyString => None
  | String c r =>
      if Ascii.eqb c "034" then Some ("", r)
      else if Ascii.eqb c "\" then
        match r with
        | String e r1 =>
            if Ascii.eqb e "u" then
              match r1 with
              | String h1 (String h2 (String h3 (String h4 r2))) =>
                  match hex4 h1 h2 h3 h4 with
                  | Some cp =>
                      let single :=
                        match parse_string_body r2 with
                        | Some (body, rest) => Some (utf8 cp body, rest)
                        | None => None
                        end in
                      if is_high_surrogate cp then
                        match r2 with
                        | String b (String u (String g1 (String g2
                            (String g3 (String g4 r3))))) =>
                            if Ascii.eqb b "\" && Ascii.eqb u "u" then
                              match hex4 g1 g2 g3 g4 with
                              | Some low =>
                                  if is_low_surrogate low then
                                    match parse_string_body r3 with
                                    | Some (body, rest) =>
                                        Some (utf8 (surrogate_pair cp low) body,
                                              rest)
                                    | None => None
                                    end
                                  else single
                              | None => single
                              end
                            else single
                        | _ => single
                        end
                      else single
                  | None => None
                  end
              | _ => None
              end
            else
              match escape_char e, parse_string_body r1 with
              | Some c', Some (body, rest) => Some (String c' body, rest)
              | _, _ => None
              end
        | EmptyString => None
        end
      else if (N_of_ascii c <? 32)%N then None
      else
        match parse_string_body r with
        | Some (body, rest) => Some (String c body, rest)
        | None => None
        end
  end.

(** A number literal: an optional minus sign, an integer part without a
    leading zero, an optional fraction and an optional exponent; the decimal
    that the literal writes. *)
Definition number_literal (s : string) : option (number * string) :=
  let '(neg, s1) :=
    match starts_with "-" s with
    | Some r => (true, r)
    | None => (false, s)
    end in
  let '(ip, icnt, r1) := scan_digits 10 s1 0 O in
  let leading_zero :=
    match starts_with "0" s1 with
    | Some _ => (2 <=? icnt)%nat
    | None => false
    end in
  match icnt with
  | O => None
  | S _ =>
      if leading_zero then None
      else
        let frac :=
          match starts_with "." r1 with
          | Some r =>
              let '(m, cnt, r2) := scan_digits 10 r ip icnt in
              if (cnt =? icnt)%nat then None else Some (m, cnt, r2)
          | None => Some (ip, icnt, r1)
          end in
        match frac with
        | None => None
        | Some (m, cnt, r2) =>
            match scan_exponent r2 with
            | None => None
            | Some (e, r3) =>
                let n := mk_number cnt m (e - Z.of_nat (cnt - icnt)) in
                Some (if neg then number_opp n else n, r3)
            end
        end
  end.

(** The Number value of the number literal at the start of [s]. *)
Definition parse_number (s : string) : option (number * string) :=
  match number_literal s with
  | Some (n, rest) => Some (to_double n, rest)
  | None => None
  end.

(** A string, a literal name or a number at the start of [s]. *)
Definition parse_scalar (s : string) : option (jsval * string) :=
  match starts_with "034" s with
  | Some r =>
      match parse_string_body r with
      | Some (str, rest) => Some (JStr str, rest)
      | None => None
      end
  | None =>
  match strip_prefix "true" s with
  | Some rest => Some (JBool true, rest)
  | None =>
  match strip_prefix "false" s with
  | Some rest => Some (JBool false, rest)
  | None =>
  match strip_prefix "null" s with
  | Some rest => Some (JNull, rest)
  | None =>
  match parse_number s with
  | Some (n, rest) => Some (JNum n, rest)
  | None => None
  end end end end end.

(** The white space after a value belongs to it. *)
Definition then_ws (r : option (jsval * string)) : option (jsval * string) :=
  match r with
  | Some (v, rest) => Some (v, skip_ws rest)
  | None => None
  end.

(** A JSON value with the white space around it; [fuel] bounds the number of
    nested and successive values. *)
Fixpoint parse_value (fuel : nat) (s : string) : option (jsval * string) :=
  match fuel with
  | O => None
  | S fuel' =>
      match starts_with "{" (skip_ws s) with
      | Some r =>
          match starts_with "}" (skip_ws r) with
          | Some r' => Some (JObj [], skip_ws r')
          | None => then_ws (parse_members fuel' [] (skip_ws r))
          end
      | None =>
      match starts_with "[" (skip_ws s) with
      | Some r =>
          match starts_with "]" (skip_ws r) with
          | Some r' => Some (JArr [], skip_ws r')
          | None => then_ws (parse_elements fuel' [] (skip_ws r))
          end
      | None => then_ws (parse_scalar (skip_ws s))
      end end
  end

(** The elements of an array after [acc], up to and including the bracket. *)
with parse_elements (fuel : nat) (acc : list jsval) (s : string)
  : option (jsval * string) :=
  match fuel with
  | O => None
  | S fuel' =>
      match parse_value fuel' s with
      | Some (v, rest) =>
          match starts_with "," rest with
          | Some rest' => parse_elements fuel' (acc ++ [v]) rest'
          | None =>
              match starts_with "]" rest with
              | Some rest' => Some (JArr (acc ++ [v]), rest')
              | None => None
              end
          end
      | None => None
      end
  end

(** The members of an object after [acc], up to and including the brace; a
    repeated name overwrites the earlier member. *)
with parse_members (fuel : nat) (acc : list (string * jsval)) (s : string)
  : option (jsval * string) :=
  match fuel with
  | O => None
  | S fuel' =>
      match starts_with "034" (skip_ws s) with
      | Some r =>
          match parse_string_body r with
          | Some (k, rest) =>
              match starts_with ":" (skip_ws rest) with
              | Some rest' =>
                  match parse_value fuel' rest' with
                  | Some (v, rest'') =>
                      match starts_with "," rest'' with
                      | Some rest3 =>
                          parse_members fuel' (set_field k v acc) rest3
                      | None =>
                          match starts_with "}" rest'' with
                          | Some rest3 => Some (JObj (set_field k v acc), rest3)
                          | None => None
                          end
                      end
                  | None => None
                  end
              | None => None
              end
          | None => None
          end
      | None => None
      end
  end.

(** [JSON.parse(s)]: the value, or a SyntaxError. *)
Definition JSON_parse (s : string) : outcome jsval :=
  match parse_value (2 * String.length s + 2) s with
  | Some (v, EmptyString) => Returns v
  | _ => Throws SyntaxError
  end.

Definition hex_digit (n : Z) : ascii := digit_char n.

Fixpoint quote_body (s : string) : string :=
  match s with
  | EmptyString => String "034" ""
  | String c r =>
      let n := Z.of_N (N_of_ascii c) in
      let rest := quote_body r in
      if n =? 34 then String "\" (String "034" rest)
      else if n =? 92 then String "\" (String "\" rest)
      else if n =? 8 then String "\" (String "b" rest)
      else if n =? 12 then String "\" (String "f" rest)
      else if n =? 10 then String "\" (String "n" rest)
      else if n =? 13 then String "\" (String "r" rest)
      else if n =? 9 then String "\" (String "t" rest)
      else if n <? 32 then
        String "\" (String "u" (String "0" (String "0"
          (String (hex_digit (n / 16)) (String (hex_digit (n mod 16)) rest)))))
      else String c rest
  end.

(** QuoteJSONString.  (A surrogate that stands alone is written as its three
    bytes, which [parse_string_body] reads back as they are, where
    [JSON.stringify] writes its escape.) *)
Definition quote (s : string) : string := String "034" (quote_body s).

(** The elements of an array after the opening bracket, with the closing
    one; [item] gives the text of an element. *)
Definition join_items (item : jsval → string) : list jsval → string :=
  fix join (l : list jsval) : string :=
    match l with
    | [] => "]"
    | [x] => item x +:+ "]"
    | x :: r => item x +:+ "," +:+ join r
    end.

(** The members of an object after the opening brace, with the closing one;
    [field] gives the text of a value, or [None] to leave the member out. *)
Definition join_fields (field : jsval → option string)
  : bool → list (string * jsval) → string :=
  fix join (first : bool) (l : list (string * jsval)) : string :=
    match l with
    | [] => "}"
    | (k, x) :: r =>
        match field x with
        | Some t =>
            (if first then "" else ",") +:+ quote k +:+ ":" +:+ t
            +:+ join false r
        | None => join first r
        end
    end.

(** [JSON.stringify(v)]: the text, or [None] for [undefined].  A property
    whose value is [undefined] is left out; an [undefined] element of an array
    and a number that is not finite are written [null]. *)
Fixpoint JSON_stringify (v : jsval) : option string :=
  match v with
  | JUndefined => None
  | JNull => Some "null"
  | JBool b => Some (if b then "true" else "false")
  | JNum NaN | JNum (NInf _) => Some "null"
  | JNum n => Some (number_to_string n)
  | JStr s => Some (quote s)
  | JArr items =>
      Some ("[" +:+
            join_items (λ x, match JSON_stringify x with
                             | Some t => t
                             | None => "null"
                             end) items)
  | JObj fields => Some ("{" +:+ join_fields JSON_stringify true fields)
  end.

(** The text that [localStorage.setItem] stores for [JSON.stringify(v)]. *)
Definition stringify_text (v : jsval) : string :=
  match JSON_stringify v with
  | Some t => t
  | None => "undefined"
  end.

(** *** The values that JSON texts denote *)

(** A decimal in normal form. *)
Definition normal_decimal (n : number) : bool :=
  match n with
  | NInt _ => true
  | NDec m _ => negb (m mod 10 =? 0)
  | NaN | NInf _ => false
  end.

(** A finite number: a decimal in normal form that names a double. *)
Definition wf_number (n : number) : bool :=
  normal_decimal n && bool_decide (to_double n = n).

(** Whether the property [kv] may come after the name [k] in property
    order: after an array index come only greater indices and other names,
    after another name no index. *)
Definition may_follow (k : string) (kv : string * jsval) : bool :=
  match array_index k, array_index kv.1 with
  | Some i, Some j => i <? j
  | None, Some _ => false
  | _, None => true
  end.

(** A list of properties in property order, without a repeated name. *)
Fixpoint ordered_fields (fs : list (string * jsval)) : bool :=
  match fs with
  | [] => true
  | (k, _) :: r =>
      negb (has_field k r) && forallb (may_follow k) r && ordered_fields r
  end.

(** A value that [JSON.stringify] writes without loss, but for the
    properties that hold [undefined], which it leaves out. *)
Fixpoint json_ok (v : jsval) : bool :=
  match v with
  | JUndefined => false
  | JNull | JBool _ | JStr _ => true
  | JNum n => wf_number n
  | JArr items => forallb json_ok items
  | JObj fields =>
      ordered_fields fields &&
      forallb (λ '(_, x), match x with
                          | JUndefined => true
                          | _ => json_ok x
                          end) fields
  end.

(** A value that the property of an object may hold for [JSON.stringify] to
    write the object without loss. *)
Definition storable (v : jsval) : bool :=
  match v with
  | JUndefined => true
  | _ => json_ok v
  end.

(** The properties that do not hold [undefined], with [f] applied to the
    value of each. *)
Definition keep_defined (f : jsval → jsval)
  : list (string * jsval) → list (string * jsval) :=
  fix keep (l : list (string * jsval)) : list (string * jsval) :=
    match l with
    | [] => []
    | (k, x) :: r =>
        match x with
        | JUndefined => keep r
        | _ => (k, f x) :: keep r
        end
    end.

(** The value without its properties that hold [undefined]. *)
Fixpoint defined (v : jsval) : jsval :=
  match v with
  | JArr items => JArr (map defined items)
  | JObj fields => JObj (keep_defined defined fields)
  | _ => v
  end.

(** The value with [null] for each number that is not finite, which is what
    [JSON.stringify] writes for it. *)
Fixpoint finite (v : jsval) : jsval :=
  match v with
  | JNum NaN | JNum (NInf _) => JNull
  | JArr items => JArr (map finite items)
  | JObj fields => JObj (map (λ '(k, x), (k, finite x)) fields)
  | _ => v
  end.

(** A character that starts the text of a value. *)
Definition value_start (c : ascii) : bool :=
  Ascii.eqb c "{" || Ascii.eqb c "[" || Ascii.eqb c "034" || Ascii.eqb c "t"
  || Ascii.eqb c "f" || Ascii.eqb c "n" || Ascii.eqb c "-"
  || match digit_of 10 c with Some _ => true | None => false end.

(** A value that [JSON.stringify] writes and [JSON.parse] reads back as it
    is: written without loss, and with no property that holds [undefined]. *)
Definition plain (v : jsval) : Prop := json_ok v = true ∧ defined v = v.

(** A value as [JSON.parse] makes it: plain, but for the infinities that
    number literals beyond the range of the doubles are read as. *)
Definition parsed (v : jsval) : Prop := plain (finite v).

(** The text does not go on with a character of a number. *)
Definition number_ends (rest : string) : Prop :=
  match rest with
  | EmptyString => True
  | String c _ =>
      digit_of 10 c = None ∧ c ≠ "."%char ∧ c ≠ "e"%char ∧ c ≠ "E"%char
  end.

(** The text of a fraction part and of an exponent part. *)
Definition frac_text (fp : string) : string :=
  match fp with
  | EmptyString => ""
  | _ => String "." fp
  end.

Definition exp_text (ex : option (bool * string)) : string :=
  match ex with
  | None => ""
  | Some (neg, es) => String "e" (String (if neg then "-" else "+")%char es)
  end.

Definition exp_value (ex : option (bool * string)) : Z :=
  match ex with
  | None => 0%Z
  | Some (neg, es) =>
      if neg then - digits_value es 0 else digits_value es 0
  end.

(** The text is at its end, or at a comma or a closing bracket. *)
Definition value_ends (rest : string) : bool :=
  match rest with
  | EmptyString => true
  | String c _ => Ascii.eqb c "," || Ascii.eqb c "]" || Ascii.eqb c "}"
  end.

End Json.

(** ** The session store ([src/util/sessions.ts]) *)

Module Sessions.
Import Js Json.

(** [localStorage]: a finite map from key to text. *)
Abbreviation storage := (gmap string string).

Definition getItem (st : storage) (k : string) : option string := st !! k.
Definition setItem (k v : string) (st : storage) : storage := <[k := v]> st.
Definition removeItem (k : string) (st : storage) : storage := delete k st.

(** [text || fallback] for the result of [getItem]: [null] and the empty
    string are falsy. *)
Definition item_or (item : option string) (fallback : string) : string :=
  match item with
  | Some s => if String.eqb s "" then fallback else s
  | None => fallback
  end.

(** [ApiSessionData].  A field that is absent holds [JUndefined]; [keys] is
    the object of auth keys by data center, as its properties. *)
Record ApiSessionData := {
  mainDcId : jsval;
  keys : list (string * jsval);
  isTest : jsval;
  isLocalStorage : jsval;
  initConnectionParams : jsval;
  apiId : jsval;
  apiHash : jsval;
}.

(** The data centers; the constant is imported from the configuration and
    repeated by the single-account version of the module kept in the same
    source file ([const DC_IDS = [1, 2, 3, 4, 5]]). *)
Definition DC_IDS : list Z := [1; 2; 3; 4; 5].

(** [`dc${dcId}_auth_key`] *)
Definition auth_key_name (dcId : number) : string :=
  "dc" +:+ number_to_string dcId +:+ "_auth_key".

(** An account slot [number | undefined] as a value. *)
Definition slot_val (slot : option Z) : jsval :=
  match slot with
  | Some n => JNum (NInt n)
  | None => JUndefined
  end.

Section Store.

(** The names of the storage keys come from the configuration module, which
    the store takes as given. *)
Variable SESSION_ACCOUNT_PREFIX : string.
Variable SESSION_LEGACY_USER_KEY : string.
Variable IS_SCREEN_LOCKED_CACHE_KEY : string.

(** Whether the build logs to the console ([DEBUG] of the configuration). *)
Variable DEBUG : bool.

(** The slot of the running account ([ACCOUNT_SLOT] of the multi-account
    module): fixed for the life of the page. *)
Variable ACCOUNT_SLOT : option Z.

(** [`${SESSION_ACCOUNT_PREFIX}${slot || 1}`] *)
Definition slot_key (slot : option Z) : string :=
  SESSION_ACCOUNT_PREFIX +:+ to_string (js_or (slot_val slot) (JNum (NInt 1))).

Definition checkSessionLocked (st : storage) : bool :=
  bool_decide (getItem st IS_SCREEN_LOCKED_CACHE_KEY = Some "true").

(** Returns the slot data, or [JUndefined]. *)
Definition loadSlotSession (st : storage) (slot : option Z) : jsval :=
  try_catch
    (bind (JSON_parse (item_or (getItem st (slot_key slot)) "{}")) (fun data =>
     bind (get_prop data "dcId") (fun dcId =>
     if negb (truthy dcId) then Returns JUndefined else Returns data)))
    JUndefined.

(** [userAuth && userAuth.id && userAuth.dcID] *)
Definition legacy_auth_test (userAuth : jsval) : outcome jsval :=
  if truthy userAuth then
    bind (get_prop userAuth "id") (fun id =>
    if truthy id then get_prop userAuth "dcID" else Returns id)
  else Returns userAuth.

Definition hasStoredSession (st : storage) : outcome bool :=
  if checkSessionLocked st then Returns true
  else
    let slotData := loadSlotSession st ACCOUNT_SLOT in
    if truthy slotData then
      bind (get_prop slotData "dcId") (fun dcId => Returns (truthy dcId))
    else
      if negb (truthy (slot_val ACCOUNT_SLOT)) then
        match getItem st SESSION_LEGACY_USER_KEY with
        | Some legacyAuthJson =>
            if negb (String.eqb legacyAuthJson "") then
              Returns (try_catch
                (bind (JSON_parse legacyAuthJson) (fun userAuth =>
                 bind (legacy_auth_test userAuth) (fun r => Returns (truthy r))))
                false)
            else Returns false
        | None => Returns false
        end
      else Returns false.

(** [Object.keys(keys).map(Number)] *)
Definition key_dc_ids (keys : list (string * jsval)) : list number :=
  map string_to_number (object_keys keys).

(** [keys[dcId]] *)
Definition key_of (keys : list (string * jsval)) (dcId : number) : jsval :=
  lookup_field (number_to_string dcId) keys.

Definition storeLegacySession (sessionData : ApiSessionData)
    (currentUserId : jsval) (st : storage) : storage :=
  let st1 := setItem SESSION_LEGACY_USER_KEY
               (stringify_text (JObj [("dcID", mainDcId sessionData);
                                      ("id", currentUserId);
                                      ("test", isTest sessionData)])) st in
  let st2 := setItem "dc" (to_string (mainDcId sessionData)) st1 in
  foldl (fun acc dcId =>
           setItem (auth_key_name dcId)
                   (stringify_text (key_of (keys sessionData) dcId)) acc)
        st2 (key_dc_ids (keys sessionData)).

(** Modelled from the spec: [writeSlotSession] of the multi-account module,
    which is not part of the sources at hand.  The persistence surface holds,
    under the key of the account slot, the JSON text of the slot data; the
    key is the one [loadSlotSession] reads. *)
Definition writeSlotSession (slot : option Z) (data : list (string * jsval))
    (st : storage) : storage :=
  setItem (slot_key slot) (stringify_text (JObj data)) st.

(** The object [newSlotData] that [storeSession] builds from the current slot
    data and the incoming session. *)
Definition newSlotData (currentSlotData : jsval) (sessionData : ApiSessionData)
  : list (string * jsval) :=
  foldl (fun acc dcId =>
           set_field (auth_key_name dcId) (key_of (keys sessionData) dcId) acc)
        (set_field "isTest" (isTest sessionData)
           (set_field "dcId" (mainDcId sessionData) (spread currentSlotData)))
        (key_dc_ids (keys sessionData)).

Definition storeSession (sessionData : ApiSessionData) (st : storage) : storage :=
  let currentSlotData := loadSlotSession st ACCOUNT_SLOT in
  let data := newSlotData currentSlotData sessionData in
  let st1 :=
    if negb (truthy (slot_val ACCOUNT_SLOT)) then
      storeLegacySession sessionData (get_prop_opt currentSlotData "userId") st
    else st in
  writeSlotSession ACCOUNT_SLOT data st1.

(** The body of the function is commented out in the source: it removes
    nothing. *)
Definition clearStoredLegacySession (st : storage) : storage := st.

Definition clearStoredSession (slot : option Z) (st : storage) : storage :=
  let st1 :=
    if negb (truthy (slot_val slot)) then clearStoredLegacySession st else st in
  removeItem (slot_key slot) st1.

(** The loop of [loadStoredLegacySession] over [DC_IDS].  A key whose text
    does not parse is skipped by the [catch] of the loop body.  (The hashes
    read after the key stay local to the function.) *)
Definition legacy_keys (st : storage) : list (string * jsval) :=
  foldl (fun acc dcId =>
           match getItem st (auth_key_name (NInt dcId)) with
           | Some key =>
               match JSON_parse key with
               | Returns v => set_field (number_to_string (NInt dcId)) v acc
               | Throws _ => acc
               end
           | None => acc
           end)
        [] DC_IDS.

(** The [try] block that attaches the connection parameters of
    [user_entourage] to the result. *)
Definition with_entourage (st : storage) (result : ApiSessionData)
  : ApiSessionData :=
  try_catch
    (bind (JSON_parse (default "null" (getItem st "user_entourage")))
       (fun entourage =>
        if truthy (js_and (get_prop_opt entourage "apiId")
                          (get_prop_opt entourage "apiHash")) then
          Returns {| mainDcId := mainDcId result;
                     keys := keys result;
                     isTest := isTest result;
                     isLocalStorage := isLocalStorage result;
                     initConnectionParams := js_or entourage (JObj []);
                     apiId := get_prop_opt entourage "apiId";
                     apiHash := get_prop_opt entourage "apiHash" |}
        else Returns result))
    result.

(** The result is [None] for [undefined].  The console output of this
    function has no effect on the result, and is not part of the model. *)
Definition loadStoredLegacySession (st : storage)
  : outcome (option ApiSessionData) :=
  bind (hasStoredSession st) (fun has =>
  if negb has then Returns None
  else
    bind (JSON_parse (item_or (getItem st SESSION_LEGACY_USER_KEY) "null"))
      (fun userAuth =>
    if negb (truthy userAuth) then Returns None
    else
      bind (get_prop userAuth "dcID") (fun dcID =>
      bind (get_prop userAuth "test") (fun test =>
      let keys := legacy_keys st in
      if (length (object_keys keys) =? 0)%nat then Returns None
      else
        Returns (Some (with_entourage st
          {| mainDcId := JNum (to_number dcID);
             keys := keys;
             isTest := test;
             isLocalStorage := JBool false;
             initConnectionParams := JUndefined;
             apiId := JUndefined;
             apiHash := JUndefined |})))))).

(** The [reduce] of [loadStoredSession] over [DC_IDS]. *)
Definition slot_keys (slotData : jsval) : outcome (list (string * jsval)) :=
  foldl (fun acc dcId =>
           bind acc (fun acc =>
           bind (get_prop slotData (auth_key_name (NInt dcId))) (fun key =>
           if truthy key
           then Returns (set_field (number_to_string (NInt dcId)) key acc)
           else Returns acc)))
        (Returns []) DC_IDS.

(** Under [DEBUG] the function first logs [!hasStoredSession()] and then the
    item under [SESSION_USER_KEY], a name that the module neither imports
    nor declares: evaluating it throws a ReferenceError. *)
Definition loadStoredSession (st : storage) : outcome (option ApiSessionData) :=
  bind (if DEBUG
        then bind (hasStoredSession st) (fun _ => Throws ReferenceError)
        else Returns tt) (fun _ =>
  bind (hasStoredSession st) (fun has =>
  if negb has then Returns None
  else
    let slotData := loadSlotSession st ACCOUNT_SLOT in
    if negb (truthy slotData) then
      if truthy (slot_val ACCOUNT_SLOT) then Returns None
      else loadStoredLegacySession st
    else
      bind (get_prop slotData "dcId") (fun dcId =>
      bind (slot_keys slotData) (fun keys =>
      bind (get_prop slotData "isTest") (fun isTest =>
      Returns (Some {| mainDcId := dcId;
                       keys := keys;
                       isTest := js_or isTest JUndefined;
                       isLocalStorage := JUndefined;
                       initConnectionParams := JUndefined;
                       apiId := JUndefined;
                       apiHash := JUndefined |})))))).

(** The keys of [localStorage] whose items [loadStoredSession] returns a
    result from: the lock flag, the slot of the account, the legacy user,
    the connection parameters and the legacy auth keys.  (The [dc<N>_hash]
    items are read too, into an object that the function drops.) *)
Definition session_keys : list string :=
  [IS_SCREEN_LOCKED_CACHE_KEY; slot_key ACCOUNT_SLOT; SESSION_LEGACY_USER_KEY;
   "user_entourage"] ++ ((λ d, auth_key_name (NInt d)) <$> DC_IDS).

(** *** The claims of the specification that the code does not meet, as the
    specification states them *)

(** Once slot data exists, a save writes no key but the one of the slot. *)
Definition save_writes_only_slot_key (sessionData : ApiSessionData)
    (st : storage) : Prop :=
  truthy (loadSlotSession st ACCOUNT_SLOT) = true →
  ∀ k, k ≠ slot_key ACCOUNT_SLOT → storeSession sessionData st !! k = st !! k.

(** A slot whose text is not valid JSON loads as [undefined], from
    [loadSlotSession] and from [loadStoredSession]. *)
Definition corrupt_slot_loads_undefined (st : storage) : Prop :=
  ∀ text, st !! slot_key ACCOUNT_SLOT = Some text →
    JSON_parse text = Throws SyntaxError →
    loadSlotSession st ACCOUNT_SLOT = JUndefined ∧
    loadStoredSession st = Returns None.

(** A save leaves the stored [userId], and the stored auth keys of the data
    centers that the incoming session does not carry, as they are. *)
Definition save_keeps_slot_fields (sessionData : ApiSessionData)
    (st : storage) : Prop :=
  ∀ current, loadSlotSession st ACCOUNT_SLOT = JObj current →
  ∃ stored,
    loadSlotSession (storeSession sessionData st) ACCOUNT_SLOT = JObj stored ∧
    lookup_field "userId" stored = lookup_field "userId" current ∧
    ∀ dcId, dcId ∈ DC_IDS → NInt dcId ∉ key_dc_ids (keys sessionData) →
      lookup_field (auth_key_name (NInt dcId)) stored
      = lookup_field (auth_key_name (NInt dcId)) current.

(** With the lock flag not set, clearing the slot removes the session. *)
Definition clear_removes_session (st : storage) : Prop :=
  checkSessionLocked st = false →
  let st' := clearStoredSession ACCOUNT_SLOT st in
  hasStoredSession st' = Returns false ∧ loadStoredSession st' = Returns None.

End Store.

(** *** Sessions of the two formats *)

(** Two sessions with the same [mainDcId], [keys] and [isTest]. *)
Definition same_session (a b : ApiSessionData) : Prop :=
  mainDcId a = mainDcId b ∧ keys a = keys b ∧ isTest a = isTest b.

(** A session as a login produces it: a data center, auth keys that are not
    empty, and [isTest] either absent or truthy. *)
Definition well_formed_session (a : ApiSessionData) : Prop :=
  truthy (mainDcId a) = true ∧
  Forall (λ kv, truthy kv.2 = true) (keys a) ∧
  (isTest a = JUndefined ∨ truthy (isTest a) = true).

(** A session that the text of the slot data holds without loss: a data
    center that is truthy, and values that [JSON.stringify] writes as they
    are. *)
Definition storable_session (a : ApiSessionData) : Prop :=
  json_ok (mainDcId a) = true ∧ truthy (mainDcId a) = true ∧
  storable (isTest a) = true ∧
  Forall (λ kv, storable kv.2 = true) (keys a).

(** The legacy auth key of data center [dcId], when it is stored and parses. *)
Definition legacy_key (st : storage) (dcId : Z) : option jsval :=
  match getItem st (auth_key_name (NInt dcId)) with
  | Some key =>
      match JSON_parse key with
      | Returns v => Some v
      | Throws _ => None
      end
  | None => None
  end.

(** The keys object that holds the given key of each data center. *)
Definition keys_object (found : list (option jsval)) : list (string * jsval) :=
  omap (λ nv, (λ v, (nv.1, v)) <$> nv.2) (zip ["1"; "2"; "3"; "4"; "5"] found).

(** The legacy path and the slotted path load the same session, as the
    specification states it: a store [st] without slot data whose legacy auth
    keys are valid loads a session with the [mainDcId], [keys] and [isTest]
    of the session that [st'] loads, whose slot holds the same data (the
    data center as a number, the test flag and the auth keys). *)
Definition legacy_load_matches_slotted
    (SESSION_ACCOUNT_PREFIX SESSION_LEGACY_USER_KEY
       IS_SCREEN_LOCKED_CACHE_KEY : string)
    (DEBUG : bool) (ACCOUNT_SLOT : option Z) (st st' : storage) : Prop :=
  ∀ userText slotText userAuth fs,
    loadSlotSession SESSION_ACCOUNT_PREFIX st ACCOUNT_SLOT = JUndefined →
    st !! SESSION_LEGACY_USER_KEY = Some userText →
    JSON_parse userText = Returns userAuth →
    truthy (get_prop_opt userAuth "id") = true →
    truthy (get_prop_opt userAuth "dcID") = true →
    keys_object (legacy_key st <$> DC_IDS) ≠ [] →
    Forall (λ kv, truthy kv.2 = true) (keys_object (legacy_key st <$> DC_IDS)) →
    st' !! slot_key SESSION_ACCOUNT_PREFIX ACCOUNT_SLOT = Some slotText →
    JSON_parse slotText = Returns (JObj fs) →
    lookup_field "dcId" fs = JNum (to_number (get_prop_opt userAuth "dcID")) →
    lookup_field "isTest" fs = get_prop_opt userAuth "test" →
    (λ d, lookup_field (auth_key_name (NInt d)) fs) <$> DC_IDS
      = default JUndefined <$> (legacy_key st <$> DC_IDS) →
    ∃ a b,
      loadStoredSession SESSION_ACCOUNT_PREFIX SESSION_LEGACY_USER_KEY
        IS_SCREEN_LOCKED_CACHE_KEY DEBUG ACCOUNT_SLOT st = Returns (Some a) ∧
      loadStoredSession SESSION_ACCOUNT_PREFIX SESSION_LEGACY_USER_KEY
        IS_SCREEN_LOCKED_CACHE_KEY DEBUG ACCOUNT_SLOT st' = Returns (Some b) ∧
      same_session a b.

End Sessions.

(** ** Example stores *)

Module SessionExamples.
Import Js Json Sessions.

(** A JSON text written with apostrophes for its double quotes. *)
Fixpoint text (s : string) : string :=
  match s with
  | EmptyString => ""
  | String c r => String (if Ascii.eqb c "'" then "034"%char else c) (text r)
  end.

Definition PREFIX : string := "account".
Definition LEGACY : string := "user_auth".
Definition LOCK : string := "tt-is-screen-locked".

(** A session on data center 2. *)
Definition session2 : ApiSessionData :=
  {| mainDcId := JNum (NInt 2);
     keys := [("2", JStr "abcd")];
     isTest := JBool true;
     isLocalStorage := JUndefined;
     initConnectionParams := JUndefined;
     apiId := JUndefined;
     apiHash := JUndefined |}.

(** A store in the slotted format only. *)
Definition slotted_store : storage :=
  {[ "account1" := text "{'dcId':1,'userId':'77','dc1_auth_key':'k1'}" ]}.

(** A store in the legacy format only. *)
Definition legacy_store : storage :=
  {[ "user_auth" := text "{'dcID':2,'id':'77','test':true}";
     "dc" := "2";
     "dc2_auth_key" := text "'abcd'" ]}.

(** The slotted twin of [legacy_store]. *)
Definition migrated_store : storage :=
  {[ "account1" := text "{'dcId':2,'isTest':true,'dc2_auth_key':'abcd'}" ]}.

(** A legacy store whose slot key holds a damaged text. *)
Definition corrupt_store : storage := <["account1" := "{bad"]> legacy_store.

(** A store with both formats, as a save at slot zero leaves it. *)
Definition both_store : storage :=
  <["account1" := text "{'dcId':2,'userId':'77','dc2_auth_key':'abcd'}"]>
    legacy_store.

(** A slot whose data has no data center. *)
Definition no_dc_store : storage :=
  {[ "account3" := text "{'userId':'77','dc2_auth_key':'abcd'}" ]}.

(** A store in the legacy format whose test flag is [false], and its slotted
    twin. *)
Definition legacy_false_store : storage :=
  {[ "user_auth" := text "{'dcID':2,'id':'77','test':false}";
     "dc" := "2";
     "dc2_auth_key" := text "'abcd'" ]}.

Definition migrated_false_store : storage :=
  {[ "account1" := text "{'dcId':2,'isTest':false,'dc2_auth_key':'abcd'}" ]}.

(** A slot whose user id is a number beyond the range of the doubles. *)
Definition overflow_store : storage :=
  {[ "account1" := text "{'dcId':1,'userId':1e400}" ]}.

(** A locked store with damaged data. *)
Definition locked_store : storage :=
  {[ "tt-is-screen-locked" := "true"; "account1" := "{bad"; "user_auth" := "{bad" ]}.

End SessionExamples.

(** ** The de-duplicated full-chat fetch ([fetchFullChat]) *)

Module FullChat.

Section Dedupe.

(** What a request resolves with, and what a full-chat fetch resolves with
    ([FullChatData | undefined]). *)
Variable Payload : Type.
Variable FullChatData : Type.

Inductive entity_type := EUser | EChat | EChannel.

(** [getEntityTypeById] of the builders module, taken as given. *)
Variable getEntityTypeById : string -> entity_type.

(** The objects that [getFullChatInfo] and [getFullChannelInfo] return, which
    builders outside the sources at hand make from the results of the
    requests. *)
Variable buildFullChat : Payload -> FullChatData.
Variable buildFullChannel : list (option Payload) -> FullChatData.

(** The properties of an [ApiChat] that the fetch reads: its id, whether
    [adminRights] is set, [isMonoforum], [isNotJoined], and whether [type] is
    ['chatTypeChannel']. *)
Record ApiChat := {
  chat_id : string;
  adminRights : bool;
  isMonoforum : bool;
  isNotJoined : bool;
  isChannelType : bool;
}.

(** [memberFilter] of [fetchMembers] ('recent' is its default). *)
Inductive member_filter := Recent | Kicked | Admin.

(** The requests that a fetch hands to [invokeRequest]. *)
Inductive request :=
  | GetFullChannel (id : string)
  | GetFullChat (id : string)
  | GetParticipants (id : string) (memberFilter : member_filter)
  | GetParticipant (id : string).

Definition request_id (r : request) : string :=
  match r with
  | GetFullChannel id | GetFullChat id | GetParticipants id _
  | GetParticipant id => id
  end.

(** What [invokeRequest] resolves with: nothing, or a result.  [full] tells
    whether [result.fullChat] is of the class that the function checks for,
    and [canViewParticipants] is the flag of a [ChannelFull]. *)
Inductive reply :=
  | NoResult
  | Result (full canViewParticipants : bool) (payload : Payload).

Definition payload_of (r : reply) : option Payload :=
  match r with
  | NoResult => None
  | Result _ _ p => Some p
  end.

Inductive settlement :=
  | Fulfilled (v : option FullChatData)
  | Rejected.

(** The [await] at which a fetch is suspended. *)
Inductive stage :=
  | FullChatStage
  | FullChannelStage
  | MembersStage (memberFilter : member_filter)
  | MemberStage.

Definition request_of (id : string) (s : stage) : request :=
  match s with
  | FullChatStage => GetFullChat id
  | FullChannelStage => GetFullChannel id
  | MembersStage f => GetParticipants id f
  | MemberStage => GetParticipant id
  end.

(** A fetch that is suspended: the chat it was called with, the [await] it
    is at, the awaits that follow, and the results it has. *)
Record fetch := {
  chat : ApiChat;
  awaiting : stage;
  todo : list stage;
  results : list (option Payload);
}.

(** A promise returned by one of the two fetch functions: pending, settled
    with its [finally] reaction still queued, or settled with the reaction
    run. *)
Inductive promise_state :=
  | Pending (f : fetch)
  | Settled (r : settlement)
  | Done (r : settlement).

Record promise := {
  pkey : string;
  pstate : promise_state;
}.

(** The module state: the map [fullChatRequestDedupe], the promises created
    so far (a promise is named by its position) and the requests issued. *)
Record state := {
  dedupe : gmap string nat;
  promises : list promise;
  network : list request;
}.

Definition init : state :=
  {| dedupe := ∅; promises := []; network := [] |}.

(** The awaits of [getFullChannelInfo] after the first one: the members
    ([canLoadParticipants && await fetchMembers(...)]), the kicked members
    (for an administrator), the administrators, and the member info of the
    account ([await fetchMember] for a channel that is joined). *)
Definition follow_ups (c : ApiChat) (canLoadParticipants : bool) : list stage :=
  (if canLoadParticipants then [MembersStage Recent] else []) ++
  (if canLoadParticipants && adminRights c then [MembersStage Kicked] else []) ++
  (if canLoadParticipants then [MembersStage Admin] else []) ++
  (if negb (isNotJoined c) && isChannelType c then [MemberStage] else []).

(** The fetch goes on to its next await, or returns. *)
Definition continue (id : string) (c : ApiChat) (stages : list stage)
    (got : list (option Payload)) : promise_state * list request :=
  match stages with
  | s :: rest =>
      (Pending {| chat := c; awaiting := s; todo := rest; results := got |},
       [request_of id s])
  | [] => (Settled (Fulfilled (Some (buildFullChannel got))), [])
  end.

(** The fetch [f] for chat [id] resumes with the result of the request that
    it awaits: the new state of its promise, and the request that it
    issues. *)
Definition resume (id : string) (f : fetch) (r : reply)
  : promise_state * list request :=
  match awaiting f with
  | FullChatStage =>
      match r with
      | Result true _ p => (Settled (Fulfilled (Some (buildFullChat p))), [])
      | _ => (Settled (Fulfilled None), [])
      end
  | FullChannelStage =>
      match r with
      | Result true canViewParticipants p =>
          let canLoadParticipants :=
            canViewParticipants && negb (isMonoforum (chat f)) in
          continue id (chat f) (follow_ups (chat f) canLoadParticipants)
            [Some p]
      | _ => (Settled (Fulfilled None), [])
      end
  | MembersStage _ | MemberStage =>
      continue id (chat f) (todo f) (results f ++ [payload_of r])
  end.

(** The first await of the fetch that [fetchFullChat] calls:
    [getFullChannelInfo] for a channel, [getFullChatInfo] otherwise. *)
Definition first_stage (id : string) : stage :=
  match getEntityTypeById id with
  | EChannel => FullChannelStage
  | _ => FullChatStage
  end.

(** The body of [fetchFullChat] runs without interruption up to its
    [return], and so does the fetch function that it calls up to its first
    [await]: the promise handed to the caller, and the new state. *)
Definition fetchFullChat (c : ApiChat) (s : state) : nat * state :=
  let id := chat_id c in
  match dedupe s !! id with
  | Some p => (p, s)
  | None =>
      let first := first_stage id in
      let p := length (promises s) in
      (p, {| dedupe := <[id := p]> (dedupe s);
             promises :=
               promises s ++
               [{| pkey := id;
                   pstate := Pending {| chat := c; awaiting := first;
                                        todo := []; results := [] |} |}];
             network := network s ++ [request_of id first] |})
  end.

(** What happens between calls: a caller calls [fetchFullChat], the request
    that a fetch awaits resolves or fails, or the reaction registered by
    [promise.finally] runs. *)
Inductive event :=
  | Call (c : ApiChat)
  | Reply (p : nat) (r : reply)
  | Fail (p : nat)
  | Finally (p : nat).

Definition step (s : state) (ev : event) : state :=
  match ev with
  | Call c => (fetchFullChat c s).2
  | Reply p r =>
      match promises s !! p with
      | Some {| pkey := k; pstate := Pending f |} =>
          {| dedupe := dedupe s;
             promises :=
               <[p := {| pkey := k; pstate := (resume k f r).1 |}]> (promises s);
             network := network s ++ (resume k f r).2 |}
      | _ => s
      end
  | Fail p =>
      match promises s !! p with
      | Some {| pkey := k; pstate := Pending f |} =>
          {| dedupe := dedupe s;
             promises :=
               <[p := {| pkey := k; pstate := Settled Rejected |}]> (promises s);
             network := network s |}
      | _ => s
      end
  | Finally p =>
      match promises s !! p with
      | Some {| pkey := k; pstate := Settled r |} =>
          {| dedupe := delete k (dedupe s);
             promises := <[p := {| pkey := k; pstate := Done r |}]> (promises s);
             network := network s |}
      | _ => s
      end
  end.

Definition run (s : state) (evs : list event) : state := foldl step s evs.

(** The reaction of promise [p] has not run yet. *)
Definition outstanding (s : state) (p : nat) (id : string) : Prop :=
  ∃ st, promises s !! p = Some {| pkey := id; pstate := st |} ∧
        ∀ r, st ≠ Done r.

(** What a caller holding promise [p] receives. *)
Definition received (s : state) (p : nat) : option settlement :=
  match promises s !! p with
  | Some {| pstate := Settled r |} | Some {| pstate := Done r |} => Some r
  | _ => None
  end.

(** The requests issued for chat [id], in the order of their issue. *)
Definition requests_for (id : string) (s : state) : list request :=
  filter (λ r, request_id r = id) (network s).

(** The requests of one fetch for the chat [c]: the one of
    [getFullChatInfo], or those of [getFullChannelInfo]. *)
Definition fetch_requests (c : ApiChat) (canLoadParticipants : bool)
  : list request :=
  match getEntityTypeById (chat_id c) with
  | EChannel =>
      GetFullChannel (chat_id c) ::
      map (request_of (chat_id c)) (follow_ups c canLoadParticipants)
  | _ => [GetFullChat (chat_id c)]
  end.

(** An await of [getFullChannelInfo] after the first one. *)
Definition is_follow_up (s : stage) : bool :=
  match s with
  | MembersStage _ | MemberStage => true
  | FullChatStage | FullChannelStage => false
  end.

(** The requests [issued] so far by a fetch for the chat [c] whose promise
    is in state [st] are the first requests of [fetch_requests], and the
    awaits that follow are the rest of them. *)
Definition on_plan (c : ApiChat) (issued : list request) (st : promise_state)
  : Prop :=
  match st with
  | Pending f =>
      chat f = c ∧
      (awaiting f = first_stage (chat_id c) ∧ todo f = [] ∧
       issued = [request_of (chat_id c) (first_stage (chat_id c))]
       ∨ is_follow_up (awaiting f) = true ∧
         Forall (λ s, is_follow_up s = true) (todo f) ∧
         issued ≠ [] ∧
         ∃ canLoadParticipants,
           issued ++ map (request_of (chat_id c)) (todo f)
           = fetch_requests c canLoadParticipants)
  | _ =>
      ∃ canLoadParticipants n,
        issued = take (S n) (fetch_requests c canLoadParticipants)
  end.

(** The map holds exactly the promises whose reaction has not run. *)
Definition dedupe_inv (s : state) : Prop :=
  (∀ id p, dedupe s !! id = Some p → outstanding s p id) ∧
  (∀ id p, outstanding s p id → dedupe s !! id = Some p).

(** The claim of the specification that the code does not meet, as the
    specification states it: two calls for the same chat, the second made
    while the first is outstanding, issue one network request. *)
Definition one_request_for_two_calls (pre mid : list event) (c : ApiChat)
  : Prop :=
  let s0 := run init pre in
  dedupe s0 !! chat_id c = None →
  let p1 := (fetchFullChat c s0).1 in
  let s2 := run (fetchFullChat c s0).2 mid in
  outstanding s2 p1 (chat_id c) →
  let s3 := (fetchFullChat c s2).2 in
  length (requests_for (chat_id c) s3)
  = S (length (requests_for (chat_id c) s0)).

End Dedupe.

Arguments NoResult {Payload}.
Arguments Result {Payload} full canViewParticipants payload.
Arguments payload_of {Payload} r.
Arguments Fulfilled {FullChatData} v.
Arguments Rejected {FullChatData}.
Arguments Build_fetch {Payload} chat awaiting todo results.
Arguments chat {Payload} f.
Arguments awaiting {Payload} f.
Arguments todo {Payload} f.
Arguments results {Payload} f.
Arguments Pending {Payload FullChatData} f.
Arguments Settled {Payload FullChatData} r.
Arguments Done {Payload FullChatData} r.
Arguments Build_promise {Payload FullChatData} pkey pstate.
Arguments pkey {Payload FullChatData} p.
Arguments pstate {Payload FullChatData} p.
Arguments Build_state {Payload FullChatData} dedupe promises network.
Arguments dedupe {Payload FullChatData} s.
Arguments promises {Payload FullChatData} s.
Arguments network {Payload FullChatData} s.
Arguments Call {Payload} c.
Arguments Reply {Payload} p r.
Arguments Fail {Payload} p.
Arguments Finally {Payload} p.
Arguments outstanding {Payload FullChatData} s p id.
Arguments received {Payload FullChatData} s p.
Arguments requests_for {Payload FullChatData} id s.
Arguments dedupe_inv {Payload FullChatData} s.
Arguments on_plan {Payload FullChatData} getEntityTypeById c issued st.

End FullChat.

(** ** The update sequencer *)

Module Sequencer.

Record update := {
  seq : Z;
  body : string;
}.

(** Modelled from the spec: the SequenceState of one ordering scope, with the
    updates delivered to the subscribers so far.  The update manager that
    implements it is not part of the sources at hand (only the calls of
    [updateChannelState] are). *)
Record state := {
  lastAppliedSeq : Z;
  buffer : list update;
  delivered : list update;
}.

Definition init (last : Z) : state :=
  {| lastAppliedSeq := last; buffer := []; delivered := [] |}.

(** Modelled from the spec: the smallest buffered sequence number, if a gap
    is open. *)
Definition pendingSeq (st : state) : option Z :=
  match map seq (buffer st) with
  | [] => None
  | s :: r => Some (foldr Z.min s r)
  end.

(** Modelled from the spec: applying an update delivers it and advances
    [lastAppliedSeq]. *)
Definition apply (u : update) (st : state) : state :=
  {| lastAppliedSeq := seq u;
     buffer := buffer st;
     delivered := delivered st ++ [u] |}.

(** Modelled from the spec: chain-applying the buffer.  While a buffered
    update has the sequence number [lastAppliedSeq + 1] it is applied;
    buffered updates at or below [lastAppliedSeq] are discarded as already
    covered. *)
Fixpoint chain_apply (fuel : nat) (st : state) : state :=
  let kept := filter (λ u, lastAppliedSeq st < seq u) (buffer st) in
  let st' := {| lastAppliedSeq := lastAppliedSeq st;
                buffer := kept;
                delivered := delivered st |} in
  match fuel with
  | O => st'
  | S fuel' =>
      match find (λ u, seq u =? lastAppliedSeq st + 1) kept with
      | Some u => chain_apply fuel' (apply u st')
      | None => st'
      end
  end.

Definition flush (st : state) : state := chain_apply (length (buffer st)) st.

(** Modelled from the spec: "if seq == lastAppliedSeq + 1, apply immediately
    and advance lastAppliedSeq; if seq <= lastAppliedSeq, discard as a
    duplicate; if seq > lastAppliedSeq + 1, buffer it and open a gap". *)
Definition ingest (u : update) (st : state) : state :=
  if seq u =? lastAppliedSeq st + 1 then flush (apply u st)
  else if seq u <=? lastAppliedSeq st then st
  else {| lastAppliedSeq := lastAppliedSeq st;
          buffer := buffer st ++ [u];
          delivered := delivered st |}.

(** Modelled from the spec: "on receiving the catch-up response,
    lastAppliedSeq is set to the server-reported value and any buffered
    updates with seq <= new lastAppliedSeq are discarded as already covered,
    while updates with seq == new lastAppliedSeq + 1 chain-apply". *)
Definition catch_up (checkpoint : Z) (st : state) : state :=
  flush {| lastAppliedSeq := checkpoint;
           buffer := buffer st;
           delivered := delivered st |}.

Inductive event :=
  | Ingest (u : update)
  | CatchUp (checkpoint : Z).

Definition step (st : state) (ev : event) : state :=
  match ev with
  | Ingest u => ingest u st
  | CatchUp c => catch_up c st
  end.

Definition run (st : state) (evs : list event) : state := foldl step st evs.

(** The catch-up responses of a run never report a checkpoint behind the
    sequence number already applied ([lastAppliedSeq] is never rolled
    back). *)
Fixpoint checkpoints_ahead (st : state) (evs : list event) : bool :=
  match evs with
  | [] => true
  | ev :: r =>
      match ev with
      | CatchUp c => lastAppliedSeq st <=? c
      | Ingest _ => true
      end && checkpoints_ahead (step st ev) r
  end.

Definition delivered_seqs (st : state) : list Z := map seq (delivered st).

(** The number of times sequence number [s] was delivered. *)
Definition times_delivered (s : Z) (st : state) : nat :=
  length (filter (λ x, x = s) (delivered_seqs st)).

(** The checkpoints reported by the catch-up responses of a run. *)
Definition checkpoints (evs : list event) : list Z :=
  omap (λ ev, match ev with CatchUp c => Some c | Ingest _ => None end) evs.

(** The delivery invariant of a scope that started at [base], after catch-up
    responses with the checkpoints [cps]: the delivered sequence numbers
    increase strictly, lie between [base] and [lastAppliedSeq], and every
    number in that range that was not delivered is at or below a checkpoint. *)
Record ordered (base : Z) (cps : list Z) (st : state) : Prop := {
  ord_sorted : StronglySorted Z.lt (delivered_seqs st);
  ord_range : ∀ s, s ∈ delivered_seqs st → base < s <= lastAppliedSeq st;
  ord_base : base <= lastAppliedSeq st;
  ord_covered : ∀ s, base < s <= lastAppliedSeq st →
                s ∈ delivered_seqs st ∨ ∃ c, c ∈ cps ∧ s <= c;
}.

(** Every buffered update waits behind a gap. *)
Definition gap_open (st : state) : Prop :=
  ∀ u, u ∈ buffer st → lastAppliedSeq st + 1 < seq u.

(** Sequence number [s] is delivered, buffered or covered by a checkpoint. *)
Definition accounted (cps : list Z) (st : state) (s : Z) : Prop :=
  s ∈ delivered_seqs st ∨
  (∃ v, v ∈ buffer st ∧ seq v = s) ∨
  (∃ c, c ∈ cps ∧ s <= c).

End Sequencer.

(** ** The affected-history loop of [deleteTopic] *)

Module Topics.

(** [messages.AffectedHistory]: the result of [channels.DeleteTopicHistory]. *)
Record AffectedHistory := {
  pts : Z;
  ptsCount : Z;
  offset : Z;
}.

Section DeleteTopic.

(** The server, as seen through [invokeRequest]: the result of the [n]-th
    [DeleteTopicHistory] request of the run, [None] for [undefined]. *)
Variable invokeRequest : nat -> option AffectedHistory.

(** The world that [deleteTopic] acts on: the number of requests sent and the
    results handed to [processAffectedHistory], in order. *)
Record world := {
  sent : nat;
  processed : list AffectedHistory;
}.

Definition start : world := {| sent := 0; processed := [] |}.

(** [deleteTopic]; [fuel] bounds the depth of the recursion, and [None]
    stands for a run that has not returned within it. *)
Fixpoint deleteTopic (fuel : nat) (w : world) : option world :=
  match fuel with
  | O => None
  | S fuel' =>
      let w1 := {| sent := S (sent w); processed := processed w |} in
      match invokeRequest (sent w) with
      | None => Some w1
      | Some result =>
          let w2 := {| sent := sent w1;
                       processed := processed w1 ++ [result] |} in
          if negb (offset result =? 0) then deleteTopic fuel' w2
          else Some w2
      end
  end.

(** The offsets reported are non-negative and each non-zero offset is
    followed by a strictly smaller one (or by a failed request). *)
Definition offsets_decrease : Prop :=
  ∀ n r, invokeRequest n = Some r → offset r ≠ 0 →
    0 < offset r ∧
    ∀ r', invokeRequest (S n) = Some r' → 0 <= offset r' < offset r.

(** Some request fails or reports the offset zero. *)
Definition offsets_reach_zero : Prop :=
  ∃ n, match invokeRequest n with
       | Some r => offset r = 0
       | None => True
       end.

(** The [n]-th request ends the loop. *)
Definition last_request (n : nat) : Prop :=
  match invokeRequest n with
  | Some r => offset r = 0
  | None => True
  end.

End DeleteTopic.

End Topics.

(** ** Chat lists: [preparePeers] and [fetchChats] *)

Module ChatLists.
Import Js.

(** [id.toString()] for a BigInt. *)
Definition bigint_to_string (z : Z) : string :=
  if z =? 0 then "0"
  else (if z <? 0 then "-" else "") +:+ digits (Z.abs z).

Section PreparePeers.

(** A chat or a user as the server sends it ([GramJs.TypeChat],
    [GramJs.TypeUser]): its [id], and its [min] flag when it has one. *)
Variable Entity : Type.
Variable entity_id : Entity → Z.
Variable entity_min : Entity → option bool.

(** ['min' in e && e.min] *)
Definition min_flag (e : Entity) : bool :=
  match entity_min e with
  | Some b => b
  | None => false
  end.

(** [`chat${chat.id.toString()}`], [`user${user.id.toString()}`] *)
Definition peer_key (prefix : string) (e : Entity) : string :=
  prefix +:+ bigint_to_string (entity_id e).

(** [currentStore?.[key]], as a test *)
Definition known (currentStore : option (gmap string Entity)) (key : string)
  : bool :=
  match currentStore with
  | Some cs => bool_decide (is_Some (cs !! key))
  | None => false
  end.

(** The body of the two [forEach] loops of [preparePeers]. *)
Definition store_peer (prefix : string)
    (currentStore : option (gmap string Entity))
    (store : gmap string Entity) (e : Entity) : gmap string Entity :=
  let key := peer_key prefix e in
  if known currentStore key && min_flag e then store
  else <[key := e]> store.

(** [result.chats] and [result.users] are [None] when the result has no such
    property. *)
Definition preparePeers (chats users : option (list Entity))
    (currentStore : option (gmap string Entity)) : gmap string Entity :=
  let store := foldl (store_peer "chat" currentStore) ∅ (default [] chats) in
  foldl (store_peer "user" currentStore) store (default [] users).

(** The entities of a key that a loop of [preparePeers] stores. *)
Definition stored_under (prefix : string)
    (currentStore : option (gmap string Entity)) (k : string) (e : Entity)
  : Prop :=
  peer_key prefix e = k ∧ (known currentStore k && min_flag e) = false.

#[global] Instance stored_under_dec prefix cs k e :
  Decision (stored_under prefix cs k e).
Proof. unfold stored_under. apply _. Defined.

End PreparePeers.

Section FetchChats.

Variable Entity : Type.
Variable entity_id : Entity → Z.
Variable entity_min : Entity → option bool.

(** The types of the server that the function hands to the builders, and
    what the builders make of them; the builders are functions of other
    modules, taken as given. *)
Variable Peer MtpMessage MtpNotifySettings MtpDraft : Type.
Variable ChatBody MessageBody NotifySettings Draft ApiUser UserStatuses : Type.

(** [GramJs.Dialog]; a [TypeDialog] that is not one ([GramJs.DialogFolder])
    is [None] in the list of dialogs. *)
Record Dialog := {
  peer : Peer;
  folderId : option Z;
  topMessage : Z;
  pts : option Z;
  pinned : option bool;
  notifySettings : MtpNotifySettings;
  draft : option MtpDraft;
}.

(** [ApiChat]: the fields that [fetchChats] reads and writes. *)
Record ApiChat := {
  chat_id : string;
  isListed : option bool;
  chat_body : ChatBody;
}.

(** [ApiMessage]: the fields that [fetchChats] reads. *)
Record ApiMessage := {
  msg_chatId : string;
  msg_id : Z;
  msg_date : Z;
  msg_body : MessageBody;
}.

Variable getPeerKey : Peer → string.
Variable buildApiChatFromDialog : Dialog → option Entity → ApiChat.
Variable buildApiMessage : MtpMessage → option ApiMessage.
Variable buildApiPeerNotifySettings : MtpNotifySettings → NotifySettings.
(** [Object.values(omitUndefined(notifySettings)).length], as a test, and
    [notifySettings.mutedUntil] *)
Variable has_settings : NotifySettings → bool.
Variable mutedUntil : NotifySettings → option Z.
Variable buildMessageDraft : MtpDraft → option Draft.
Variable buildApiUser : Entity → option ApiUser.
Variable buildApiUserStatuses : list Entity → UserStatuses.

Variable ARCHIVED_FOLDER_ID : Z.
Variable SERVICE_NOTIFICATIONS_USER_ID : string.

(** [messages.Dialogs], [messages.DialogsSlice] (with its [count]) and
    [messages.PeerDialogs]: the fields read. *)
Record DialogList := {
  slice_count : option Z;
  dialogs : list (option Dialog);
  messages : list MtpMessage;
  chats : list Entity;
  users : list Entity;
}.

(** What [GetDialogs] resolves with. *)
Inductive DialogsResponse :=
  | DialogsNotModified
  | Dialogs (l : DialogList).

(** The calls that [fetchChats] makes to the update manager and to the
    unmute scheduler. *)
Inductive effect :=
  | UpdateChannelState (chatId : string) (pts : Z)
  | ScheduleMutedChatUpdate (chatId : string) (until : option Z).

(** The variables that the loop over the dialogs updates. *)
Record loop_state := {
  l_chats : list ApiChat;
  l_draftsById : gmap string Draft;
  l_notifyExceptionById : gmap string NotifySettings;
  l_orderedPinnedIds : list string;
  l_lastMessageByChatId : gmap string Z;
  l_effects : list effect;
}.

Definition loop_start : loop_state :=
  {| l_chats := []; l_draftsById := ∅; l_notifyExceptionById := ∅;
     l_orderedPinnedIds := []; l_lastMessageByChatId := ∅; l_effects := [] |}.

(** The test at the head of the loop body: the dialog is a [GramJs.Dialog]
    of the folder asked for. *)
Definition listed_dialog (archived : bool) (d : option Dialog)
  : option Dialog :=
  match d with
  | None => None
  | Some dialog =>
      if (negb archived && bool_decide (folderId dialog = Some ARCHIVED_FOLDER_ID))
         || (archived && negb (bool_decide (folderId dialog = Some ARCHIVED_FOLDER_ID)))
      then None
      else Some dialog
  end.

(** A number or [undefined], as a test. *)
Definition nonzero (n : option Z) : bool :=
  match n with
  | Some z => negb (z =? 0)
  | None => false
  end.

Definition loop_body (archived withPinned : bool)
    (lastLocalServiceMessageId : option Z)
    (peersByKey : gmap string Entity)
    (s : loop_state) (d : option Dialog) : loop_state :=
  match listed_dialog archived d with
  | None => s
  | Some dialog =>
      let peerEntity := peersByKey !! getPeerKey (peer dialog) in
      let chat := buildApiChatFromDialog dialog peerEntity in
      let id := chat_id chat in
      let last1 := <[id := topMessage dialog]> (l_lastMessageByChatId s) in
      let effects1 :=
        match pts dialog with
        | Some p => if negb (p =? 0) then [UpdateChannelState id p] else []
        | None => []
        end in
      let last2 :=
        match lastLocalServiceMessageId with
        | Some local =>
            if String.eqb id SERVICE_NOTIFICATIONS_USER_ID
               && negb (local =? 0) && (topMessage dialog <? local)
            then <[id := local]> last1 else last1
        | None => last1
        end in
      let chat' := {| chat_id := id; isListed := Some true;
                      chat_body := chat_body chat |} in
      let settings := buildApiPeerNotifySettings (notifySettings dialog) in
      let noted := has_settings settings in
      let draft' :=
        match draft dialog with
        | Some dr => buildMessageDraft dr
        | None => None
        end in
      {| l_chats := l_chats s ++ [chat'];
         l_draftsById :=
           match draft' with
           | Some dr => <[id := dr]> (l_draftsById s)
           | None => l_draftsById s
           end;
         l_notifyExceptionById :=
           if noted then <[id := settings]> (l_notifyExceptionById s)
           else l_notifyExceptionById s;
         l_orderedPinnedIds :=
           if withPinned && default false (pinned dialog)
           then l_orderedPinnedIds s ++ [id] else l_orderedPinnedIds s;
         l_lastMessageByChatId := last2;
         l_effects :=
           l_effects s ++ effects1 ++
           (if noted then [ScheduleMutedChatUpdate id (mutedUntil settings)]
            else []) |}
  end.

(** What the loop makes of a listed dialog: the chat pushed, the last
    message id recorded for it, and the calls made. *)
Definition listed_chat (peersByKey : gmap string Entity) (dialog : Dialog)
  : ApiChat :=
  let chat := buildApiChatFromDialog dialog (peersByKey !! getPeerKey (peer dialog)) in
  {| chat_id := chat_id chat; isListed := Some true;
     chat_body := chat_body chat |}.

Definition last_message_of (lastLocalServiceMessageId : option Z)
    (id : string) (dialog : Dialog) : Z :=
  match lastLocalServiceMessageId with
  | Some local =>
      if String.eqb id SERVICE_NOTIFICATIONS_USER_ID
         && negb (local =? 0) && (topMessage dialog <? local)
      then local else topMessage dialog
  | None => topMessage dialog
  end.

Definition dialog_effects (id : string) (dialog : Dialog) : list effect :=
  (if nonzero (pts dialog)
   then [UpdateChannelState id (default 0 (pts dialog))] else []) ++
  (let settings := buildApiPeerNotifySettings (notifySettings dialog) in
   if has_settings settings
   then [ScheduleMutedChatUpdate id (mutedUntil settings)] else []).

(** [ChatListData] *)
Record ChatListData := {
  chatIds : list string;
  r_chats : list ApiChat;
  r_users : list ApiUser;
  userStatusesById : UserStatuses;
  draftsById : gmap string Draft;
  orderedPinnedIds : option (list string);
  totalChatCount : Z;
  r_messages : list ApiMessage;
  notifyExceptionById : gmap string NotifySettings;
  lastMessageByChatId : gmap string Z;
  nextOffsetId : option Z;
  nextOffsetPeerId : option string;
  nextOffsetDate : option Z;
}.

(** The entities by key: those of the result, and over them those of the
    pinned dialogs that [preparePeers] stores given the first
    ([Object.assign]). *)
Definition peers_by_key (result : DialogList) (resultPinned : option DialogList)
  : gmap string Entity :=
  let peersByKey :=
    preparePeers Entity entity_id entity_min
      (Some (chats result)) (Some (users result)) None in
  match resultPinned with
  | Some rp =>
      preparePeers Entity entity_id entity_min
        (Some (chats rp)) (Some (users rp)) (Some peersByKey) ∪ peersByKey
  | None => peersByKey
  end.

(** [fetchChats], given what the two requests resolve with ([None]: the
    request failed).  The request for the pinned dialogs is made with
    [withPinned] only.  The result, and the calls made on the way. *)
Definition fetchChats (archived withPinned : bool)
    (lastLocalServiceMessageId : option Z)
    (response : option DialogsResponse) (pinnedResponse : option DialogList)
  : option ChatListData * list effect :=
  let resultPinned := if withPinned then pinnedResponse else None in
  match response with
  | None | Some DialogsNotModified => (None, [])
  | Some (Dialogs result) =>
      let built :=
        omap buildApiMessage
          (match resultPinned with
           | Some rp => messages rp
           | None => []
           end ++ messages result) in
      let peersByKey := peers_by_key result resultPinned in
      let all_dialogs :=
        match resultPinned with
        | Some rp => dialogs rp
        | None => []
        end ++ dialogs result in
      let s := foldl (loop_body archived withPinned lastLocalServiceMessageId
                        peersByKey) loop_start all_dialogs in
      let ids := map chat_id (l_chats s) in
      let total :=
        match slice_count result with
        | Some count => count
        | None => Z.of_nat (length ids)
        end in
      let lastDialog := last (l_chats s) in
      let lastId := chat_id <$> lastDialog in
      let lastMessageId :=
        l_lastMessageByChatId s !! default "undefined" lastId in
      let reversed := reverse built in
      let found :=
        find (λ m, bool_decide (Some (msg_chatId m) = lastId)
                   && bool_decide (Some (msg_id m) = lastMessageId))
             reversed in
      (Some {| chatIds := ids;
               r_chats := l_chats s;
               r_users := omap buildApiUser (users result);
               userStatusesById :=
                 buildApiUserStatuses
                   (match resultPinned with
                    | Some rp => users rp
                    | None => []
                    end ++ users result);
               draftsById := l_draftsById s;
               orderedPinnedIds :=
                 if withPinned then Some (l_orderedPinnedIds s) else None;
               totalChatCount := total;
               r_messages := reversed;
               notifyExceptionById := l_notifyExceptionById s;
               lastMessageByChatId := l_lastMessageByChatId s;
               nextOffsetId := lastMessageId;
               nextOffsetPeerId := lastId;
               nextOffsetDate := msg_date <$> found |},
       l_effects s)
  end.

End FetchChats.

End ChatLists.

(** ** [searchChats] *)

Module ChatSearch.

Section SearchChats.

Variable Peer : Type.
(** Of the peer builders, taken as given. *)
Variable getApiChatIdFromMtpPeer : Peer → string.

(** [contacts.Found]: the fields read. *)
Record Found := {
  myResults : list Peer;
  results : list Peer;
}.

Record SearchResult := {
  accountResultIds : list string;
  globalResultIds : list string;
}.

(** [searchChats], given what the request resolves with. *)
Definition searchChats (result : option Found) : option SearchResult :=
  match result with
  | None => None
  | Some r =>
      let accountPeerIds := map getApiChatIdFromMtpPeer (myResults r) in
      let globalPeerIds :=
        filter (λ id, id ∉ accountPeerIds)
               (map getApiChatIdFromMtpPeer (results r)) in
      Some {| accountResultIds := accountPeerIds;
              globalResultIds := globalPeerIds |}
  end.

End SearchChats.

End ChatSearch.

(** ** Chat folders: [fetchChatFolders] and [editChatFolder] *)

Module ChatFolders.

Section FetchChatFolders.

(** [GramJs.TypeDialogFilter], with the tests and the builder of other
    modules taken as given: [instanceof GramJs.DialogFilterDefault],
    [isChatFolder], the [id] of a chat folder, [buildApiChatFolder] and
    [buildCollectionByKey (.., 'id')]. *)
Variable DialogFilter ApiChatFolder FoldersById : Type.
Variable is_default : DialogFilter → bool.
Variable isChatFolder : DialogFilter → bool.
Variable filter_id : DialogFilter → Z.
Variable buildApiChatFolder : DialogFilter → ApiChatFolder.
Variable buildCollectionByKey : list ApiChatFolder → FoldersById.
Variable ALL_FOLDER_ID : Z.

(** [l.splice(start, 0, x)] for [start >= 0]: past the end of [l], [x] is
    appended. *)
Definition splice_in {A} (start : nat) (x : A) (l : list A) : list A :=
  take start l ++ x :: drop start l.

Record FoldersResult := {
  byId : FoldersById;
  orderedIds : list Z;
}.

(** [fetchChatFolders], given the [filters] that the request resolves with. *)
Definition fetchChatFolders (result : option (list DialogFilter))
  : option FoldersResult :=
  match result with
  | None => None
  | Some filters =>
      let defaultFolderPosition := fst <$> list_find (λ f, is_default f = true) filters in
      let dialogFilters := filter (λ f, isChatFolder f = true) filters in
      let ids := map filter_id dialogFilters in
      let ordered :=
        match defaultFolderPosition with
        | Some p => splice_in p ALL_FOLDER_ID ids
        | None => ids
        end in
      Some {| byId := buildCollectionByKey (map buildApiChatFolder dialogFilters);
              orderedIds := ordered |}
  end.

End FetchChatFolders.

Section EditChatFolder.

Variable FolderBody MtpFilter : Type.

(** [ApiChatFolder]: the two lists that [editChatFolder] reads and writes. *)
Record ChatFolder := {
  includedChatIds : list string;
  excludedChatIds : list string;
  folder_body : FolderBody;
}.

Variable buildFilterFromApiFolder : ChatFolder → MtpFilter.

(** The request made, and the update sent to the application. *)
Record UpdateDialogFilter := {
  req_id : Z;
  req_filter : MtpFilter;
}.

Record updateChatFolder := {
  upd_id : Z;
  upd_folder : ChatFolder;
}.

(** The assignment to [folderUpdate.excludedChatIds]. *)
Definition drop_included (folderUpdate : ChatFolder) : ChatFolder :=
  {| includedChatIds := includedChatIds folderUpdate;
     excludedChatIds :=
       filter (λ chatId, chatId ∉ includedChatIds folderUpdate)
              (excludedChatIds folderUpdate);
     folder_body := folder_body folderUpdate |}.

(** [editChatFolder], given whether the request succeeds: the request, the
    update sent if any, and the caller's [folderUpdate] object as the
    function leaves it. *)
Definition editChatFolder (id : Z) (folderUpdate : ChatFolder)
    (isActionSuccessful : bool)
  : UpdateDialogFilter * option updateChatFolder * ChatFolder :=
  let folderUpdate' := drop_included folderUpdate in
  let filter := buildFilterFromApiFolder folderUpdate' in
  ({| req_id := id; req_filter := filter |},
   if isActionSuccessful
   then Some {| upd_id := id; upd_folder := folderUpdate' |}
   else None,
   folderUpdate').

End EditChatFolder.

End ChatFolders.

(** ** Forum topics: [fetchTopics] *)

Module ForumTopics.

Section FetchTopics.

Variable MtpMessage MtpDraft TopicBody ApiTopic ApiMessage Draft : Type.

(** [GramJs.ForumTopic]: the fields read. *)
Record ForumTopic := {
  topic_id : Z;
  readInboxMaxId : Z;
  topic_draft : option MtpDraft;
  topic_body : TopicBody;
}.

(** [GramJs.TypeForumTopic] *)
Inductive TypeForumTopic :=
  | ForumTopicDeleted (id : Z)
  | IsForumTopic (t : ForumTopic).

Variable buildApiTopic : TypeForumTopic → option ApiTopic.
Variable buildApiMessage : MtpMessage → option ApiMessage.
Variable buildMessageDraft : MtpDraft → option Draft.

(** [messages.ForumTopics]: the fields read. *)
Record ForumTopics := {
  count : Z;
  orderByCreateDate : option bool;
  topics : list TypeForumTopic;
  messages : list MtpMessage;
}.

(** A property of [draftsById] holds what [buildMessageDraft] returned,
    [None] for [undefined]. *)
Record TopicsResult := {
  r_topics : list ApiTopic;
  r_messages : list ApiMessage;
  r_count : Z;
  shouldOrderByCreateDate : option bool;
  draftsById : gmap Z (option Draft);
  readInboxMessageIdByTopicId : gmap Z Z;
}.

Definition add_draft (acc : gmap Z (option Draft)) (topic : TypeForumTopic)
  : gmap Z (option Draft) :=
  match topic with
  | IsForumTopic t =>
      match topic_draft t with
      | Some d => <[topic_id t := buildMessageDraft d]> acc
      | None => acc
      end
  | ForumTopicDeleted _ => acc
  end.

Definition add_read_inbox (acc : gmap Z Z) (topic : TypeForumTopic)
  : gmap Z Z :=
  match topic with
  | IsForumTopic t =>
      if negb (readInboxMaxId t =? 0)
      then <[topic_id t := readInboxMaxId t]> acc
      else acc
  | ForumTopicDeleted _ => acc
  end.

(** [fetchTopics], given what the request resolves with. *)
Definition fetchTopics (result : option ForumTopics) : option TopicsResult :=
  match result with
  | None => None
  | Some r =>
      Some {| r_topics := omap buildApiTopic (topics r);
              r_messages := omap buildApiMessage (messages r);
              r_count := count r + 1;
              shouldOrderByCreateDate := orderByCreateDate r;
              draftsById := foldl add_draft ∅ (topics r);
              readInboxMessageIdByTopicId :=
                foldl add_read_inbox ∅ (topics r) |}
  end.

End FetchTopics.

End ForumTopics.

(** ** [initApi]: the session data that the client is started with *)

Module ApiInit.
Import Js Sessions.

(** [`dc${dcId}_hash`] *)
Definition hash_name (dcId : number) : string :=
  "dc" +:+ number_to_string dcId +:+ "_hash".

(** The body of the loop over the data centers: [result.keys] and
    [result.hashes].  The values read are properties of a value that is
    truthy, which reads without throwing. *)
Definition collect_keys (localStorageData : jsval)
    (acc : list (string * jsval) * list (string * jsval)) (dcId : Z)
  : list (string * jsval) * list (string * jsval) :=
  let key := get_prop_opt localStorageData (auth_key_name (NInt dcId)) in
  let keys' :=
    if truthy key then set_field (number_to_string (NInt dcId)) key acc.1
    else acc.1 in
  let hash := get_prop_opt localStorageData (hash_name (NInt dcId)) in
  let hashes' :=
    if truthy hash then set_field (number_to_string (NInt dcId)) hash acc.2
    else acc.2 in
  (keys', hashes').

(** The [sessionData] of [initialArgs] with which [initApi] starts the
    client, given the [sessionData] and the [localStorageData] that it is
    called with. *)
Definition initApi (sessionData localStorageData : jsval) : jsval :=
  if negb (truthy sessionData) then
    let localStorageData := js_or localStorageData (JObj []) in
    let userAuth := get_prop_opt localStorageData "userAuth" in
    if truthy userAuth then
      let mainDcId := JNum (to_number (get_prop_opt userAuth "dcID")) in
      let '(keys, hashes) :=
        foldl (collect_keys localStorageData) ([], []) [1; 2; 3; 4; 5] in
      let result :=
        [("mainDcId", mainDcId); ("keys", JObj keys);
         ("hashes", JObj hashes); ("isLocalStorage", JBool true)] in
      let entourage := get_prop_opt localStorageData "user_entourage" in
      if truthy (js_and (get_prop_opt entourage "apiId")
                        (get_prop_opt entourage "apiHash"))
      then
        JObj (set_field "apiHash" (get_prop_opt entourage "apiHash")
                (set_field "apiId" (get_prop_opt entourage "apiId")
                   (set_field "initConnectionParams"
                      (js_or entourage (JObj [])) result)))
      else JObj result
    else sessionData
  else sessionData.

End ApiInit.

(** * The fuel of the JSON parser *)

Module JsonFacts.
Import Js Json.

Local Open Scope nat_scope.

Local Abbreviation len := String.length.

Lemma skip_ws_length (s : string) : len (skip_ws s) ≤ len s.
Proof.
  induction s as [|c s IH]; simpl; [done|].
  destruct (is_json_ws c); simpl; lia.
Qed.

Lemma starts_with_Some (c : ascii) (s r : string) :
  starts_with c s = Some r → s = String c r.
Proof.
  destruct s as [|c' s]; simpl; [done|].
  destruct (Ascii.eqb c c') eqn:E; [|done].
  apply Ascii.eqb_eq in E. by intros [= ->]; subst.
Qed.

Lemma starts_with_length (c : ascii) (s r : string) :
  starts_with c s = Some r → len s = S (len r).
Proof. by intros ->%starts_with_Some. Qed.

Lemma strip_prefix_length (p s r : string) :
  strip_prefix p s = Some r → len s = len p + len r.
Proof.
  revert s. induction p as [|a p IH]; intros [|b s]; simpl; try done.
  - by intros [= <-].
  - by intros [= <-].
  - destruct (Ascii.eqb a b); [|done]. intros H%IH. lia.
Qed.

Lemma scan_digits_length (base : Z) (s : string) (acc : Z) (cnt : nat) v cnt' rest :
  scan_digits base s acc cnt = (v, cnt', rest) →
  len s + cnt = len rest + cnt'.
Proof.
  revert acc cnt. induction s as [|c s IH]; intros acc cnt; simpl.
  - by intros [= <- <- <-].
  - destruct (digit_of base c).
    + intros H%IH. lia.
    + by intros [= <- <- <-].
Qed.

Lemma scan_exponent_length (s : string) e r :
  scan_exponent s = Some (e, r) → len r ≤ len s.
Proof.
  destruct s as [|c s]; simpl; [by intros [= <- <-]|].
  destruct (_ || _)%bool; [|by intros [= <- <-]].
  assert (∃ neg r', len r' ≤ len s ∧
            (match starts_with "-" s with
             | Some r' => (true, r')
             | None =>
                 match starts_with "+" s with
                 | Some r' => (false, r')
                 | None => (false, s)
                 end
             end) = (neg, r')) as (neg & r' & Hr' & ->).
  { destruct (starts_with "-" s) as [r'|] eqn:E1.
    { apply starts_with_length in E1. exists true, r'. split; [lia|done]. }
    destruct (starts_with "+" s) as [r'|] eqn:E2.
    { apply starts_with_length in E2. exists false, r'. split; [lia|done]. }
    by exists false, s. }
  destruct (scan_digits 10 r' 0%Z 0) as [[v cnt] rest] eqn:E.
  apply scan_digits_length in E. destruct cnt; [done|].
  intros [= <- <-]. lia.
Qed.

Lemma number_literal_length (s : string) n r :
  number_literal s = Some (n, r) → len r < len s.
Proof.
  unfold number_literal.
  assert (∃ neg s1, len s1 ≤ len s ∧
            (match starts_with "-" s with
             | Some r => (true, r)
             | None => (false, s)
             end) = (neg, s1)) as (neg & s1 & Hs1 & ->).
  { destruct (starts_with "-" s) as [r'|] eqn:E.
    - apply starts_with_length in E. exists true, r'. split; [lia|done].
    - by exists false, s. }
  destruct (scan_digits 10 s1 0%Z 0) as [[ip icnt] r1] eqn:E1.
  apply scan_digits_length in E1.
  destruct icnt as [|icnt]; [done|].
  destruct (match starts_with "0" s1 with Some _ => _ | None => _ end); [done|].
  destruct (starts_with "." r1) as [r'|] eqn:Edot.
  - apply starts_with_length in Edot.
    destruct (scan_digits 10 r' ip (S icnt)) as [[m cnt] r2] eqn:E2.
    apply scan_digits_length in E2.
    destruct (cnt =? S icnt); [done|].
    destruct (scan_exponent r2) as [[e r3]|] eqn:E3; [|done].
    apply scan_exponent_length in E3. intros [= _ <-]. lia.
  - destruct (scan_exponent r1) as [[e r3]|] eqn:E3; [|done].
    apply scan_exponent_length in E3. intros [= _ <-]. lia.
Qed.

Lemma parse_number_length (s : string) n r :
  parse_number s = Some (n, r) → len r < len s.
Proof.
  unfold parse_number.
  destruct (number_literal s) as [[n0 r0]|] eqn:E; [|done].
  intros [= _ <-]. by eapply number_literal_length.
Qed.

Lemma parse_string_body_length (s : string) b r :
  parse_string_body s = Some (b, r) → len r < len s.
Proof.
  remember (len s) as n eqn:Hn. revert s Hn b r.
  induction n as [n IH] using lt_wf_ind. intros s -> b r.
  destruct s as [|c s]; simpl; [done|].
  destruct (Ascii.eqb c "034"); [intros [= _ <-]; lia|].
  destruct (Ascii.eqb c "\").
  - destruct s as [|e r1]; [done|].
    destruct (Ascii.eqb e "u").
    + destruct r1 as [|h1 [|h2 [|h3 [|h4 r2]]]]; try done.
      destruct (hex4 h1 h2 h3 h4) as [cp|]; [|done].
      assert (match parse_string_body r2 with
              | Some (body, rest) => Some (utf8 cp body, rest)
              | None => None
              end = Some (b, r) →
              len r < S (S (S (S (S (S (len r2))))))) as Hsingle.
      { destruct (parse_string_body r2) as [[body rest]|] eqn:E; [|done].
        apply (IH (len r2)) in E; [|simpl; lia|done].
        intros [= _ <-]. lia. }
      destruct (is_high_surrogate cp); [|exact Hsingle].
      destruct r2 as [|b0 [|u [|g1 [|g2 [|g3 [|g4 r3]]]]]]; try exact Hsingle.
      destruct (Ascii.eqb b0 "\" && Ascii.eqb u "u"); [|exact Hsingle].
      destruct (hex4 g1 g2 g3 g4) as [low|]; [|exact Hsingle].
      destruct (is_low_surrogate low); [|exact Hsingle].
      destruct (parse_string_body r3) as [[body rest]|] eqn:E; [|done].
      apply (IH (len r3)) in E; [|simpl; lia|done].
      intros [= _ <-]. simpl. lia.
    + destruct (escape_char e); [|done].
      destruct (parse_string_body r1) as [[body rest]|] eqn:E; [|done].
      apply (IH (len r1)) in E; [|simpl; lia|done].
      intros [= _ <-]. simpl. lia.
  - destruct (_ <? _)%N; [done|].
    destruct (parse_string_body s) as [[body rest]|] eqn:E; [|done].
    apply (IH (len s)) in E; [|simpl; lia|done].
    intros [= _ <-]. lia.
Qed.

Lemma parse_scalar_length (s : string) v r :
  parse_scalar s = Some (v, r) → len r < len s.
Proof.
  unfold parse_scalar.
  destruct (starts_with "034" s) as [r0|] eqn:E0.
  { apply starts_with_length in E0.
    destruct (parse_string_body r0) as [[str rest]|] eqn:E; [|done].
    apply parse_string_body_length in E. intros [= _ <-]. lia. }
  destruct (strip_prefix "true" s) as [r1|] eqn:E1.
  { apply strip_prefix_length in E1. intros [= _ <-]. simpl in E1. lia. }
  destruct (strip_prefix "false" s) as [r2|] eqn:E2.
  { apply strip_prefix_length in E2. intros [= _ <-]. simpl in E2. lia. }
  destruct (strip_prefix "null" s) as [r3|] eqn:E3.
  { apply strip_prefix_length in E3. intros [= _ <-]. simpl in E3. lia. }
  destruct (parse_number s) as [[n rest]|] eqn:E; [|done].
  apply parse_number_length in E. by intros [= _ <-].
Qed.

Lemma parse_value_S (fuel : nat) (s : string) :
  parse_value (S fuel) s =
  match starts_with "{" (skip_ws s) with
  | Some r =>
      match starts_with "}" (skip_ws r) with
      | Some r' => Some (JObj [], skip_ws r')
      | None => then_ws (parse_members fuel [] (skip_ws r))
      end
  | None =>
  match starts_with "[" (skip_ws s) with
  | Some r =>
      match starts_with "]" (skip_ws r) with
      | Some r' => Some (JArr [], skip_ws r')
      | None => then_ws (parse_elements fuel [] (skip_ws r))
      end
  | None => then_ws (parse_scalar (skip_ws s))
  end end.
Proof. reflexivity. Qed.

Lemma parse_elements_S (fuel : nat) (acc : list jsval) (s : string) :
  parse_elements (S fuel) acc s =
  match parse_value fuel s with
  | Some (v, rest) =>
      match starts_with "," rest with
      | Some rest' => parse_elements fuel (acc ++ [v]) rest'
      | None =>
          match starts_with "]" rest with
          | Some rest' => Some (JArr (acc ++ [v]), rest')
          | None => None
          end
      end
  | None => None
  end.
Proof. reflexivity. Qed.

Lemma parse_members_S (fuel : nat) (acc : list (string * jsval)) (s : string) :
  parse_members (S fuel) acc s =
  match starts_with "034" (skip_ws s) with
  | Some r =>
      match parse_string_body r with
      | Some (k, rest) =>
          match starts_with ":" (skip_ws rest) with
          | Some rest' =>
              match parse_value fuel rest' with
              | Some (v, rest'') =>
                  match starts_with "," rest'' with
                  | Some rest3 => parse_members fuel (set_field k v acc) rest3
                  | None =>
                      match starts_with "}" rest'' with
                      | Some rest3 => Some (JObj (set_field k v acc), rest3)
                      | None => None
                      end
                  end
              | None => None
              end
          | None => None
          end
      | None => None
      end
  | None => None
  end.
Proof. reflexivity. Qed.

(** A parse that succeeds with some fuel consumes text, and succeeds with
    any fuel of twice the length of the text consumed. *)
Lemma parse_fuel (fuel : nat) :
  (∀ s v rest, parse_value fuel s = Some (v, rest) →
     len rest < len s ∧
     ∀ fuel', 2 * (len s - len rest) ≤ fuel' →
              parse_value fuel' s = Some (v, rest)) ∧
  (∀ acc s v rest, parse_elements fuel acc s = Some (v, rest) →
     len rest < len s ∧
     ∀ fuel', 2 * (len s - len rest) + 1 ≤ fuel' →
              parse_elements fuel' acc s = Some (v, rest)) ∧
  (∀ acc s v rest, parse_members fuel acc s = Some (v, rest) →
     len rest < len s ∧
     ∀ fuel', 2 * (len s - len rest) + 1 ≤ fuel' →
              parse_members fuel' acc s = Some (v, rest)).
Proof.
  induction fuel as [|fuel (IHv & IHe & IHm)]; [by repeat split|].
  split; [|split].
  - intros s v rest. rewrite parse_value_S.
    pose proof (skip_ws_length s) as Hs.
    destruct (starts_with "{" (skip_ws s)) as [r|] eqn:Eo.
    { apply starts_with_length in Eo as Ho. pose proof (skip_ws_length r) as Hr.
      destruct (starts_with "}" (skip_ws r)) as [r'|] eqn:Ec.
      { apply starts_with_length in Ec as Hc. pose proof (skip_ws_length r').
        intros [= <- <-]. split; [lia|]. intros [|fuel'] Hf; [lia|].
        by rewrite parse_value_S, Eo, Ec. }
      destruct (parse_members fuel [] (skip_ws r)) as [[v' rest']|] eqn:Em; [|done].
      simpl. intros [= <- <-]. destruct (IHm _ _ _ _ Em) as [Hlt Hfuel].
      pose proof (skip_ws_length rest'). split; [lia|].
      intros [|fuel'] Hf; [lia|].
      rewrite parse_value_S, Eo, Ec, Hfuel by lia. done. }
    destruct (starts_with "[" (skip_ws s)) as [r|] eqn:Ea.
    { apply starts_with_length in Ea as Ha. pose proof (skip_ws_length r) as Hr.
      destruct (starts_with "]" (skip_ws r)) as [r'|] eqn:Ec.
      { apply starts_with_length in Ec as Hc. pose proof (skip_ws_length r').
        intros [= <- <-]. split; [lia|]. intros [|fuel'] Hf; [lia|].
        by rewrite parse_value_S, Eo, Ea, Ec. }
      destruct (parse_elements fuel [] (skip_ws r)) as [[v' rest']|] eqn:Ee; [|done].
      simpl. intros [= <- <-]. destruct (IHe _ _ _ _ Ee) as [Hlt Hfuel].
      pose proof (skip_ws_length rest'). split; [lia|].
      intros [|fuel'] Hf; [lia|].
      rewrite parse_value_S, Eo, Ea, Ec, Hfuel by lia. done. }
    destruct (parse_scalar (skip_ws s)) as [[v' rest']|] eqn:Es; [|done].
    simpl. intros [= <- <-]. apply parse_scalar_length in Es as Hlt.
    pose proof (skip_ws_length rest'). split; [lia|].
    intros [|fuel'] Hf; [lia|].
    by rewrite parse_value_S, Eo, Ea, Es.
  - intros acc s v rest. rewrite parse_elements_S.
    destruct (parse_value fuel s) as [[v1 rest1]|] eqn:Ev; [|done].
    destruct (IHv _ _ _ Ev) as [Hlt1 Hfuel1].
    destruct (starts_with "," rest1) as [r2|] eqn:Ec.
    { apply starts_with_length in Ec as Hc. intros Ee.
      destruct (IHe _ _ _ _ Ee) as [Hlt2 Hfuel2]. split; [lia|].
      intros [|fuel'] Hf; [lia|].
      rewrite parse_elements_S, Hfuel1, Ec by lia. apply Hfuel2. lia. }
    destruct (starts_with "]" rest1) as [r2|] eqn:Eb; [|done].
    apply starts_with_length in Eb as Hb. intros [= <- <-]. split; [lia|].
    intros [|fuel'] Hf; [lia|].
    by rewrite parse_elements_S, Hfuel1, Ec, Eb by lia.
  - intros acc s v rest. rewrite parse_members_S.
    pose proof (skip_ws_length s) as Hs.
    destruct (starts_with "034" (skip_ws s)) as [r|] eqn:Eq; [|done].
    apply starts_with_length in Eq as Hq.
    destruct (parse_string_body r) as [[k rest0]|] eqn:Ek; [|done].
    apply parse_string_body_length in Ek as Hk.
    pose proof (skip_ws_length rest0) as Hr0.
    destruct (starts_with ":" (skip_ws rest0)) as [rest'|] eqn:Ecol; [|done].
    apply starts_with_length in Ecol as Hcol.
    destruct (parse_value fuel rest') as [[v1 rest1]|] eqn:Ev; [|done].
    destruct (IHv _ _ _ Ev) as [Hlt1 Hfuel1].
    destruct (starts_with "," rest1) as [r2|] eqn:Ec.
    { apply starts_with_length in Ec as Hc. intros Em.
      destruct (IHm _ _ _ _ Em) as [Hlt2 Hfuel2]. split; [lia|].
      intros [|fuel'] Hf; [lia|].
      rewrite parse_members_S, Eq, Ek, Ecol, Hfuel1, Ec by lia.
      apply Hfuel2. lia. }
    destruct (starts_with "}" rest1) as [r2|] eqn:Eb; [|done].
    apply starts_with_length in Eb as Hb. intros [= <- <-]. split; [lia|].
    intros [|fuel'] Hf; [lia|].
    by rewrite parse_members_S, Eq, Ek, Ecol, Hfuel1, Ec, Eb by lia.
Qed.

(** The fuel that [JSON_parse] gives the parser is enough: a text that
    parses with some fuel parses with that one. *)
Lemma JSON_parse_fuel (fuel : nat) (s : string) (v : jsval) :
  parse_value fuel s = Some (v, "") → JSON_parse s = Returns v.
Proof.
  intros H. destruct (proj1 (parse_fuel fuel) s v "" H) as [_ Hfuel].
  unfold JSON_parse. rewrite Hfuel; [done|]. simpl. lia.
Qed.

(** ** Numbers print and parse back *)

Local Open Scope Z_scope.

Lemma scan_digits_end (rest : string) (acc : Z) (cnt : nat) :
  number_ends rest → scan_digits 10 rest acc cnt = (acc, cnt, rest).
Proof. destruct rest as [|c r]; simpl; [done|]. by intros [-> _]. Qed.

Lemma scan_digits_app (ds rest : string) (acc : Z) (cnt : nat) :
  is_digits ds = true →
  scan_digits 10 (ds +:+ rest) acc cnt
  = scan_digits 10 rest (digits_value ds acc) (cnt + String.length ds)%nat.
Proof.
  revert acc cnt. induction ds as [|c ds IH]; intros acc cnt; simpl.
  - intros _. by rewrite Nat.add_0_r.
  - destruct (digit_of 10 c); [|done]. intros H. rewrite IH by done.
    f_equal. lia.
Qed.

Lemma digits_value_app (ds1 ds2 : string) (acc : Z) :
  is_digits ds1 = true →
  digits_value (ds1 +:+ ds2) acc = digits_value ds2 (digits_value ds1 acc).
Proof.
  revert acc. induction ds1 as [|c ds IH]; intros acc; simpl; [done|].
  destruct (digit_of 10 c); [|done]. apply IH.
Qed.

Lemma is_digits_app (ds1 ds2 : string) :
  is_digits (ds1 +:+ ds2) = is_digits ds1 && is_digits ds2.
Proof.
  induction ds1 as [|c ds IH]; simpl; [done|].
  by destruct (digit_of 10 c).
Qed.

Lemma digits_value_shift (ds : string) (acc : Z) :
  is_digits ds = true →
  digits_value ds acc = acc * 10 ^ Z.of_nat (String.length ds) + digits_value ds 0.
Proof.
  revert acc. induction ds as [|c ds IH]; intros acc; simpl.
  - intros _. lia.
  - destruct (digit_of 10 c) as [d|]; [|done]. intros H.
    rewrite (IH (acc * 10 + d)), (IH (0 * 10 + d)) by done.
    replace (Z.of_nat (S (String.length ds)))
      with (Z.succ (Z.of_nat (String.length ds))) by lia.
    rewrite Z.pow_succ_r by lia. lia.
Qed.

Lemma digit_of_digit_char (d : Z) :
  0 <= d < 10 → digit_of 10 (digit_char d) = Some d.
Proof.
  intros H.
  assert (d = 0 ∨ d = 1 ∨ d = 2 ∨ d = 3 ∨ d = 4 ∨ d = 5 ∨ d = 6 ∨ d = 7 ∨
          d = 8 ∨ d = 9) as Hd by lia.
  repeat destruct Hd as [->|Hd]; try reflexivity. by subst.
Qed.

Lemma log2_div10 (n : Z) : 0 < n / 10 → Z.log2 (n / 10) < Z.log2 n.
Proof.
  intros Hq. assert (0 < n) as Hn.
  { destruct (decide (0 < n)); [done|]. exfalso.
    assert (n / 10 <= 0); [|lia]. apply Z.div_le_upper_bound; lia. }
  apply Z.log2_lt_pow2; [done|].
  pose proof (Z.log2_spec n Hn) as [_ Hup].
  rewrite Z.pow_succ_r in Hup by apply Z.log2_nonneg.
  apply Z.div_lt_upper_bound; lia.
Qed.

(** The digits that [digits_go] puts before [acc]. *)
Lemma digits_go_spec (fuel : nat) (n : Z) (acc : string) :
  0 < n → Z.log2 n < Z.of_nat fuel →
  ∃ ds, digits_go fuel n acc = ds +:+ acc ∧
        is_digits ds = true ∧ digits_value ds 0 = n ∧
        ∃ c r, ds = String c r ∧ c ≠ "0"%char.
Proof.
  revert n acc. induction fuel as [|fuel IH]; intros n acc Hn Hfuel.
  { pose proof (Z.log2_nonneg n). lia. }
  simpl. pose proof (Z.mod_pos_bound n 10 ltac:(lia)) as Hd.
  pose proof (Z.div_mod n 10 ltac:(lia)) as Hdm.
  destruct (n / 10 =? 0) eqn:Hq.
  - apply Z.eqb_eq in Hq.
    exists (String (digit_char (n mod 10)) ""). simpl.
    rewrite digit_of_digit_char by done.
    split; [done|]. split; [done|]. split; [lia|].
    eexists _, _. split; [done|]. intros E.
    apply (f_equal (digit_of 10)) in E.
    rewrite digit_of_digit_char in E by done. simpl in E. injection E. lia.
  - apply Z.eqb_neq in Hq.
    assert (0 < n / 10) as Hpos.
    { pose proof (Z.div_pos n 10 ltac:(lia) ltac:(lia)). lia. }
    pose proof (log2_div10 n Hpos) as Hlog.
    destruct (IH (n / 10) (String (digit_char (n mod 10)) acc) Hpos ltac:(lia))
      as (ds & Hgo & Hdig & Hval & c & r & Hds & Hc).
    exists (ds +:+ String (digit_char (n mod 10)) "").
    split; [|split; [|split]].
    + rewrite Hgo. clear. induction ds as [|c' ds IH]; simpl; [done|].
      by rewrite IH.
    + rewrite is_digits_app, Hdig. simpl.
      by rewrite digit_of_digit_char.
    + rewrite digits_value_app by done. simpl.
      rewrite digit_of_digit_char by done. lia.
    + subst ds. simpl. eauto.
Qed.

Lemma digits_spec (n : Z) :
  0 < n →
  is_digits (digits n) = true ∧ digits_value (digits n) 0 = n ∧
  ∃ c r, digits n = String c r ∧ c ≠ "0"%char.
Proof.
  intros Hn. unfold digits.
  destruct (digits_go_spec (S (Z.to_nat (Z.log2 n))) n "" Hn)
    as (ds & Hgo & Hdig & Hval & Hfirst).
  { pose proof (Z.log2_nonneg n). lia. }
  assert (ds +:+ "" = ds) as Hnil.
  { clear. induction ds as [|c ds IH]; simpl; [done|]. by rewrite IH. }
  rewrite Hgo, Hnil. done.
Qed.

Lemma string_app_assoc (a b c : string) : (a +:+ b) +:+ c = a +:+ b +:+ c.
Proof. induction a as [|x a IH]; simpl; [done|]. by rewrite IH. Qed.

Lemma string_app_nil_r (a : string) : a +:+ "" = a.
Proof. induction a as [|x a IH]; simpl; [done|]. by rewrite IH. Qed.

Lemma string_length_app (s t : string) :
  String.length (s +:+ t) = (String.length s + String.length t)%nat.
Proof. induction s; simpl; auto. Qed.

Lemma scan_exponent_text (ex : option (bool * string)) (rest : string) :
  match ex with
  | Some (_, es) => is_digits es = true ∧ es ≠ ""
  | None => True
  end →
  number_ends rest →
  scan_exponent (exp_text ex +:+ rest) = Some (exp_value ex, rest).
Proof.
  intros Hex Hrest. destruct ex as [[neg es]|]; simpl.
  - destruct Hex as [Hes Hne].
    assert (scan_digits 10 (es +:+ rest) 0 0
            = (digits_value es 0, String.length es, rest)) as Hscan.
    { rewrite scan_digits_app by done. by rewrite scan_digits_end. }
    destruct es as [|c es']; [done|].
    destruct neg; simpl starts_with; cbv iota beta; rewrite Hscan; done.
  - destruct rest as [|c r]; simpl; [done|].
    destruct Hrest as (_ & _ & He & HE).
    rewrite (proj2 (Ascii.eqb_neq _ _) He), (proj2 (Ascii.eqb_neq _ _) HE).
    done.
Qed.

Lemma string_app_cons (c : ascii) (r t : string) :
  String c r +:+ t = String c (r +:+ t).
Proof. reflexivity. Qed.

Lemma starts_with_cons (c c' : ascii) (r : string) :
  starts_with c (String c' r) = if Ascii.eqb c c' then Some r else None.
Proof. reflexivity. Qed.

Lemma starts_with_other (c c' : ascii) (r : string) :
  c ≠ c' → starts_with c (String c' r) = None.
Proof.
  intros H. rewrite starts_with_cons. by rewrite (proj2 (Ascii.eqb_neq _ _) H).
Qed.

Lemma is_digits_first (c : ascii) (r : string) :
  is_digits (String c r) = true → digit_of 10 c ≠ None.
Proof. simpl. by destruct (digit_of 10 c). Qed.

Lemma number_literal_unfold (neg : bool) (s : string) :
  starts_with "-" s = None →
  number_literal ((if neg then "-" else "") +:+ s)
  = (let '(ip0, icnt, r1) := scan_digits 10 s 0 0 in
     let leading_zero :=
       match starts_with "0" s with
       | Some _ => (2 <=? icnt)%nat
       | None => false
       end in
     match icnt with
     | 0%nat => None
     | S _ =>
         if leading_zero then None
         else
           let frac :=
             match starts_with "." r1 with
             | Some r0 =>
                 let '(m, cnt, r2) := scan_digits 10 r0 ip0 icnt in
                 if (cnt =? icnt)%nat then None else Some (m, cnt, r2)
             | None => Some (ip0, icnt, r1)
             end in
           match frac with
           | None => None
           | Some (m, cnt, r2) =>
               match scan_exponent r2 with
               | None => None
               | Some (e, r3) =>
                   let n := mk_number cnt m (e - Z.of_nat (cnt - icnt)) in
                   Some (if neg then number_opp n else n, r3)
               end
           end
     end).
Proof.
  intros Hminus. unfold number_literal. destruct neg.
  - reflexivity.
  - change ("" +:+ s) with s. by rewrite Hminus.
Qed.

(** What [number_literal] reads from the parts of a literal. *)
Lemma number_literal_parts (neg : bool) (ip fp : string)
    (ex : option (bool * string)) (rest : string) :
  is_digits ip = true →
  (∃ c r, ip = String c r ∧ (c ≠ "0"%char ∨ r = "")) →
  is_digits fp = true →
  match ex with
  | Some (_, es) => is_digits es = true ∧ es ≠ ""
  | None => True
  end →
  number_ends rest →
  number_literal ((if neg then "-" else "") +:+ ip +:+ frac_text fp +:+
                exp_text ex +:+ rest)
  = Some (let n := mk_number (String.length ip + String.length fp)
                     (digits_value (ip +:+ fp) 0)
                     (exp_value ex - Z.of_nat (String.length fp)) in
          if neg then number_opp n else n, rest).
Proof.
  intros Hip (c & r & -> & Hlead) Hfp Hex Hrest.
  set (tail := frac_text fp +:+ exp_text ex +:+ rest).
  pose proof (is_digits_first c r Hip) as Hc.
  assert (∀ acc cnt, scan_digits 10 (exp_text ex +:+ rest) acc cnt
                     = (acc, cnt, exp_text ex +:+ rest)) as Hstop_exp.
  { intros acc cnt. destruct ex as [[eneg es]|]; [done|].
    by apply scan_digits_end. }
  assert (∀ acc cnt, scan_digits 10 tail acc cnt = (acc, cnt, tail)) as Hstop.
  { intros acc cnt. unfold tail. destruct fp; [apply Hstop_exp|done]. }
  rewrite number_literal_unfold.
  2:{ rewrite string_app_cons. apply starts_with_other. intros <-.
      by destruct Hc. }
  rewrite scan_digits_app, Hstop by done. cbv zeta.
  rewrite Nat.add_0_l.
  assert (match starts_with "0" (String c r +:+ tail) with
          | Some _ => (2 <=? String.length (String c r))%nat
          | None => false
          end = false) as ->.
  { rewrite string_app_cons, starts_with_cons.
    destruct (Ascii.eqb "0" c) eqn:E; [|done].
    apply Ascii.eqb_eq in E. destruct Hlead as [Hl | ->]; [congruence|done]. }
  change (String.length (String c r)) with (S (String.length r)). cbv iota.
  destruct fp as [|f fp'].
  - (* no fraction *)
    assert (tail = exp_text ex +:+ rest) as Htail by done.
    assert (starts_with "." tail = None) as ->.
    { rewrite Htail. destruct ex as [[eneg es]|]; [done|].
      change (exp_text None +:+ rest) with rest.
      destruct rest as [|c' r']; [done|].
      destruct Hrest as (_ & Hdot & _). apply starts_with_other. congruence. }
    rewrite Htail, scan_exponent_text by done.
    rewrite string_app_nil_r.
    change (String.length "") with 0%nat.
    by rewrite Nat.add_0_r, Nat.sub_diag.
  - (* a fraction *)
    assert (tail = String "." (String f fp' +:+ exp_text ex +:+ rest)) as ->
      by done.
    rewrite starts_with_cons. change (Ascii.eqb "." ".") with true. cbv iota.
    rewrite scan_digits_app by done.
    rewrite Hstop_exp.
    assert ((S (String.length r) + String.length (String f fp')
             =? S (String.length r))%nat = false) as ->.
    { apply Nat.eqb_neq. simpl. lia. }
    rewrite scan_exponent_text by done.
    rewrite <- digits_value_app by done.
    replace (S (String.length r) + String.length (String f fp')
             - S (String.length r))%nat
      with (String.length (String f fp')) by lia.
    done.
Qed.

Lemma mk_number_zero (cnt : nat) (e : Z) : mk_number cnt 0 e = NInt 0.
Proof. reflexivity. Qed.

Lemma mk_number_int (cnt : nat) (m e : Z) :
  m ≠ 0 → 0 <= e → mk_number cnt m e = NInt (m * 10 ^ e).
Proof.
  intros Hm He. unfold mk_number. rewrite (proj2 (Z.eqb_neq _ _) Hm).
  assert (strip_zeros cnt m e = (m, e)) as ->.
  { destruct cnt; simpl; [done|]. by rewrite (proj2 (Z.ltb_ge _ _) He). }
  by rewrite (proj2 (Z.leb_le _ _) He).
Qed.

Lemma mk_number_dec (cnt : nat) (m : Z) (k : positive) :
  m mod 10 ≠ 0 → mk_number cnt m (- Z.pos k) = NDec m k.
Proof.
  intros Hm. unfold mk_number.
  assert (m ≠ 0) as Hnz by (intros ->; done).
  rewrite (proj2 (Z.eqb_neq _ _) Hnz).
  assert (strip_zeros cnt m (- Z.pos k) = (m, - Z.pos k)) as ->.
  { destruct cnt; simpl; [done|].
    rewrite (proj2 (Z.eqb_neq _ _) Hm). by rewrite ?andb_false_r. }
  rewrite (proj2 (Z.leb_gt _ _)) by lia. f_equal.
Qed.

Lemma zeros_spec (j : nat) :
  is_digits (zeros j) = true ∧ String.length (zeros j) = j ∧
  ∀ acc, digits_value (zeros j) acc = acc * 10 ^ Z.of_nat j.
Proof.
  induction j as [|j (Hd & Hl & Hv)]; simpl.
  - split; [done|]. split; [done|]. intros acc. lia.
  - split; [done|]. split; [by rewrite Hl|]. intros acc. rewrite Hv.
    replace (Z.of_nat (S j)) with (Z.succ (Z.of_nat j)) by lia.
    rewrite Z.pow_succ_r by lia. lia.
Qed.

Lemma string_take_drop (n : nat) (s : string) :
  string_take n s +:+ string_drop n s = s.
Proof.
  revert s. induction n as [|n IH]; intros [|c s]; simpl; try done.
  by rewrite IH.
Qed.

Lemma string_take_length (n : nat) (s : string) :
  (n ≤ String.length s)%nat → String.length (string_take n s) = n.
Proof.
  revert s. induction n as [|n IH]; intros [|c s]; simpl; try done; try lia.
  intros H. rewrite IH; lia.
Qed.

(** Stripping the trailing zeros of a text of digits. *)
Lemma strip_trailing_zeros_spec (s : string) :
  ∃ j, s = strip_trailing_zeros_go s +:+ zeros j ∧
       (String.length s = String.length (strip_trailing_zeros_go s) + j)%nat.
Proof.
  induction s as [|c s (j & Hs & Hl)]; simpl.
  - by exists 0%nat.
  - destruct (strip_trailing_zeros_go s) as [|c' s'] eqn:E.
    + destruct (Ascii.eqb c "0") eqn:Ec.
      * apply Ascii.eqb_eq in Ec. subst c. exists (S j). simpl in *.
        split; [by rewrite <- Hs|lia].
      * exists j. simpl in *. split; [by rewrite <- Hs|lia].
    + exists j. rewrite string_app_cons, <- Hs. split; [done|]. simpl in *. lia.
Qed.

Lemma strip_trailing_zeros_first (c : ascii) (r : string) :
  c ≠ "0"%char →
  ∃ r', strip_trailing_zeros_go (String c r) = String c r'.
Proof.
  intros Hc. simpl. destruct (strip_trailing_zeros_go r) as [|c' s'].
  - rewrite (proj2 (Ascii.eqb_neq _ _) Hc). by eexists.
  - by eexists.
Qed.

(** The exponent form of Number::toString reads back. *)
Lemma exponent_form_parse (neg : bool) (d : ascii) (r : string) (n : Z)
    (rest : string) :
  is_digits (String d r) = true → d ≠ "0"%char → n - 1 ≠ 0 →
  number_ends rest →
  let es := (if n - 1 <? 0 then "-" else "+") +:+ digits (Z.abs (n - 1)) in
  number_literal ((if neg then "-" else "") +:+
                match r with
                | EmptyString => String d "" +:+ "e" +:+ es
                | _ => String d "" +:+ "." +:+ r +:+ "e" +:+ es
                end +:+ rest)
  = Some (let v := mk_number (S (String.length r)) (digits_value (String d r) 0)
                     (n - Z.of_nat (S (String.length r))) in
          if neg then number_opp v else v, rest).
Proof.
  intros Hds Hd He Hrest es.
  destruct (digits_spec (Z.abs (n - 1)) ltac:(lia)) as (Hed & Hev & c & r' & Hec & _).
  assert (is_digits (String d "") = true ∧ is_digits r = true) as [Hd1 Hr].
  { change (String d r) with (String d "" +:+ r) in Hds.
    rewrite is_digits_app in Hds. by apply andb_true_iff in Hds. }
  pose proof (number_literal_parts neg (String d "") r
                (Some (n - 1 <? 0, digits (Z.abs (n - 1)))) rest Hd1) as Hlit.
  assert (match r with
          | EmptyString => String d "" +:+ "e" +:+ es
          | _ => String d "" +:+ "." +:+ r +:+ "e" +:+ es
          end +:+ rest
          = String d "" +:+ frac_text r +:+
            exp_text (Some (n - 1 <? 0, digits (Z.abs (n - 1)))) +:+ rest) as ->.
  { unfold es. destruct r as [|f r0].
    - simpl. by destruct (n - 1 <? 0).
    - simpl. rewrite !string_app_assoc. simpl. by destruct (n - 1 <? 0). }
  rewrite Hlit; [| |done| |done].
  - assert (exp_value (Some (n - 1 <? 0, digits (Z.abs (n - 1)))) = n - 1) as ->.
    { unfold exp_value. rewrite Hev.
      destruct (n - 1 <? 0) eqn:E; [apply Z.ltb_lt in E|apply Z.ltb_ge in E]; lia. }
    change (String d "" +:+ r) with (String d r).
    change (String.length (String d "") + String.length r)%nat
      with (S (String.length r)).
    replace (n - 1 - Z.of_nat (String.length r))
      with (n - Z.of_nat (S (String.length r))) by lia.
    done.
  - exists d, "". split; [done|by right].
  - split; [done|]. by rewrite Hec.
Qed.

(** A number with digits before and after the point reads back. *)
Lemma point_form_parse (neg : bool) (ds : string) (n : nat) (rest : string) :
  is_digits ds = true →
  (∃ c r, ds = String c r ∧ c ≠ "0"%char) →
  (0 < n < String.length ds)%nat →
  number_ends rest →
  number_literal ((if neg then "-" else "") +:+
                (string_take n ds +:+ "." +:+ string_drop n ds) +:+ rest)
  = Some (let v := mk_number (String.length ds) (digits_value ds 0)
                     (Z.of_nat n - Z.of_nat (String.length ds)) in
          if neg then number_opp v else v, rest).
Proof.
  intros Hds (c & r & Hc & Hnz) Hn Hrest.
  pose proof (string_take_drop n ds) as Htd.
  pose proof (string_take_length n ds ltac:(lia)) as Htl.
  assert (is_digits (string_take n ds) = true ∧
          is_digits (string_drop n ds) = true) as [Ht Hdr].
  { rewrite <- Htd, is_digits_app in Hds. by apply andb_true_iff in Hds. }
  assert (String.length (string_drop n ds) = String.length ds - n)%nat as Hdl.
  { rewrite <- Htd at 2. rewrite string_length_app, Htl. lia. }
  pose proof (number_literal_parts neg (string_take n ds) (string_drop n ds)
                None rest Ht) as Hlit.
  assert ((string_take n ds +:+ "." +:+ string_drop n ds) +:+ rest
          = string_take n ds +:+ frac_text (string_drop n ds) +:+
            exp_text None +:+ rest) as ->.
  { rewrite !string_app_assoc. f_equal.
    destruct (string_drop n ds) eqn:E; [simpl in Hdl; lia|]. done. }
  rewrite Hlit; [| |done|done|done].
  - rewrite Htd, Htl, Hdl.
    replace (n + (String.length ds - n))%nat with (String.length ds) by lia.
    replace (exp_value None - Z.of_nat (String.length ds - n))
      with (Z.of_nat n - Z.of_nat (String.length ds)) by (simpl; lia).
    done.
  - subst ds. destruct n as [|n]; [lia|]. simpl. eauto.
Qed.

(** A number below one reads back. *)
Lemma small_form_parse (neg : bool) (ds : string) (j : nat) (rest : string) :
  is_digits ds = true →
  (∃ c r, ds = String c r ∧ c ≠ "0"%char) →
  number_ends rest →
  number_literal ((if neg then "-" else "") +:+
                ("0." +:+ zeros j +:+ ds) +:+ rest)
  = Some (let v := mk_number (S (j + String.length ds)) (digits_value ds 0)
                     (- Z.of_nat (j + String.length ds)) in
          if neg then number_opp v else v, rest).
Proof.
  intros Hds (c & r & Hc & Hnz) Hrest.
  destruct (zeros_spec j) as (Hzd & Hzl & Hzv).
  assert (is_digits (zeros j +:+ ds) = true) as Hfp.
  { by rewrite is_digits_app, Hzd, Hds. }
  pose proof (number_literal_parts neg "0" (zeros j +:+ ds) None rest eq_refl)
    as Hlit.
  assert (("0." +:+ zeros j +:+ ds) +:+ rest
          = "0" +:+ frac_text (zeros j +:+ ds) +:+ exp_text None +:+ rest) as ->.
  { subst ds. destruct j; simpl; by rewrite ?string_app_assoc. }
  rewrite Hlit; [| |done|done|done].
  - rewrite string_length_app, Hzl.
    change ("0" +:+ zeros j +:+ ds) with (String "0" (zeros j +:+ ds)).
    assert (digits_value (String "0" (zeros j +:+ ds)) 0 = digits_value ds 0) as ->.
    { change (digits_value (String "0" (zeros j +:+ ds)) 0)
        with (digits_value (zeros j +:+ ds) 0).
      rewrite digits_value_app, Hzv by done. done. }
    change (String.length "0" + (j + String.length ds))%nat
      with (S (j + String.length ds)).
    replace (exp_value None - Z.of_nat (j + String.length ds))
      with (- Z.of_nat (j + String.length ds)) by (simpl; lia).
    done.
  - exists "0"%char, "". split; [done|by right].
Qed.

(** The digits of a whole number read back. *)
Lemma whole_form_parse (neg : bool) (ds : string) (rest : string) :
  is_digits ds = true →
  (∃ c r, ds = String c r ∧ c ≠ "0"%char) →
  number_ends rest →
  number_literal ((if neg then "-" else "") +:+ ds +:+ rest)
  = Some (let v := mk_number (String.length ds) (digits_value ds 0) 0 in
          if neg then number_opp v else v, rest).
Proof.
  intros Hds (c & r & Hc & Hnz) Hrest.
  pose proof (number_literal_parts neg ds "" None rest Hds) as Hlit.
  simpl in Hlit. rewrite Hlit; [| |done|done|done].
  - by rewrite string_app_nil_r, Nat.add_0_r.
  - subst ds. eauto.
Qed.

Lemma number_opp_sign (z : Z) (v : number) (f : Z → number) :
  z ≠ 0 → v = f (Z.abs z) →
  (∀ a, number_opp (f a) = f (- a)) →
  (if z <? 0 then number_opp v else v) = f z.
Proof.
  intros Hz -> Hopp. destruct (z <? 0) eqn:E.
  - apply Z.ltb_lt in E. rewrite Hopp. f_equal. lia.
  - apply Z.ltb_ge in E. f_equal. lia.
Qed.

(** The text of a decimal is a literal that writes it. *)
Lemma number_literal_roundtrip (n : number) (rest : string) :
  normal_decimal n = true → number_ends rest →
  number_literal (number_to_string n +:+ rest) = Some (n, rest).
Proof.
  intros Hwf Hrest. destruct n as [z|m k| |]; try done.
  - (* an integer *)
    unfold number_to_string. destruct (z =? 0) eqn:Hz.
    { apply Z.eqb_eq in Hz. subst z.
      pose proof (number_literal_parts false "0" "" None rest eq_refl) as Hlit.
      simpl in Hlit. change ("0" +:+ rest) with (String "0" rest).
      rewrite Hlit; [done| |done|done|done].
      exists "0"%char, "". split; [done|by right]. }
    apply Z.eqb_neq in Hz.
    destruct (digits_spec (Z.abs z) ltac:(lia)) as (Hd & Hv & c & r & Hall & Hc).
    set (all := digits (Z.abs z)) in *.
    destruct (strip_trailing_zeros_spec all) as (j & Hstrip & Hlen).
    set (ds := strip_trailing_zeros_go all) in *.
    destruct (strip_trailing_zeros_first c r Hc) as (r' & Hds).
    rewrite <- Hall in Hds. fold ds in Hds.
    destruct (zeros_spec j) as (Hzd & Hzl & Hzv).
    assert (is_digits ds = true) as Hdd.
    { rewrite Hstrip, is_digits_app in Hd. by apply andb_true_iff in Hd as [? _]. }
    assert (digits_value ds 0 * 10 ^ Z.of_nat j = Z.abs z) as Hval.
    { rewrite <- Hv, Hstrip at 1. by rewrite digits_value_app, Hzv. }
    rewrite string_app_assoc. unfold print_positional.
    rewrite (proj2 (Z.leb_le _ _)) by lia. simpl andb.
    destruct (Z.of_nat (String.length all) <=? 21) eqn:Hsmall.
    + (* positional *)
      replace (Z.to_nat (Z.of_nat (String.length all) - Z.of_nat (String.length ds)))
        with j by lia.
      rewrite <- Hstrip.
      rewrite whole_form_parse; [|done|by eauto|done].
      f_equal. f_equal. rewrite Hv, mk_number_int by lia.
      apply (number_opp_sign z _ NInt); [done| |done]. f_equal. lia.
    + (* exponent *)
      apply Z.leb_gt in Hsmall.
      rewrite (proj2 (Z.leb_gt _ _)) by lia. rewrite !andb_false_r.
      rewrite Hds.
      rewrite exponent_form_parse; [|by rewrite <- Hds|done|lia|done].
      f_equal. f_equal. rewrite <- Hds.
      assert (Z.of_nat (String.length all) - Z.of_nat (S (String.length r'))
              = Z.of_nat j) as ->.
      { rewrite Hds in Hlen. simpl in Hlen. lia. }
      rewrite mk_number_int; [|lia|lia].
      apply (number_opp_sign z _ NInt); [done| |done]. by rewrite Hval.
  - (* a decimal *)
    simpl in Hwf. apply negb_true_iff, Z.eqb_neq in Hwf.
    assert (m ≠ 0) as Hm by (intros ->; done).
    assert (Z.abs m mod 10 ≠ 0) as Ha.
    { intros H. apply Hwf. apply Z.mod_divide; [lia|].
      apply Z.divide_abs_r. apply Z.mod_divide; [lia|done]. }
    unfold number_to_string.
    destruct (digits_spec (Z.abs m) ltac:(lia)) as (Hd & Hv & c & r & Hall & Hc).
    set (all := digits (Z.abs m)) in *.
    rewrite string_app_assoc. unfold print_positional.
    set (n := Z.of_nat (String.length all) - Z.pos k).
    rewrite (proj2 (Z.leb_gt _ _)) by lia. simpl andb.
    assert (∀ cnt, (if m <? 0
                    then number_opp (mk_number cnt (Z.abs m) (- Z.pos k))
                    else mk_number cnt (Z.abs m) (- Z.pos k)) = NDec m k) as Hres.
    { intros cnt. rewrite mk_number_dec by done.
      apply (number_opp_sign m _ (λ a, NDec a k)); done. }
    destruct ((0 <? n) && (n <=? 21)) eqn:Hpoint.
    + apply andb_true_iff in Hpoint as [H1%Z.ltb_lt H2%Z.leb_le].
      rewrite point_form_parse; [|done|by eauto|lia|done].
      f_equal. f_equal. rewrite Hv.
      replace (Z.of_nat (Z.to_nat n) - Z.of_nat (String.length all))
        with (- Z.pos k) by lia.
      apply Hres.
    + destruct ((-6 <? n) && (n <=? 0)) eqn:Hsmall.
      * apply andb_true_iff in Hsmall as [H1%Z.ltb_lt H2%Z.leb_le].
        rewrite small_form_parse; [|done|by eauto|done].
        f_equal. f_equal. rewrite Hv.
        replace (- Z.of_nat (Z.to_nat (- n) + String.length all))
          with (- Z.pos k) by lia.
        apply Hres.
      * assert (n - 1 ≠ 0) as Hn.
        { apply andb_false_iff in Hpoint, Hsmall.
          rewrite Z.ltb_ge, Z.leb_gt in Hpoint.
          rewrite Z.ltb_ge, Z.leb_gt in Hsmall. lia. }
        rewrite Hall.
        rewrite exponent_form_parse; [|by rewrite <- Hall|done|done|done].
        f_equal. f_equal. rewrite <- Hall, Hv.
        replace (n - Z.of_nat (S (String.length r))) with (- Z.pos k).
        { apply Hres. }
        unfold n. rewrite Hall. simpl. lia.
Qed.

(** The text of a number reads back as the number. *)
Lemma number_roundtrip (n : number) (rest : string) :
  wf_number n = true → number_ends rest →
  parse_number (number_to_string n +:+ rest) = Some (n, rest).
Proof.
  intros [Hn Hd%bool_decide_eq_true]%andb_true_iff Hrest.
  unfold parse_number. rewrite number_literal_roundtrip by done.
  by rewrite Hd.
Qed.

(** ** Strings print and parse back *)

Lemma parse_string_body_cons (c : ascii) (r : string) :
  parse_string_body (String c r) =
  if Ascii.eqb c "034" then Some ("", r)
  else if Ascii.eqb c "\" then
    match r with
    | String e r1 =>
        if Ascii.eqb e "u" then
          match r1 with
          | String h1 (String h2 (String h3 (String h4 r2))) =>
              match hex4 h1 h2 h3 h4 with
              | Some cp =>
                  let single :=
                    match parse_string_body r2 with
                    | Some (body, rest) => Some (utf8 cp body, rest)
                    | None => None
                    end in
                  if is_high_surrogate cp then
                    match r2 with
                    | String b (String u (String g1 (String g2
                        (String g3 (String g4 r3))))) =>
                        if Ascii.eqb b "\" && Ascii.eqb u "u" then
                          match hex4 g1 g2 g3 g4 with
                          | Some low =>
                              if is_low_surrogate low then
                                match parse_string_body r3 with
                                | Some (body, rest) =>
                                    Some (utf8 (surrogate_pair cp low) body,
                                          rest)
                                | None => None
                                end
                              else single
                          | None => single
                          end
                        else single
                    | _ => single
                    end
                  else single
              | None => None
              end
          | _ => None
          end
        else
          match escape_char e, parse_string_body r1 with
          | Some c', Some (body, rest) => Some (String c' body, rest)
          | _, _ => None
          end
    | EmptyString => None
    end
  else if (N_of_ascii c <? 32)%N then None
  else
    match parse_string_body r with
    | Some (body, rest) => Some (String c body, rest)
    | None => None
    end.
Proof. reflexivity. Qed.

Lemma quote_body_cons (c : ascii) (r : string) :
  quote_body (String c r) =
  let n := Z.of_N (N_of_ascii c) in
  let rest := quote_body r in
  if n =? 34 then String "\" (String "034" rest)
  else if n =? 92 then String "\" (String "\" rest)
  else if n =? 8 then String "\" (String "b" rest)
  else if n =? 12 then String "\" (String "f" rest)
  else if n =? 10 then String "\" (String "n" rest)
  else if n =? 13 then String "\" (String "r" rest)
  else if n =? 9 then String "\" (String "t" rest)
  else if n <? 32 then
    String "\" (String "u" (String "0" (String "0"
      (String (hex_digit (n / 16)) (String (hex_digit (n mod 16)) rest)))))
  else String c rest.
Proof. reflexivity. Qed.

Lemma quote_body_roundtrip (s rest : string) :
  parse_string_body (quote_body s +:+ rest) = Some (s, rest).
Proof.
  induction s as [|c s IH].
  - reflexivity.
  - destruct c as [[] [] [] [] [] [] [] []]; simpl; rewrite IH; reflexivity.
Qed.

Lemma quote_roundtrip (s rest : string) :
  starts_with "034" (quote s +:+ rest) = Some (quote_body s +:+ rest).
Proof. reflexivity. Qed.

(** ** Objects in property order *)

Lemma array_index_digits (k : string) (i : Z) :
  array_index k = Some i → k = digits i.
Proof.
  unfold array_index. destruct (scan_digits 10 k 0 0) as [[v cnt] rest].
  destruct cnt; [done|]. destruct rest; [|done].
  destruct (String.eqb (digits v) k) eqn:E; [|done].
  apply String.eqb_eq in E. destruct (v <? 4294967295); [|done].
  by intros [= <-].
Qed.

Lemma array_index_inj (k k' : string) (i : Z) :
  array_index k = Some i → array_index k' = Some i → k = k'.
Proof. intros ->%array_index_digits ->%array_index_digits. done. Qed.

Lemma ordered_fields_cons (k : string) (v : jsval) (r : list (string * jsval)) :
  ordered_fields ((k, v) :: r)
  = negb (has_field k r) && forallb (may_follow k) r && ordered_fields r.
Proof. reflexivity. Qed.

Lemma has_field_app (k : string) (fs gs : list (string * jsval)) :
  has_field k (fs ++ gs) = has_field k fs || has_field k gs.
Proof.
  induction fs as [|[k' v'] r IH]; simpl; [done|].
  rewrite IH. by rewrite orb_assoc.
Qed.

Lemma has_field_replace (k k' : string) (v : jsval) (fs : list (string * jsval)) :
  has_field k' (replace_field k v fs) = has_field k' fs.
Proof.
  induction fs as [|[k0 v0] r IH]; simpl; [done|].
  destruct (String.eqb k k0); simpl; [done|]. by rewrite IH.
Qed.

Lemma forallb_replace (P : string * jsval → bool) (k : string) (v : jsval)
    (fs : list (string * jsval)) :
  (∀ k0 v0 v1, P (k0, v0) = P (k0, v1)) →
  forallb P (replace_field k v fs) = forallb P fs.
Proof.
  intros HP. induction fs as [|[k0 v0] r IH]; simpl; [done|].
  destruct (String.eqb k k0); simpl; [by rewrite (HP k0 v v0)|]. by rewrite IH.
Qed.

Lemma ordered_fields_replace (k : string) (v : jsval) (fs : list (string * jsval)) :
  ordered_fields (replace_field k v fs) = ordered_fields fs.
Proof.
  induction fs as [|[k0 v0] r IH]; [done|]. simpl replace_field.
  destruct (String.eqb k k0); [done|].
  rewrite !ordered_fields_cons, has_field_replace, IH.
  by rewrite forallb_replace.
Qed.

Lemma has_field_insert_index (k' : string) (i : Z) (k : string) (v : jsval)
    (fs : list (string * jsval)) :
  has_field k' (insert_index i k v fs) = String.eqb k' k || has_field k' fs.
Proof.
  induction fs as [|[k0 v0] r IH]; simpl; [done|].
  destruct (array_index k0) as [j|]; [destruct (j <? i)|]; simpl; try done.
  rewrite IH. by destruct (String.eqb k' k0), (String.eqb k' k).
Qed.

Lemma forallb_insert_index (P : string * jsval → bool) (i : Z) (k : string)
    (v : jsval) (fs : list (string * jsval)) :
  forallb P (insert_index i k v fs) = P (k, v) && forallb P fs.
Proof.
  induction fs as [|[k0 v0] r IH]; simpl; [done|].
  destruct (array_index k0) as [j|]; [destruct (j <? i)|]; simpl; try done.
  rewrite IH. by destruct (P (k0, v0)), (P (k, v)).
Qed.

Lemma ordered_fields_insert_index (i : Z) (k : string) (v : jsval)
    (fs : list (string * jsval)) :
  array_index k = Some i → has_field k fs = false →
  ordered_fields fs = true → ordered_fields (insert_index i k v fs) = true.
Proof.
  intros Hk. induction fs as [|[k0 v0] r IH]; [done|].
  intros Hno Hord. simpl in Hno. apply orb_false_iff in Hno as [Hne Hno].
  rewrite ordered_fields_cons in Hord.
  apply andb_true_iff in Hord as [Hord Hr].
  apply andb_true_iff in Hord as [Hnew Hall].
  assert (∀ kv, may_follow k0 kv = true → array_index k0 = None →
                may_follow k kv = true) as Hnone.
  { intros kv H E. unfold may_follow in *. rewrite E in H. rewrite Hk.
    by destruct (array_index kv.1). }
  assert (∀ j kv, array_index k0 = Some j → i < j →
                  may_follow k0 kv = true → may_follow k kv = true) as Hsome.
  { intros j kv E Hij H. unfold may_follow in *. rewrite E in H. rewrite Hk.
    destruct (array_index kv.1); [|done].
    apply Z.ltb_lt in H. apply Z.ltb_lt. lia. }
  assert (∀ P Q : string * jsval → bool, (∀ kv, P kv = true → Q kv = true) →
            forallb P r = true → forallb Q r = true) as Hmono.
  { intros P Q HPQ. rewrite !forallb_forall. auto. }
  simpl insert_index. destruct (array_index k0) as [j|] eqn:Ej.
  - destruct (j <? i) eqn:Hji.
    + rewrite ordered_fields_cons, has_field_insert_index, forallb_insert_index.
      rewrite String.eqb_sym, Hne, IH by done. simpl.
      rewrite Hall, andb_true_r. apply negb_true_iff in Hnew. rewrite Hnew.
      simpl. unfold may_follow. simpl. by rewrite Ej, Hk, Hji.
    + apply Z.ltb_ge in Hji.
      assert (i < j) as Hlt.
      { destruct (decide (i = j)) as [->|]; [|lia].
        rewrite (array_index_inj k k0 j Hk Ej), String.eqb_refl in Hne. done. }
      rewrite ordered_fields_cons. simpl has_field. rewrite Hne, Hno. simpl.
      rewrite Hnew, Hall, Hr. simpl.
      rewrite andb_true_r. apply andb_true_iff. split.
      * unfold may_follow. simpl. rewrite Hk, Ej. by apply Z.ltb_lt.
      * eapply Hmono; [|exact Hall]. intros kv. by apply (Hsome j kv eq_refl).
  - rewrite ordered_fields_cons. simpl has_field. rewrite Hne, Hno. simpl.
    rewrite Hnew, Hall, Hr. simpl.
    rewrite andb_true_r. apply andb_true_iff. split.
    + unfold may_follow. simpl. by rewrite Hk, Ej.
    + eapply Hmono; [|exact Hall]. intros kv H. by apply Hnone.
Qed.

Lemma ordered_fields_snoc (k : string) (v : jsval) (fs : list (string * jsval)) :
  array_index k = None → has_field k fs = false →
  ordered_fields fs = true → ordered_fields (fs ++ [(k, v)]) = true.
Proof.
  intros Hk. induction fs as [|[k0 v0] r IH]; [done|].
  intros Hno Hord. simpl in Hno. apply orb_false_iff in Hno as [Hne Hno].
  rewrite ordered_fields_cons in Hord.
  apply andb_true_iff in Hord as [Hord Hr].
  apply andb_true_iff in Hord as [Hnew Hall].
  change (((k0, v0) :: r) ++ [(k, v)]) with ((k0, v0) :: (r ++ [(k, v)])).
  rewrite ordered_fields_cons, has_field_app, forallb_app, IH by done.
  apply negb_true_iff in Hnew. rewrite Hnew, Hall. simpl.
  rewrite String.eqb_sym, Hne. simpl. unfold may_follow. simpl. rewrite Hk.
  by destruct (array_index k0).
Qed.

(** Setting a property keeps the property order. *)
Lemma ordered_fields_set_field (k : string) (v : jsval) (fs : list (string * jsval)) :
  ordered_fields fs = true → ordered_fields (set_field k v fs) = true.
Proof.
  intros Hord. unfold set_field. destruct (has_field k fs) eqn:Hhas.
  - by rewrite ordered_fields_replace.
  - destruct (array_index k) as [i|] eqn:Hk.
    + by apply ordered_fields_insert_index.
    + by apply ordered_fields_snoc.
Qed.

(** In property order, a property that comes last is set by appending it. *)
Lemma set_field_last (k : string) (v : jsval) (acc r : list (string * jsval)) :
  ordered_fields (acc ++ (k, v) :: r) = true →
  set_field k v acc = acc ++ [(k, v)].
Proof.
  intros Hord.
  assert (has_field k acc = false ∧
          ∀ i, array_index k = Some i → insert_index i k v acc = acc ++ [(k, v)])
    as [Hno Hins].
  { induction acc as [|[k0 v0] acc IH]; [done|].
    change (((k0, v0) :: acc) ++ (k, v) :: r)
      with ((k0, v0) :: (acc ++ (k, v) :: r)) in Hord.
    rewrite ordered_fields_cons in Hord.
    apply andb_true_iff in Hord as [Hord Hr].
    apply andb_true_iff in Hord as [Hnew Hall].
    destruct (IH Hr) as [IHno IHins].
    rewrite has_field_app in Hnew. simpl in Hnew.
    apply negb_true_iff, orb_false_iff in Hnew as [_ Hnew].
    apply orb_false_iff in Hnew as [Hne _].
    rewrite forallb_app in Hall. apply andb_true_iff in Hall as [_ Hall].
    simpl in Hall. apply andb_true_iff in Hall as [Hfollow _].
    unfold may_follow in Hfollow. simpl in Hfollow.
    split.
    - simpl. by rewrite String.eqb_sym, Hne, IHno.
    - intros i Hi. rewrite Hi in Hfollow. simpl.
      destruct (array_index k0) as [j|]; [|done].
      rewrite Hfollow. by rewrite IHins. }
  unfold set_field. rewrite Hno.
  destruct (array_index k) as [i|] eqn:Hk; [by apply Hins|done].
Qed.

(** An object in property order is rebuilt by setting its properties in
    turn. *)
Lemma foldl_set_field_ordered (acc r : list (string * jsval)) :
  ordered_fields (acc ++ r) = true →
  foldl (λ a kv, set_field kv.1 kv.2 a) acc r = acc ++ r.
Proof.
  revert acc. induction r as [|[k v] r IH]; intros acc Hord; simpl.
  - by rewrite app_nil_r.
  - rewrite (set_field_last k v acc r Hord).
    rewrite IH; rewrite <- app_assoc; done.
Qed.

Lemma has_field_keep_defined (f : jsval → jsval) (k : string)
    (fs : list (string * jsval)) :
  has_field k fs = false → has_field k (keep_defined f fs) = false.
Proof.
  induction fs as [|[k0 v0] r IH]; [done|]. simpl.
  intros H. apply orb_false_iff in H as [Hne H].
  assert (has_field k ((k0, f v0) :: keep_defined f r) = false) as Hkeep.
  { simpl. rewrite Hne. auto. }
  destruct v0; simpl; auto.
Qed.

Lemma forallb_keep_defined (P : string * jsval → bool) (f : jsval → jsval)
    (fs : list (string * jsval)) :
  (∀ k0 v0 v1, P (k0, v0) = P (k0, v1)) →
  forallb P fs = true → forallb P (keep_defined f fs) = true.
Proof.
  intros HP. induction fs as [|[k0 v0] r IH]; [done|]. simpl.
  intros H. apply andb_true_iff in H as [H0 H].
  assert (forallb P ((k0, f v0) :: keep_defined f r) = true) as Hkeep.
  { simpl. rewrite (HP k0 (f v0) v0), H0. auto. }
  destruct v0; simpl; auto.
Qed.

(** Leaving properties out keeps the property order. *)
Lemma ordered_fields_keep_defined (f : jsval → jsval) (fs : list (string * jsval)) :
  ordered_fields fs = true → ordered_fields (keep_defined f fs) = true.
Proof.
  induction fs as [|[k0 v0] r IH]; [done|].
  rewrite ordered_fields_cons. intros Hord.
  apply andb_true_iff in Hord as [Hord Hr].
  apply andb_true_iff in Hord as [Hnew Hall].
  assert (ordered_fields ((k0, f v0) :: keep_defined f r) = true) as Hkeep.
  { rewrite ordered_fields_cons, IH by done.
    apply negb_true_iff in Hnew.
    rewrite has_field_keep_defined, forallb_keep_defined by done. done. }
  destruct v0; simpl; auto.
Qed.

(** ** What the parser makes *)

Lemma jsval_nested_ind (P : jsval → Prop) :
  P JUndefined → P JNull → (∀ b, P (JBool b)) → (∀ n, P (JNum n)) →
  (∀ s, P (JStr s)) →
  (∀ items, Forall P items → P (JArr items)) →
  (∀ fields, Forall (λ kv : string * jsval, P kv.2) fields → P (JObj fields)) →
  ∀ v, P v.
Proof.
  intros HU HN HB HNum HS HA HO. fix IH 1.
  intros [| |b|n|s|items|fields].
  - exact HU.
  - exact HN.
  - apply HB.
  - apply HNum.
  - apply HS.
  - apply HA. induction items as [|x r IHr]; constructor; [apply IH|exact IHr].
  - apply HO. induction fields as [|[k x] r IHr]; constructor;
      [apply IH|exact IHr].
Qed.

Lemma digit_of_range (c : ascii) (d : Z) :
  digit_of 10 c = Some d → 0 <= d < 10.
Proof.
  unfold digit_of.
  set (n := Z.of_N (N_of_ascii c)).
  destruct ((48 <=? n) && (n <=? 57)) eqn:E1.
  - apply andb_true_iff in E1 as [H1%Z.leb_le H2%Z.leb_le].
    destruct (n - 48 <? 10); [|done]. intros [= <-]. lia.
  - destruct ((97 <=? n) && (n <=? 102)) eqn:E2.
    + apply andb_true_iff in E2 as [H1%Z.leb_le H2%Z.leb_le].
      destruct (n - 87 <? 10) eqn:E; [|done]. apply Z.ltb_lt in E. lia.
    + destruct ((65 <=? n) && (n <=? 70)) eqn:E3; [|done].
      apply andb_true_iff in E3 as [H1%Z.leb_le H2%Z.leb_le].
      destruct (n - 55 <? 10) eqn:E; [|done]. apply Z.ltb_lt in E. lia.
Qed.

Lemma scan_digits_bound (s : string) (acc : Z) (cnt : nat) v cnt' rest :
  0 <= acc < 10 ^ Z.of_nat cnt →
  scan_digits 10 s acc cnt = (v, cnt', rest) →
  0 <= v < 10 ^ Z.of_nat cnt'.
Proof.
  revert acc cnt. induction s as [|c s IH]; intros acc cnt Hacc; simpl.
  - by intros [= <- <- <-].
  - destruct (digit_of 10 c) as [d|] eqn:Hd; [|by intros [= <- <- <-]].
    apply digit_of_range in Hd. apply IH.
    replace (Z.of_nat (S cnt)) with (Z.succ (Z.of_nat cnt)) by lia.
    rewrite Z.pow_succ_r by lia. lia.
Qed.

Lemma strip_zeros_spec (cnt : nat) (m e : Z) :
  0 < m < 10 ^ Z.of_nat cnt →
  0 <= (strip_zeros cnt m e).2 ∨ (strip_zeros cnt m e).1 mod 10 ≠ 0.
Proof.
  revert m e. induction cnt as [|cnt IH]; intros m e Hm.
  { simpl in Hm. lia. }
  simpl. destruct ((e <? 0) && (m mod 10 =? 0)) eqn:E.
  - apply andb_true_iff in E as [He%Z.ltb_lt Hmod%Z.eqb_eq].
    apply IH.
    replace (Z.of_nat (S cnt)) with (Z.succ (Z.of_nat cnt)) in Hm by lia.
    rewrite Z.pow_succ_r in Hm by lia.
    pose proof (Z.div_mod m 10 ltac:(lia)) as Hdm.
    split; [lia|]. apply Z.div_lt_upper_bound; lia.
  - simpl. apply andb_false_iff in E as [He%Z.ltb_ge|Hmod%Z.eqb_neq]; auto.
Qed.

Lemma mk_number_normal (cnt : nat) (m e : Z) :
  0 <= m < 10 ^ Z.of_nat cnt → normal_decimal (mk_number cnt m e) = true.
Proof.
  intros Hm. unfold mk_number. destruct (m =? 0) eqn:Hz; [done|].
  apply Z.eqb_neq in Hz.
  pose proof (strip_zeros_spec cnt m e ltac:(lia)) as Hs.
  destruct (strip_zeros cnt m e) as [m' e']. simpl in Hs.
  destruct (0 <=? e') eqn:He; [done|]. apply Z.leb_gt in He.
  simpl. apply negb_true_iff, Z.eqb_neq. destruct Hs; [lia|done].
Qed.

Lemma normal_decimal_opp (n : number) :
  normal_decimal (number_opp n) = normal_decimal n.
Proof.
  destruct n as [z|m k| |]; simpl; try done. f_equal.
  destruct (m mod 10 =? 0) eqn:E.
  - apply Z.eqb_eq in E. apply Z.eqb_eq.
    apply Z.mod_divide; [lia|]. apply Z.divide_opp_r.
    by apply Z.mod_divide.
  - apply Z.eqb_neq in E. apply Z.eqb_neq. intros H. apply E.
    apply Z.mod_divide; [lia|]. apply Z.divide_opp_r.
    by apply Z.mod_divide.
Qed.

Lemma number_literal_normal (s : string) n r :
  number_literal s = Some (n, r) → normal_decimal n = true.
Proof.
  unfold number_literal.
  destruct (match starts_with "-" s with Some r0 => _ | None => _ end)
    as [neg s1].
  destruct (scan_digits 10 s1 0 0) as [[ip icnt] r1] eqn:E1.
  apply scan_digits_bound in E1; [|simpl; lia].
  destruct icnt as [|icnt]; [done|].
  destruct (match starts_with "0" s1 with Some _ => _ | None => _ end); [done|].
  assert (∀ m cnt e r3,
            0 <= m < 10 ^ Z.of_nat cnt →
            Some (if neg then number_opp (mk_number cnt m e)
                  else mk_number cnt m e, r3) = Some (n, r) →
            normal_decimal n = true) as Hfin.
  { intros m cnt e r3 Hm [= <- _]. destruct neg.
    - rewrite normal_decimal_opp. by apply mk_number_normal.
    - by apply mk_number_normal. }
  destruct (starts_with "." r1) as [r'|].
  - destruct (scan_digits 10 r' ip (S icnt)) as [[m cnt] r2] eqn:E2.
    apply scan_digits_bound in E2; [|done].
    destruct (cnt =? S icnt)%nat; [done|].
    destruct (scan_exponent r2) as [[e r3]|]; [|done]. by apply Hfin.
  - destruct (scan_exponent r1) as [[e r3]|]; [|done]. by apply Hfin.
Qed.

(** ** Doubles *)

Lemma double_of_opp (n : number) : double_of (number_opp n) = double_of n.
Proof.
  destruct n as [z|m k| |neg]; try done; unfold double_of; simpl.
  - rewrite Z.abs_opp. by destruct (Z.eqb_spec z 0), (Z.eqb_spec (- z) 0); try lia.
  - rewrite Z.abs_opp. by destruct (Z.eqb_spec m 0), (Z.eqb_spec (- m) 0); try lia.
Qed.

Lemma strip_zeros_nonneg (cnt : nat) (m e : Z) :
  0 <= m → 0 <= (strip_zeros cnt m e).1.
Proof.
  revert m e. induction cnt as [|cnt IH]; intros m e Hm; simpl; [done|].
  destruct ((e <? 0) && (m mod 10 =? 0)); [|done].
  apply IH. by apply Z.div_pos.
Qed.

Lemma decimal_positive (s t : Z) : is_negative (decimal s t) = false.
Proof.
  unfold decimal, mk_number. destruct (Z.abs s =? 0); [done|].
  pose proof (strip_zeros_nonneg (S (Z.to_nat (Z.log2 (Z.abs s)))) (Z.abs s) t
                ltac:(lia)) as H.
  destruct (strip_zeros _ (Z.abs s) t) as [m' e']. simpl in H.
  destruct (0 <=? e') eqn:He; simpl; apply Z.ltb_ge; [|done].
  apply Z.leb_le in He. apply Z.mul_nonneg_nonneg; [done|].
  by apply Z.pow_nonneg.
Qed.

Lemma decimal_normal (s t : Z) : normal_decimal (decimal s t) = true.
Proof.
  unfold decimal. apply mk_number_normal. split; [lia|].
  destruct (Z.eq_dec (Z.abs s) 0) as [->|Hs].
  { by apply Z.pow_pos_nonneg. }
  pose proof (Z.log2_spec (Z.abs s) ltac:(lia)) as [_ Hlt].
  pose proof (Z.log2_nonneg (Z.abs s)) as Hl.
  replace (Z.of_nat (S (Z.to_nat (Z.log2 (Z.abs s)))))
    with (Z.succ (Z.log2 (Z.abs s))) by lia.
  eapply Z.lt_le_trans; [exact Hlt|].
  apply Z.pow_le_mono_l. lia.
Qed.

Lemma shortest_go_sound (fuel : nat) (k : Z) (d : double) (p q n : Z) c :
  shortest_go fuel k d p q n = Some c →
  double_of c = d ∧ is_negative c = false ∧ normal_decimal c = true.
Proof.
  revert k. induction fuel as [|fuel IH]; intros k; simpl; [done|].
  destruct (if 0 <=? n - k then _ else _) as [a b].
  set (c_lo := decimal (a / b) (n - k)).
  set (c_hi := decimal (a / b + 1) (n - k)).
  assert (∀ s, is_negative (decimal s (n - k)) = false ∧
               normal_decimal (decimal s (n - k)) = true) as Hdec.
  { intros s. split; [apply decimal_positive|apply decimal_normal]. }
  destruct (bool_decide (double_of c_lo = d)) eqn:Elo;
    destruct (bool_decide (double_of c_hi = d)) eqn:Ehi; simpl.
  - apply bool_decide_eq_true in Elo, Ehi.
    destruct (2 * (a mod b) <? b); [|destruct (b <? 2 * (a mod b));
      [|destruct (Z.even (a / b))]]; intros [= <-]; split; try done;
      apply Hdec.
  - apply bool_decide_eq_true in Elo. intros [= <-]. split; [done|apply Hdec].
  - apply bool_decide_eq_true in Ehi. intros [= <-]. split; [done|apply Hdec].
  - apply IH.
Qed.

Lemma shortest_sound (m e : Z) c :
  shortest m e = Some c →
  double_of c = DFin m e ∧ is_negative c = false ∧ normal_decimal c = true.
Proof.
  unfold shortest. destruct (if 0 <=? e then _ else _) as [p q].
  apply shortest_go_sound.
Qed.

Lemma is_negative_opp (c : number) m e :
  double_of c = DFin m e → is_negative (number_opp c) = negb (is_negative c).
Proof.
  destruct c as [z|z k| |neg]; try done; unfold double_of; simpl;
    destruct (Z.eqb_spec z 0); try done; intros _;
    destruct (Z.ltb_spec z 0), (Z.ltb_spec (- z) 0); simpl; lia.
Qed.

Lemma to_double_rounded (n c : number) m e :
  double_of n = DFin m e → shortest m e = Some c →
  to_double n = if is_negative n then number_opp c else c.
Proof.
  intros Hd Hs. unfold to_double.
  destruct n as [z|z k| |neg]; try done; by rewrite Hd, Hs.
Qed.

(** A double is not rounded again. *)
Lemma to_double_idem (n : number) : to_double (to_double n) = to_double n.
Proof.
  destruct (double_of n) as [|m e|] eqn:Ed.
  - assert (to_double n = NInt 0 ∨ to_double n = NaN) as [-> | ->]; [|done..].
    unfold to_double. destruct n as [z|z k| |neg]; rewrite ?Ed; auto.
    done.
  - destruct (shortest m e) as [c|] eqn:Es.
    + destruct (shortest_sound _ _ _ Es) as (Hc & Hpos & _).
      rewrite (to_double_rounded n c m e Ed Es).
      destruct (is_negative n).
      * rewrite (to_double_rounded (number_opp c) c m e); [| |done].
        -- by rewrite (is_negative_opp c m e Hc), Hpos.
        -- by rewrite double_of_opp.
      * by rewrite (to_double_rounded c c m e Hc Es), Hpos.
    + assert (to_double n = n) as H; [|by rewrite !H].
      unfold to_double. destruct n as [z|z k| |neg]; by rewrite ?Ed, ?Es.
  - assert (∃ neg, to_double n = NInf neg) as [neg ->]; [|done].
    unfold to_double. destruct n as [z|z k| |neg]; rewrite ?Ed; eauto.
    done.
Qed.

(** Roundings at the ends of the range of the doubles and between two
    doubles. *)
Example to_double_examples :
  to_double (NInt 9007199254740993) = NInt 9007199254740992 ∧
  to_double (NInt 9007199254740995) = NInt 9007199254740996 ∧
  to_double (NDec 30000000000000004 17) = NDec 30000000000000004 17 ∧
  to_double (NDec 30000000000000001 17) = NDec 3 1 ∧
  string_to_number "1e400" = NInf false ∧
  string_to_number "-1e400" = NInf true ∧
  string_to_number "1e-400" = NInt 0 ∧
  string_to_number "1.7976931348623159e308" = NInf false ∧
  number_to_string (string_to_number "1.7976931348623158e308")
    = "1.7976931348623157e+308" ∧
  number_to_string (string_to_number "3e-324") = "5e-324" ∧
  string_to_number "2e-324" = NInt 0 ∧
  number_to_string (string_to_number "123456789012345678901234")
    = "1.2345678901234569e+23" ∧
  string_to_number "0x20000000000001" = NInt 9007199254740992.
Proof. vm_compute. repeat split. Qed.

(** A decimal is rounded to a double or to an infinity. *)
Lemma to_double_cases (n : number) :
  normal_decimal n = true →
  wf_number (to_double n) = true ∨ ∃ neg, to_double n = NInf neg.
Proof.
  intros Hn.
  assert (normal_decimal (to_double n) = true ∨ ∃ neg, to_double n = NInf neg)
    as [H|H]; [|left|by right].
  { unfold to_double. destruct n as [z|m k| |neg]; try done;
      (destruct (double_of _) as [|m' e'|]; [by left| |by right; eexists]);
      (destruct (shortest m' e') as [c|] eqn:Es; [|by left]);
      destruct (shortest_sound _ _ _ Es) as (_ & _ & Hc);
      left; destruct (is_negative _); by rewrite ?normal_decimal_opp. }
  unfold wf_number. rewrite H. simpl. apply bool_decide_eq_true.
  apply to_double_idem.
Qed.

Lemma parse_number_cases (s : string) n r :
  parse_number s = Some (n, r) →
  wf_number n = true ∨ ∃ neg, n = NInf neg.
Proof.
  unfold parse_number.
  destruct (number_literal s) as [[n0 r0]|] eqn:E; [|done].
  intros [= <- _]. apply to_double_cases. by eapply number_literal_normal.
Qed.

Lemma has_field_finite (k : string) (fs : list (string * jsval)) :
  has_field k (map (λ '(k, x), (k, finite x)) fs) = has_field k fs.
Proof. induction fs as [|[k' x] r IH]; simpl; [done|]. by rewrite IH. Qed.

Lemma ordered_fields_finite (fs : list (string * jsval)) :
  ordered_fields (map (λ '(k, x), (k, finite x)) fs) = ordered_fields fs.
Proof.
  induction fs as [|[k x] r IH]; simpl; [done|].
  rewrite has_field_finite, IH. f_equal. f_equal.
  clear IH. induction r as [|[k' x'] r IH]; simpl; [done|].
  by rewrite IH.
Qed.

Lemma lookup_field_finite (k : string) (fs : list (string * jsval)) :
  lookup_field k (map (λ '(k, x), (k, finite x)) fs)
  = finite (lookup_field k fs).
Proof.
  induction fs as [|[k' x] r IH]; simpl; [done|].
  by destruct (String.eqb k k').
Qed.

(** A value that is written without loss holds no number that is not
    finite. *)
Lemma json_ok_finite (v : jsval) : json_ok v = true → finite v = v.
Proof.
  induction v as [| |b|n|s|items IH|fields IH] using jsval_nested_ind;
    try done.
  - by destruct n.
  - simpl. intros H. f_equal.
    induction IH as [|x r Hx _ IHr]; simpl; [done|].
    simpl in H. apply andb_true_iff in H as [H1 H2].
    by rewrite Hx, IHr.
  - simpl. intros [_ H]%andb_true_iff. f_equal.
    induction IH as [|[k x] r Hx _ IHr]; simpl; [done|].
    simpl in H, Hx. apply andb_true_iff in H as [H1 H2].
    rewrite IHr by done. f_equal. f_equal.
    destruct x; try done; by apply Hx.
Qed.

Lemma plain_parsed (v : jsval) : plain v → parsed v.
Proof. intros [H1 H2]. unfold parsed. rewrite json_ok_finite by done. by split. Qed.

Lemma parse_scalar_parsed (s : string) v r :
  parse_scalar s = Some (v, r) → parsed v.
Proof.
  unfold parse_scalar.
  destruct (starts_with "034" s) as [r0|].
  { destruct (parse_string_body r0) as [[str rest]|]; [|done].
    by intros [= <- _]. }
  destruct (strip_prefix "true" s); [by intros [= <- _]|].
  destruct (strip_prefix "false" s); [by intros [= <- _]|].
  destruct (strip_prefix "null" s); [by intros [= <- _]|].
  destruct (parse_number s) as [[n rest]|] eqn:E; [|done].
  apply parse_number_cases in E as [E|[neg ->]]; intros [= <- _].
  - apply plain_parsed. by split.
  - by split.
Qed.

Lemma plain_array (items : list jsval) :
  Forall plain items → plain (JArr items).
Proof.
  intros H. split; simpl.
  - apply forallb_forall. intros x Hx%list_elem_of_In.
    rewrite Forall_forall in H. by apply H.
  - f_equal. induction H as [|x l [_ Hx] _ IH]; simpl; [done|].
    by rewrite Hx, IH.
Qed.

Lemma plain_object (fs : list (string * jsval)) :
  ordered_fields fs = true → Forall (λ kv, plain kv.2) fs → plain (JObj fs).
Proof.
  intros Hord H. split; simpl.
  - rewrite Hord. simpl. apply forallb_forall. intros [k x] Hx%list_elem_of_In.
    rewrite Forall_forall in H. destruct (H _ Hx) as [Hok _]. simpl in Hok.
    by destruct x.
  - f_equal. induction H as [|[k x] l [Hok Hx] _ IH]; simpl; [done|].
    simpl in *. apply andb_true_iff in Hord as [_ Hord].
    rewrite Hx, IH by done. by destruct x.
Qed.

Lemma Forall_set_field (Q : jsval → Prop) (k : string) (v : jsval)
    (fs : list (string * jsval)) :
  Q v → Forall (λ kv, Q kv.2) fs → Forall (λ kv, Q kv.2) (set_field k v fs).
Proof.
  intros Hv Hfs. unfold set_field. destruct (has_field k fs).
  - induction Hfs as [|[k0 v0] r H0 Hr IH]; simpl; [done|].
    destruct (String.eqb k k0); constructor; done.
  - destruct (array_index k) as [i|].
    + induction Hfs as [|[k0 v0] r H0 Hr IH]; simpl; [by repeat constructor|].
      destruct (array_index k0) as [j|]; [destruct (j <? i)|];
        repeat constructor; done.
    + apply Forall_app. split; [done|]. by apply Forall_singleton.
Qed.

Lemma parsed_array (items : list jsval) :
  Forall parsed items → parsed (JArr items).
Proof.
  intros H. unfold parsed. simpl. apply plain_array. by apply Forall_map.
Qed.

Lemma parsed_object (fs : list (string * jsval)) :
  ordered_fields fs = true → Forall (λ kv, parsed kv.2) fs → parsed (JObj fs).
Proof.
  intros Hord H. unfold parsed. simpl. apply plain_object.
  - by rewrite ordered_fields_finite.
  - apply Forall_map. eapply Forall_impl; [exact H|]. by intros [k x].
Qed.

(** The parser makes parsed values. *)
Lemma parse_parsed (fuel : nat) :
  (∀ s v rest, parse_value fuel s = Some (v, rest) → parsed v) ∧
  (∀ acc s v rest, Forall parsed acc →
     parse_elements fuel acc s = Some (v, rest) → parsed v) ∧
  (∀ acc s v rest, ordered_fields acc = true → Forall (λ kv, parsed kv.2) acc →
     parse_members fuel acc s = Some (v, rest) → parsed v).
Proof.
  induction fuel as [|fuel (IHv & IHe & IHm)]; [by repeat split|].
  split; [|split].
  - intros s v rest. rewrite parse_value_S.
    destruct (starts_with "{" (skip_ws s)) as [r|].
    { destruct (starts_with "}" (skip_ws r)); [by intros [= <- _]|].
      destruct (parse_members fuel [] (skip_ws r)) as [[v' rest']|] eqn:E; [|done].
      unfold then_ws. intros [= <- _].
      eapply IHm; [| |exact E]; [reflexivity|constructor]. }
    destruct (starts_with "[" (skip_ws s)) as [r|].
    { destruct (starts_with "]" (skip_ws r)); [by intros [= <- _]|].
      destruct (parse_elements fuel [] (skip_ws r)) as [[v' rest']|] eqn:E; [|done].
      unfold then_ws. intros [= <- _].
      eapply IHe; [|exact E]. constructor. }
    destruct (parse_scalar (skip_ws s)) as [[v' rest']|] eqn:E; [|done].
    unfold then_ws. intros [= <- _]. by eapply parse_scalar_parsed.
  - intros acc s v rest Hacc. rewrite parse_elements_S.
    destruct (parse_value fuel s) as [[v1 rest1]|] eqn:Ev; [|done].
    apply IHv in Ev.
    assert (Forall parsed (acc ++ [v1])) as Hacc'.
    { apply Forall_app. split; [done|]. by apply Forall_singleton. }
    destruct (starts_with "," rest1); [by apply IHe|].
    destruct (starts_with "]" rest1); [|done].
    intros [= <- _]. by apply parsed_array.
  - intros acc s v rest Hord Hacc. rewrite parse_members_S.
    destruct (starts_with "034" (skip_ws s)) as [r|]; [|done].
    destruct (parse_string_body r) as [[k rest0]|]; [|done].
    destruct (starts_with ":" (skip_ws rest0)) as [rest'|]; [|done].
    destruct (parse_value fuel rest') as [[v1 rest1]|] eqn:Ev; [|done].
    apply IHv in Ev.
    pose proof (ordered_fields_set_field k v1 acc Hord) as Hord'.
    pose proof (Forall_set_field parsed k v1 acc Ev Hacc) as Hacc'.
    destruct (starts_with "," rest1); [by apply IHm|].
    destruct (starts_with "}" rest1); [|done].
    intros [= <- _]. by apply parsed_object.
Qed.

(** What [JSON.parse] returns is a parsed value. *)
Lemma JSON_parse_parsed (s : string) (v : jsval) :
  JSON_parse s = Returns v → parsed v.
Proof.
  unfold JSON_parse.
  destruct (parse_value _ s) as [[v' rest]|] eqn:E; [|done].
  destruct rest; [|done]. intros [= <-].
  by apply (proj1 (parse_parsed _)) in E.
Qed.

(** ** Reading back what [JSON.stringify] wrote *)

Lemma value_start_not_ws (c : ascii) :
  value_start c = true → is_json_ws c = false.
Proof.
  destruct c as [[] [] [] [] [] [] [] []]; try reflexivity;
    intros H; vm_compute in H; discriminate H.
Qed.

Lemma value_start_not_close (c : ascii) :
  value_start c = true → Ascii.eqb "]" c = false ∧ Ascii.eqb "}" c = false.
Proof.
  destruct c as [[] [] [] [] [] [] [] []]; try (split; reflexivity);
    intros H; vm_compute in H; discriminate H.
Qed.

Lemma skip_ws_start (c : ascii) (r : string) :
  value_start c = true → skip_ws (String c r) = String c r.
Proof. intros H. simpl. by rewrite (value_start_not_ws c H). Qed.

Lemma value_ends_cases (rest : string) :
  value_ends rest = true →
  rest = "" ∨ ∃ c r, rest = String c r ∧ (c = "," ∨ c = "]" ∨ c = "}")%char.
Proof.
  destruct rest as [|c r]; [by left|]. simpl. intros H. right. exists c, r.
  split; [done|].
  apply orb_true_iff in H as [H|H]; [apply orb_true_iff in H as [H|H]|];
    apply Ascii.eqb_eq in H; auto.
Qed.

Lemma value_ends_skip (rest : string) :
  value_ends rest = true → skip_ws rest = rest.
Proof.
  intros [->|(c & r & -> & [->|[->| ->]])]%value_ends_cases; reflexivity.
Qed.

Lemma value_ends_number (rest : string) :
  value_ends rest = true → number_ends rest.
Proof.
  intros [->|(c & r & -> & [->|[->| ->]])]%value_ends_cases; simpl;
    try done; repeat split; done.
Qed.

(** A number literal starts with a digit or the minus sign: with no
    character that starts another kind of value. *)
Lemma number_start_other (c : ascii) :
  c = "-"%char ∨ (∃ d, digit_of 10 c = Some d) →
  value_start c = true ∧
  Ascii.eqb "{" c = false ∧ Ascii.eqb "[" c = false ∧
  Ascii.eqb "034" c = false ∧ Ascii.eqb "t" c = false ∧
  Ascii.eqb "f" c = false ∧ Ascii.eqb "n" c = false.
Proof.
  destruct c as [[] [] [] [] [] [] [] []]; intros H;
    first [ by repeat split
          | destruct H as [H|[d H]];
            [discriminate H | vm_compute in H; discriminate H] ].
Qed.

Lemma parse_number_first (s : string) n rest :
  parse_number s = Some (n, rest) →
  ∃ c r, s = String c r ∧ (c = "-"%char ∨ ∃ d, digit_of 10 c = Some d).
Proof.
  unfold parse_number.
  destruct (number_literal s) as [[n0 rest0]|] eqn:E; [|done]. intros _.
  revert E. unfold number_literal.
  destruct (starts_with "-" s) as [r|] eqn:Hm.
  { apply starts_with_Some in Hm. intros _. exists "-"%char, r. auto. }
  destruct (scan_digits 10 s 0 0) as [[ip icnt] r1] eqn:E1.
  destruct icnt as [|icnt]; [done|]. intros _.
  destruct s as [|c r]; [simpl in E1; by inversion E1|].
  exists c, r. split; [done|]. right. simpl in E1.
  destruct (digit_of 10 c) as [d|]; [by exists d|]. by inversion E1.
Qed.

Lemma strip_prefix_cons (a b : ascii) (p s : string) :
  strip_prefix (String a p) (String b s) =
  if Ascii.eqb a b then strip_prefix p s else None.
Proof. reflexivity. Qed.

Lemma parse_value_number (fuel : nat) (s : string) n rest :
  parse_number s = Some (n, rest) → value_ends rest = true →
  parse_value (S fuel) s = Some (JNum n, rest).
Proof.
  intros Hn Hrest.
  destruct (parse_number_first s n rest Hn) as (c & r & Hs & Hc).
  destruct (number_start_other c Hc) as (Hv & H1 & H2 & H3 & H4 & H5 & H6).
  assert (skip_ws s = s) as Hws by (rewrite Hs; by apply skip_ws_start).
  assert (starts_with "{" s = None) as Ho
    by (by rewrite Hs, starts_with_cons, H1).
  assert (starts_with "[" s = None) as Ha
    by (by rewrite Hs, starts_with_cons, H2).
  assert (parse_scalar s = Some (JNum n, rest)) as Hsc.
  { unfold parse_scalar.
    assert (starts_with "034" s = None) as ->
      by (by rewrite Hs, starts_with_cons, H3).
    assert (strip_prefix "true" s = None) as ->
      by (by rewrite Hs, strip_prefix_cons, H4).
    assert (strip_prefix "false" s = None) as ->
      by (by rewrite Hs, strip_prefix_cons, H5).
    assert (strip_prefix "null" s = None) as ->
      by (by rewrite Hs, strip_prefix_cons, H6).
    by rewrite Hn. }
  rewrite parse_value_S, Hws, Ho, Ha, Hsc. simpl.
  by rewrite value_ends_skip.
Qed.

(** The text of a value starts with a character that starts a value. *)
Lemma stringify_start (v : jsval) (t : string) :
  json_ok v = true → JSON_stringify v = Some t →
  ∃ c r, t = String c r ∧ value_start c = true.
Proof.
  destruct v as [| |b|n|s|items|fields]; simpl; intros Hok Ht; try done.
  - injection Ht as <-. by eexists _, _.
  - injection Ht as <-. destruct b; by eexists _, _.
  - assert (t = number_to_string n) as -> by (destruct n; by inversion Ht).
    pose proof (number_roundtrip n "" Hok I) as Hp.
    rewrite string_app_nil_r in Hp.
    destruct (parse_number_first _ _ _ Hp) as (c & r & Hs & Hc).
    exists c, r. split; [done|]. by apply number_start_other.
  - injection Ht as <-. by eexists _, _.
  - injection Ht as <-. by eexists _, _.
  - injection Ht as <-. by eexists _, _.
Qed.

Lemma stringify_defined (v : jsval) :
  v ≠ JUndefined → ∃ t, JSON_stringify v = Some t.
Proof.
  destruct v as [| |b|n|s|items|fields]; simpl; try done; eauto.
  destruct n; eauto.
Qed.

Lemma undefined_or_not (v : jsval) : v = JUndefined ∨ v ≠ JUndefined.
Proof. destruct v; auto. Qed.

Lemma keep_defined_cons (f : jsval → jsval) (k : string) (x : jsval)
    (r : list (string * jsval)) :
  x ≠ JUndefined →
  keep_defined f ((k, x) :: r) = (k, f x) :: keep_defined f r.
Proof. by destruct x. Qed.

Lemma join_fields_cons (first : bool) (k : string) (x : jsval) (t : string)
    (r : list (string * jsval)) :
  JSON_stringify x = Some t →
  join_fields JSON_stringify first ((k, x) :: r) =
  (if first then "" else ",") +:+ quote k +:+ ":" +:+ t
  +:+ join_fields JSON_stringify false r.
Proof. intros H. simpl. by rewrite H. Qed.

Lemma skip_ws_cons (c : ascii) (r : string) :
  is_json_ws c = false → skip_ws (String c r) = String c r.
Proof. intros H. simpl. by rewrite H. Qed.

Lemma starts_with_same (c : ascii) (r : string) :
  starts_with c (String c r) = Some r.
Proof. by rewrite starts_with_cons, Ascii.eqb_refl. Qed.

Lemma char_text (c : ascii) (t : string) : String c "" +:+ t = String c t.
Proof. reflexivity. Qed.

Lemma member_text (first : bool) (k t J rest : string) :
  ((if first then "" else ",") +:+ quote k +:+ ":" +:+ t +:+ J) +:+ rest =
  (if first then "" else ",") +:+ quote k +:+ ":" +:+ t +:+ (J +:+ rest).
Proof. by rewrite !string_app_assoc. Qed.

(** The parser reads the text of [v], before a text that ends the value, as
    [v] without the properties that hold [undefined]. *)
Local Abbreviation reads_back v :=
  (∀ t rest, JSON_stringify v = Some t → value_ends rest = true →
     ∃ F : nat, ∀ fuel : nat, (F ≤ fuel)%nat →
       parse_value fuel (t +:+ rest) = Some (defined v, rest)).

Local Abbreviation item_text :=
  (λ x, match JSON_stringify x with Some t => t | None => "null" end).

Local Abbreviation field_ok :=
  (λ '(_, x), match x with JUndefined => true | _ => json_ok x end).

Local Abbreviation put :=
  (λ (a : list (string * jsval)) (kv : string * jsval), set_field kv.1 kv.2 a).

(** What [parse_members] does after the value of a member. *)
Local Abbreviation members_next fuel acc R :=
  (match starts_with "," R with
   | Some rest3 => parse_members fuel acc rest3
   | None =>
       match starts_with "}" R with
       | Some rest3 => Some (JObj acc, rest3)
       | None => None
       end
   end).

Lemma member_step (fuel : nat) (acc : list (string * jsval)) (k t R : string)
    (dv : jsval) :
  parse_value fuel (t +:+ R) = Some (dv, R) →
  parse_members (S fuel) acc (quote k +:+ ":" +:+ t +:+ R) =
  members_next fuel (set_field k dv acc) R.
Proof.
  intros Hv. rewrite parse_members_S.
  change (quote k +:+ ":" +:+ t +:+ R)
    with (String "034" (quote_body k +:+ String ":" (t +:+ R))).
  rewrite skip_ws_cons by reflexivity.
  rewrite starts_with_same, quote_body_roundtrip.
  rewrite skip_ws_cons by reflexivity.
  by rewrite starts_with_same, Hv.
Qed.

Lemma members_tail (fields : list (string * jsval)) (rest : string) :
  Forall (λ kv : string * jsval, json_ok kv.2 = true → reads_back kv.2) fields →
  forallb field_ok fields = true →
  value_ends rest = true →
  value_ends (join_fields JSON_stringify false fields +:+ rest) = true ∧
  ∀ acc, ∃ F : nat, ∀ fuel : nat, (F ≤ fuel)%nat →
    members_next fuel acc (join_fields JSON_stringify false fields +:+ rest) =
    Some (JObj (foldl put acc (keep_defined defined fields)), rest).
Proof.
  intros HF Hok Hrest. induction HF as [|[k x] r Hx _ IH].
  { split; [done|]. intros acc. exists 0%nat. by intros fuel _. }
  simpl in Hok. apply andb_true_iff in Hok as [Hokx Hokr].
  destruct (IH Hokr) as [Hends Hnext].
  destruct (undefined_or_not x) as [->|Hdef].
  { split; [exact Hends|]. intros acc. exact (Hnext acc). }
  destruct (stringify_defined x Hdef) as [t Ht].
  assert (json_ok x = true) as Hjx by (by destruct x).
  rewrite (join_fields_cons false k x t r Ht).
  rewrite (member_text false), (keep_defined_cons defined k x r Hdef), char_text.
  split; [done|]. intros acc.
  destruct (Hx Hjx t _ Ht Hends) as [F1 H1].
  destruct (Hnext (set_field k (defined x) acc)) as [F2 H2].
  exists (S (F1 + F2)). intros [|fuel] Hle; [lia|].
  rewrite starts_with_same.
  rewrite (member_step fuel acc k t _ (defined x)) by (apply H1; lia).
  apply H2. lia.
Qed.

Lemma members_head (fields : list (string * jsval)) (rest : string) :
  Forall (λ kv : string * jsval, json_ok kv.2 = true → reads_back kv.2) fields →
  forallb field_ok fields = true →
  value_ends rest = true →
  ∃ F : nat, ∀ fuel : nat, (F ≤ fuel)%nat →
    match starts_with "}"
            (skip_ws (join_fields JSON_stringify true fields +:+ rest)) with
    | Some r' => Some (JObj [], skip_ws r')
    | None =>
        then_ws (parse_members fuel []
                   (skip_ws (join_fields JSON_stringify true fields +:+ rest)))
    end = Some (JObj (foldl put [] (keep_defined defined fields)), rest).
Proof.
  intros HF Hok Hrest. induction HF as [|[k x] r Hx HF IH].
  { exists 0%nat. intros fuel _.
    change (join_fields JSON_stringify true [] +:+ rest) with (String "}" rest).
    rewrite skip_ws_cons by reflexivity.
    by rewrite starts_with_same, value_ends_skip. }
  simpl in Hok. apply andb_true_iff in Hok as [Hokx Hokr].
  destruct (undefined_or_not x) as [->|Hdef].
  { exact (IH Hokr). }
  destruct (stringify_defined x Hdef) as [t Ht].
  assert (json_ok x = true) as Hjx by (by destruct x).
  destruct (members_tail r rest HF Hokr Hrest) as [Hends Hnext].
  rewrite (join_fields_cons true k x t r Ht).
  rewrite (member_text true), (keep_defined_cons defined k x r Hdef).
  destruct (Hx Hjx t _ Ht Hends) as [F1 H1].
  destruct (Hnext (set_field k (defined x) [])) as [F2 H2].
  exists (S (F1 + F2)). intros [|fuel] Hle; [lia|].
  set (R := join_fields JSON_stringify false r +:+ rest) in *.
  change ("" +:+ quote k +:+ ":" +:+ t +:+ R)
    with (String "034" (quote_body k +:+ ":" +:+ t +:+ R)).
  rewrite skip_ws_cons by reflexivity.
  rewrite (starts_with_other "}" "034") by done.
  change (String "034" (quote_body k +:+ ":" +:+ t +:+ R))
    with (quote k +:+ ":" +:+ t +:+ R).
  rewrite (member_step fuel [] k t R (defined x)) by (apply H1; lia).
  rewrite H2 by lia. simpl. by rewrite value_ends_skip.
Qed.

Lemma join_items_start (items : list jsval) (rest : string) :
  forallb json_ok items = true → items ≠ [] →
  ∃ c r, join_items item_text items +:+ rest = String c r ∧
         value_start c = true.
Proof.
  destruct items as [|x l]; [done|]. intros Hok _.
  simpl in Hok. apply andb_true_iff in Hok as [Hokx _].
  destruct (stringify_defined x) as [t Ht]; [by destruct x|].
  destruct (stringify_start x t Hokx Ht) as (c & r & -> & Hc).
  exists c. destruct l as [|y l]; simpl; rewrite Ht; by eexists.
Qed.

Lemma elements_roundtrip (items : list jsval) (rest : string) :
  Forall (λ x, json_ok x = true → reads_back x) items →
  forallb json_ok items = true → items ≠ [] →
  ∀ acc, ∃ F : nat, ∀ fuel : nat, (F ≤ fuel)%nat →
    parse_elements fuel acc (join_items item_text items +:+ rest) =
    Some (JArr (acc ++ map defined items), rest).
Proof.
  intros HF. induction HF as [|x r Hx HF IH]; [done|].
  intros Hok _ acc. simpl in Hok. apply andb_true_iff in Hok as [Hokx Hokr].
  destruct (stringify_defined x) as [t Ht]; [by destruct x|].
  destruct r as [|y r].
  - assert (join_items item_text [x] = t +:+ "]") as ->
      by (simpl; by rewrite Ht).
    rewrite string_app_assoc.
    destruct (Hx Hokx t ("]" +:+ rest) Ht eq_refl) as [F1 H1].
    exists (S F1). intros [|fuel] Hle; [lia|].
    rewrite parse_elements_S, H1 by lia.
    rewrite char_text, (starts_with_other "," "]") by done.
    by rewrite starts_with_same.
  - assert (join_items item_text (x :: y :: r) =
            t +:+ "," +:+ join_items item_text (y :: r)) as ->
      by (simpl; by rewrite Ht).
    rewrite !string_app_assoc.
    destruct (Hx Hokx t ("," +:+ join_items item_text (y :: r) +:+ rest)
                Ht eq_refl) as [F1 H1].
    destruct (IH Hokr ltac:(done) (acc ++ [defined x])) as [F2 H2].
    exists (S (F1 + F2)). intros [|fuel] Hle; [lia|].
    rewrite parse_elements_S, H1 by lia.
    rewrite char_text, starts_with_same, H2 by lia.
    by rewrite <- app_assoc.
Qed.

(** The parser reads back what [JSON.stringify] wrote. *)
Lemma stringify_reads_back (v : jsval) : json_ok v = true → reads_back v.
Proof.
  induction v as [| |b|n|s|items IH|fields IH] using jsval_nested_ind;
    intros Hok t rest Ht Hrest.
  - done.
  - injection Ht as <-. exists 1%nat. intros [|fuel] Hle; [lia|].
    rewrite parse_value_S. simpl. by rewrite value_ends_skip.
  - injection Ht as <-. exists 1%nat. intros [|fuel] Hle; [lia|].
    rewrite parse_value_S. destruct b; simpl; by rewrite value_ends_skip.
  - simpl in Hok.
    assert (t = number_to_string n) as ->
      by (destruct n; try done; by inversion Ht).
    exists 1%nat. intros [|fuel] Hle; [lia|].
    apply parse_value_number; [|done].
    apply number_roundtrip; [done|]. by apply value_ends_number.
  - injection Ht as <-. exists 1%nat. intros [|fuel] Hle; [lia|].
    rewrite parse_value_S.
    change (quote s +:+ rest) with (String "034" (quote_body s +:+ rest)).
    rewrite skip_ws_cons by reflexivity.
    rewrite (starts_with_other "{" "034"), (starts_with_other "[" "034") by done.
    unfold parse_scalar. rewrite starts_with_same, quote_body_roundtrip.
    simpl. by rewrite value_ends_skip.
  - simpl in Hok. injection Ht as <-.
    destruct items as [|x r].
    { exists 1%nat. intros [|fuel] Hle; [lia|].
      rewrite parse_value_S. simpl. by rewrite value_ends_skip. }
    destruct (elements_roundtrip (x :: r) rest IH Hok ltac:(done) [])
      as [F HF].
    destruct (join_items_start (x :: r) rest Hok ltac:(done))
      as (c & r' & Hj & Hc).
    exists (S F). intros [|fuel] Hle; [lia|].
    rewrite parse_value_S, string_app_cons.
    rewrite skip_ws_cons by reflexivity.
    rewrite (starts_with_other "{" "[") by done. rewrite starts_with_same.
    assert (skip_ws (join_items item_text (x :: r) +:+ rest) =
            join_items item_text (x :: r) +:+ rest) as ->
      by (rewrite Hj; by apply skip_ws_start).
    assert (starts_with "]" (join_items item_text (x :: r) +:+ rest) = None)
      as ->.
    { rewrite Hj, starts_with_cons.
      by rewrite (proj1 (value_start_not_close c Hc)). }
    rewrite HF by lia. simpl. by rewrite value_ends_skip.
  - simpl in Hok. apply andb_true_iff in Hok as [Hord Hfields].
    injection Ht as <-.
    destruct (members_head fields rest IH Hfields Hrest) as [F HF].
    exists (S F). intros [|fuel] Hle; [lia|].
    rewrite parse_value_S, string_app_cons.
    rewrite skip_ws_cons by reflexivity.
    rewrite starts_with_same, HF by lia.
    simpl. rewrite foldl_set_field_ordered; [done|].
    by apply ordered_fields_keep_defined.
Qed.

(** [JSON.parse(JSON.stringify(v))] is [v] without its properties that hold
    [undefined], for a value that [JSON.stringify] writes without loss. *)
Lemma JSON_parse_stringify (v : jsval) (t : string) :
  json_ok v = true → JSON_stringify v = Some t →
  JSON_parse t = Returns (defined v).
Proof.
  intros Hok Ht.
  destruct (stringify_reads_back v Hok t "" Ht eq_refl) as [F HF].
  apply (JSON_parse_fuel F). rewrite <- (string_app_nil_r t) at 1.
  by apply HF.
Qed.

(** A value that [JSON.parse] made is read back as it is. *)
Lemma JSON_parse_stringify_plain (v : jsval) :
  plain v → JSON_parse (stringify_text v) = Returns v.
Proof.
  intros [Hok Hdef]. unfold stringify_text.
  destruct (stringify_defined v) as [t Ht]; [by destruct v|].
  rewrite Ht, (JSON_parse_stringify v t Hok Ht). by rewrite Hdef.
Qed.

(** A number that is not finite is written as [null] is. *)
Lemma JSON_stringify_finite (v : jsval) :
  JSON_stringify (finite v) = JSON_stringify v.
Proof.
  induction v as [| |b|n|s|items IH|fields IH] using jsval_nested_ind;
    try done.
  - by destruct n.
  - simpl. f_equal. f_equal.
    induction IH as [|x r Hx Hr IHr]; [done|].
    destruct Hr as [|y r' Hy Hr']; simpl in *.
    + by rewrite Hx.
    + rewrite Hx. f_equal. f_equal. exact IHr.
  - simpl. f_equal. f_equal. generalize true.
    induction IH as [|[k x] r Hx Hr IHr]; intros first; [done|].
    simpl in *. rewrite Hx. destruct (JSON_stringify x); [|apply IHr].
    by rewrite IHr.
Qed.

(** What [JSON.parse] reads from the text that [JSON.stringify] wrote for a
    value that holds numbers that are not finite. *)
Lemma JSON_parse_stringify_finite (v : jsval) (t : string) :
  json_ok (finite v) = true → JSON_stringify v = Some t →
  JSON_parse t = Returns (defined (finite v)).
Proof.
  intros Hok Ht. apply JSON_parse_stringify; [done|].
  by rewrite JSON_stringify_finite.
Qed.

End JsonFacts.
(** * Properties of the session store *)

Module SessionFacts.
Import Js Json Sessions.

Lemma lookup_replace_field_eq k v fs :
  has_field k fs = true → lookup_field k (replace_field k v fs) = v.
Proof.
  induction fs as [|[k' v'] r IH]; simpl; [done|].
  destruct (String.eqb k k') eqn:E; simpl.
  - by rewrite E.
  - rewrite E. auto.
Qed.

Lemma lookup_replace_field_ne k k' v fs :
  k ≠ k' → lookup_field k' (replace_field k v fs) = lookup_field k' fs.
Proof.
  intros Hne. induction fs as [|[k0 v0] r IH]; simpl; [done|].
  destruct (String.eqb k k0) eqn:E; simpl.
  - apply String.eqb_eq in E. subst k0.
    destruct (String.eqb k' k) eqn:E'; [|done].
    apply String.eqb_eq in E'. congruence.
  - by rewrite IH.
Qed.

Lemma lookup_insert_index_eq i k v fs :
  has_field k fs = false → lookup_field k (insert_index i k v fs) = v.
Proof.
  induction fs as [|[k' v'] r IH]; simpl.
  - by rewrite String.eqb_refl.
  - intros H. apply orb_false_iff in H as [E H].
    destruct (array_index k') as [j|]; [destruct (j <? i)|];
      simpl; rewrite ?E, ?String.eqb_refl; auto.
Qed.

Lemma lookup_insert_index_ne i k k' v fs :
  k ≠ k' → lookup_field k' (insert_index i k v fs) = lookup_field k' fs.
Proof.
  intros Hne. apply String.eqb_neq in Hne. rewrite String.eqb_sym in Hne.
  induction fs as [|[k0 v0] r IH]; simpl.
  - by rewrite Hne.
  - destruct (array_index k0) as [j|]; [destruct (j <? i)|];
      simpl; rewrite ?Hne, ?IH; done.
Qed.

Lemma lookup_field_app k fs gs :
  lookup_field k (fs ++ gs) =
  if has_field k fs then lookup_field k fs else lookup_field k gs.
Proof.
  induction fs as [|[k' v'] r IH]; simpl; [done|].
  destruct (String.eqb k k'); simpl; auto.
Qed.

Lemma lookup_field_absent k fs : has_field k fs = false → lookup_field k fs = JUndefined.
Proof.
  induction fs as [|[k' v'] r IH]; simpl; [done|].
  intros H. apply orb_false_iff in H as [-> H]. auto.
Qed.

Lemma lookup_set_field_eq k v fs : lookup_field k (set_field k v fs) = v.
Proof.
  unfold set_field. destruct (has_field k fs) eqn:H.
  - by apply lookup_replace_field_eq.
  - destruct (array_index k).
    + by apply lookup_insert_index_eq.
    + rewrite lookup_field_app, H. simpl. by rewrite String.eqb_refl.
Qed.

Lemma lookup_set_field_ne k k' v fs :
  k ≠ k' → lookup_field k' (set_field k v fs) = lookup_field k' fs.
Proof.
  intros Hne. unfold set_field. destruct (has_field k fs) eqn:H.
  - by apply lookup_replace_field_ne.
  - destruct (array_index k).
    + by apply lookup_insert_index_ne.
    + rewrite lookup_field_app. destruct (has_field k' fs) eqn:H'; [done|].
      simpl. apply String.eqb_neq in Hne. rewrite String.eqb_sym in Hne.
      rewrite Hne. by rewrite lookup_field_absent.
Qed.

Section StoreFacts.

Variable SESSION_ACCOUNT_PREFIX : string.
Variable SESSION_LEGACY_USER_KEY : string.
Variable IS_SCREEN_LOCKED_CACHE_KEY : string.
Variable DEBUG : bool.
Variable ACCOUNT_SLOT : option Z.

Local Abbreviation slot_key := (slot_key SESSION_ACCOUNT_PREFIX).
Local Abbreviation checkSessionLocked := (checkSessionLocked IS_SCREEN_LOCKED_CACHE_KEY).
Local Abbreviation loadSlotSession := (loadSlotSession SESSION_ACCOUNT_PREFIX).
Local Abbreviation hasStoredSession :=
  (hasStoredSession SESSION_ACCOUNT_PREFIX SESSION_LEGACY_USER_KEY
     IS_SCREEN_LOCKED_CACHE_KEY ACCOUNT_SLOT).
Local Abbreviation loadStoredLegacySession :=
  (loadStoredLegacySession SESSION_ACCOUNT_PREFIX SESSION_LEGACY_USER_KEY
     IS_SCREEN_LOCKED_CACHE_KEY ACCOUNT_SLOT).
Local Abbreviation loadStoredSession :=
  (loadStoredSession SESSION_ACCOUNT_PREFIX SESSION_LEGACY_USER_KEY
     IS_SCREEN_LOCKED_CACHE_KEY DEBUG ACCOUNT_SLOT).
Local Abbreviation storeSession :=
  (storeSession SESSION_ACCOUNT_PREFIX SESSION_LEGACY_USER_KEY ACCOUNT_SLOT).
Local Abbreviation storeLegacySession := (storeLegacySession SESSION_LEGACY_USER_KEY).
Local Abbreviation clearStoredSession := (clearStoredSession SESSION_ACCOUNT_PREFIX).
Local Abbreviation session_keys :=
  (session_keys SESSION_ACCOUNT_PREFIX SESSION_LEGACY_USER_KEY
     IS_SCREEN_LOCKED_CACHE_KEY ACCOUNT_SLOT).

Lemma checkSessionLocked_true (st : storage) :
  checkSessionLocked st = true ↔ st !! IS_SCREEN_LOCKED_CACHE_KEY = Some "true".
Proof. unfold Sessions.checkSessionLocked, getItem. apply bool_decide_eq_true. Qed.

(** C4.  When the lock key holds the text [true], [hasStoredSession] returns
    [true], whatever the slot key and the legacy keys hold. *)
Theorem hasStoredSession_locked (st : storage) :
  st !! IS_SCREEN_LOCKED_CACHE_KEY = Some "true" →
  hasStoredSession st = Returns true.
Proof.
  intros H. apply checkSessionLocked_true in H.
  unfold Sessions.hasStoredSession. by rewrite H.
Qed.

(** A slot whose text does not parse has no slot data. *)
Lemma loadSlotSession_corrupt (st : storage) slot text :
  st !! slot_key slot = Some text →
  JSON_parse text = Throws SyntaxError →
  loadSlotSession st slot = JUndefined.
Proof.
  intros Hk Hp. unfold Sessions.loadSlotSession, getItem. rewrite Hk. simpl.
  destruct (String.eqb text "") eqn:E.
  - apply String.eqb_eq in E. subst text. done.
  - by rewrite Hp.
Qed.

(** A slot that holds no text has no slot data. *)
Lemma loadSlotSession_absent (st : storage) slot :
  st !! slot_key slot = None → loadSlotSession st slot = JUndefined.
Proof.
  intros Hk. unfold Sessions.loadSlotSession, getItem. by rewrite Hk.
Qed.

(** Slot data, when there is some, is an object with a truthy [dcId]. *)
Lemma loadSlotSession_data (st : storage) slot :
  loadSlotSession st slot = JUndefined ∨
  ∃ fs, loadSlotSession st slot = JObj fs ∧ truthy (lookup_field "dcId" fs) = true.
Proof.
  unfold Sessions.loadSlotSession.
  destruct (JSON_parse _) as [data|e]; simpl; [|by left].
  destruct data; simpl; try by left.
  destruct (truthy (lookup_field "dcId" fields)) eqn:E; simpl; [|by left].
  right. eauto.
Qed.

(** Without slot data, [hasStoredSession] throws nothing. *)
Lemma hasStoredSession_returns (st : storage) :
  ∃ b, hasStoredSession st = Returns b.
Proof.
  unfold Sessions.hasStoredSession.
  destruct (checkSessionLocked st); [by eauto|].
  destruct (loadSlotSession_data st ACCOUNT_SLOT) as [->|(fs & -> & Hd)]; simpl.
  - destruct (negb _); [|by eauto].
    destruct (getItem _ _); [|by eauto].
    destruct (negb _); by eauto.
  - by eauto.
Qed.

(** Without [DEBUG] the log statements of [loadStoredSession] are skipped. *)
Lemma loadStoredSession_quiet (st : storage) :
  DEBUG = false →
  loadStoredSession st =
  bind (hasStoredSession st) (fun has =>
  if negb has then Returns None
  else
    let slotData := loadSlotSession st ACCOUNT_SLOT in
    if negb (truthy slotData) then
      if truthy (slot_val ACCOUNT_SLOT) then Returns None
      else loadStoredLegacySession st
    else
      bind (get_prop slotData "dcId") (fun dcId =>
      bind (slot_keys slotData) (fun keys =>
      bind (get_prop slotData "isTest") (fun isTest =>
      Returns (Some {| mainDcId := dcId;
                       keys := keys;
                       isTest := js_or isTest JUndefined;
                       isLocalStorage := JUndefined;
                       initConnectionParams := JUndefined;
                       apiId := JUndefined;
                       apiHash := JUndefined |}))))).
Proof. intros Hq. unfold Sessions.loadStoredSession. by rewrite Hq. Qed.

(** With [DEBUG] they throw. *)
Lemma loadStoredSession_debug (st : storage) :
  DEBUG = true → loadStoredSession st = Throws ReferenceError.
Proof.
  intros Hd. unfold Sessions.loadStoredSession. rewrite Hd.
  destruct (hasStoredSession_returns st) as [b ->]. reflexivity.
Qed.

Lemma loadStoredSession_no_slot_data (st : storage) :
  DEBUG = false →
  loadSlotSession st ACCOUNT_SLOT = JUndefined →
  loadStoredSession st =
  if truthy (slot_val ACCOUNT_SLOT) then Returns None
  else loadStoredLegacySession st.
Proof.
  intros Hq Hs. rewrite loadStoredSession_quiet by done. rewrite Hs. simpl.
  unfold Sessions.loadStoredLegacySession.
  destruct (hasStoredSession_returns st) as [b ->]. simpl.
  destruct b; simpl; [done|]. by destruct (truthy _).
Qed.

Lemma hasStoredSession_no_slot_data (st : storage) :
  checkSessionLocked st = false →
  loadSlotSession st ACCOUNT_SLOT = JUndefined →
  truthy (slot_val ACCOUNT_SLOT) = true ∨ st !! SESSION_LEGACY_USER_KEY = None →
  hasStoredSession st = Returns false.
Proof.
  intros Hl Hs Hc. unfold Sessions.hasStoredSession. rewrite Hl, Hs. simpl.
  destruct Hc as [->| Hn]; [done|].
  unfold getItem. rewrite Hn. by destruct (negb _).
Qed.

Lemma loadStoredLegacySession_no_user (st : storage) :
  st !! SESSION_LEGACY_USER_KEY = None →
  loadStoredLegacySession st = Returns None.
Proof.
  intros Hn. unfold Sessions.loadStoredLegacySession.
  destruct (hasStoredSession_returns st) as [b ->]. simpl.
  destruct b; simpl; [|done].
  unfold getItem. rewrite Hn. reflexivity.
Qed.

(** C5, as amended.  When the text under the slot key is not valid JSON,
    [loadSlotSession] returns [undefined] and throws nothing;
    [loadStoredSession], in a build that does not log, then returns
    [undefined] for an account slot other than zero, and for slot zero it
    returns what the legacy fallback returns, which is [undefined] when no
    legacy user key is stored. *)
Theorem corrupt_slot_is_no_slot_data (st : storage) text :
  DEBUG = false →
  st !! slot_key ACCOUNT_SLOT = Some text →
  JSON_parse text = Throws SyntaxError →
  loadSlotSession st ACCOUNT_SLOT = JUndefined ∧
  (truthy (slot_val ACCOUNT_SLOT) = true → loadStoredSession st = Returns None) ∧
  (truthy (slot_val ACCOUNT_SLOT) = false →
     loadStoredSession st = loadStoredLegacySession st ∧
     (st !! SESSION_LEGACY_USER_KEY = None → loadStoredSession st = Returns None)).
Proof.
  intros Hq Hk Hp.
  pose proof (loadSlotSession_corrupt st _ _ Hk Hp) as Hs.
  pose proof (loadStoredSession_no_slot_data st Hq Hs) as Hl.
  split; [done|]. split.
  - intros Ht. by rewrite Hl, Ht.
  - intros Ht. rewrite Ht in Hl. split; [done|].
    intros Hn. rewrite Hl. by apply loadStoredLegacySession_no_user.
Qed.

(** C9.  A slot whose text parses to a value without a [dcId] has no
    session: [loadSlotSession] returns [undefined], and [hasStoredSession]
    returns [false] when the lock flag is not set and the legacy fallback
    does not apply (the account slot is not zero, or no legacy user key is
    stored). *)
Theorem slot_without_dcId_is_no_session (st : storage) text data :
  st !! slot_key ACCOUNT_SLOT = Some text →
  JSON_parse text = Returns data →
  get_prop_opt data "dcId" = JUndefined →
  loadSlotSession st ACCOUNT_SLOT = JUndefined ∧
  (checkSessionLocked st = false →
   truthy (slot_val ACCOUNT_SLOT) = true ∨ st !! SESSION_LEGACY_USER_KEY = None →
   hasStoredSession st = Returns false).
Proof.
  intros Hk Hp Hd.
  assert (loadSlotSession st ACCOUNT_SLOT = JUndefined) as Hs.
  { unfold Sessions.loadSlotSession, getItem. rewrite Hk. simpl.
    destruct (String.eqb text "") eqn:E.
    { apply String.eqb_eq in E. subst text. done. }
    rewrite Hp. simpl. destruct data; simpl in *; try done. by rewrite Hd. }
  split; [done|]. intros Hl Hc. by apply hasStoredSession_no_slot_data.
Qed.

(** Clearing a slot leaves it without slot data and does not set the lock. *)
Lemma clearStoredSession_slot (st : storage) slot :
  loadSlotSession (clearStoredSession slot st) slot = JUndefined.
Proof.
  apply loadSlotSession_absent. unfold Sessions.clearStoredSession, removeItem.
  apply lookup_delete_eq.
Qed.

Lemma clearStoredSession_lookup (st : storage) slot k :
  clearStoredSession slot st !! k = None ∨
  clearStoredSession slot st !! k = st !! k.
Proof.
  unfold Sessions.clearStoredSession, removeItem, clearStoredLegacySession.
  assert (∀ m : storage, delete (slot_key slot) m !! k = None ∨
                         delete (slot_key slot) m !! k = m !! k) as H.
  { intros m. destruct (decide (slot_key slot = k)) as [->|Hne].
    - left. apply lookup_delete_eq.
    - right. by apply lookup_delete_ne. }
  destruct (negb _); apply H.
Qed.

Lemma clearStoredSession_unlocked (st : storage) slot :
  checkSessionLocked st = false →
  checkSessionLocked (clearStoredSession slot st) = false.
Proof.
  intros Hl. apply not_true_is_false. intros Ht.
  apply checkSessionLocked_true in Ht.
  destruct (clearStoredSession_lookup st slot IS_SCREEN_LOCKED_CACHE_KEY) as [H|H];
    rewrite H in Ht; [done|].
  apply checkSessionLocked_true in Ht. congruence.
Qed.

(** C8, as amended.  With the lock flag not set, clearing the slot of the
    account removes its slot data ([loadSlotSession] yields [undefined]);
    [hasStoredSession] then returns [false] and [loadStoredSession], in a
    build that does not log, yields [undefined] when the slot is not zero, or
    when no legacy user key is stored.  (The legacy keys are left as they
    are.) *)
Theorem clearStoredSession_removes_slot_session (st : storage) :
  DEBUG = false →
  checkSessionLocked st = false →
  let st' := clearStoredSession ACCOUNT_SLOT st in
  loadSlotSession st' ACCOUNT_SLOT = JUndefined ∧
  (∀ k, k ≠ slot_key ACCOUNT_SLOT → st' !! k = st !! k) ∧
  (truthy (slot_val ACCOUNT_SLOT) = true ∨ st !! SESSION_LEGACY_USER_KEY = None →
   hasStoredSession st' = Returns false ∧ loadStoredSession st' = Returns None).
Proof.
  intros Hq Hl st'.
  pose proof (clearStoredSession_slot st ACCOUNT_SLOT) as Hs. fold st' in Hs.
  split; [done|]. split.
  { intros k Hne. unfold st', Sessions.clearStoredSession, removeItem,
      clearStoredLegacySession.
    destruct (negb _); by apply lookup_delete_ne. }
  intros Hc.
  assert (truthy (slot_val ACCOUNT_SLOT) = true ∨
          st' !! SESSION_LEGACY_USER_KEY = None) as Hc'.
  { destruct Hc as [?|Hn]; [by left|right].
    destruct (clearStoredSession_lookup st ACCOUNT_SLOT SESSION_LEGACY_USER_KEY)
      as [H|H]; [done|]. unfold st'. by rewrite H. }
  split.
  - apply hasStoredSession_no_slot_data; [|done|done].
    by apply clearStoredSession_unlocked.
  - rewrite (loadStoredSession_no_slot_data st' Hq Hs).
    destruct Hc' as [->|Hn]; [done|].
    destruct (truthy _); [done|]. by apply loadStoredLegacySession_no_user.
Qed.

Lemma string_app_cancel_r (s1 s2 t : string) : s1 +:+ t = s2 +:+ t → s1 = s2.
Proof.
  revert s2. induction s1 as [|c s1 IH]; intros [|c' s2] H; simpl in H.
  - done.
  - apply (f_equal String.length) in H. simpl in H.
    rewrite JsonFacts.string_length_app in H. lia.
  - apply (f_equal String.length) in H. simpl in H.
    rewrite JsonFacts.string_length_app in H. lia.
  - injection H as -> H. f_equal. auto.
Qed.

Lemma auth_key_name_eq (d1 d2 : number) :
  auth_key_name d1 = auth_key_name d2 → number_to_string d1 = number_to_string d2.
Proof.
  unfold auth_key_name. intros H. simpl in H.
  injection H as H. by apply string_app_cancel_r in H.
Qed.

Lemma auth_key_name_length (d : number) : (11 ≤ String.length (auth_key_name d))%nat.
Proof.
  unfold auth_key_name. rewrite !JsonFacts.string_length_app. simpl. lia.
Qed.

Lemma auth_key_name_not (d : number) (k : string) :
  (String.length k < 11)%nat → auth_key_name d ≠ k.
Proof. intros Hk <-. pose proof (auth_key_name_length d). lia. Qed.

(** What a sequence of [setItem] leaves alone. *)
Lemma foldl_setItem_other (name text : number → string) (l : list number)
    (st : storage) (k : string) :
  k ∉ name <$> l →
  foldl (λ acc d, setItem (name d) (text d) acc) st l !! k = st !! k.
Proof.
  revert st. induction l as [|d l IH]; intros st Hk; simpl; [done|].
  rewrite fmap_cons, not_elem_of_cons in Hk. destruct Hk as [Hd Hk].
  rewrite IH by done. unfold setItem. by rewrite lookup_insert_ne.
Qed.


(** The properties that the loop over the incoming keys leaves alone. *)
Lemma foldl_set_field_other (keys : list (string * jsval)) (l : list number)
    (base : list (string * jsval)) (k : string) :
  (∀ d, d ∈ l → k ≠ auth_key_name d) →
  lookup_field k
    (foldl (λ acc d, set_field (auth_key_name d) (key_of keys d) acc) base l)
  = lookup_field k base.
Proof.
  revert base. induction l as [|d l IH]; intros base Hk; simpl; [done|].
  rewrite IH by (intros; apply Hk; by right).
  apply lookup_set_field_ne. intros E. eapply Hk; [by left|done].
Qed.

(** The properties that the loop over the incoming keys writes. *)
Lemma foldl_set_field_written (keys : list (string * jsval)) (l : list number)
    (base : list (string * jsval)) (d : number) :
  d ∈ l →
  lookup_field (auth_key_name d)
    (foldl (λ acc d, set_field (auth_key_name d) (key_of keys d) acc) base l)
  = key_of keys d.
Proof.
  revert base. induction l as [|d' l IH] using rev_ind; intros base Hd.
  { by apply elem_of_nil in Hd. }
  rewrite foldl_app. simpl.
  destruct (decide (auth_key_name d' = auth_key_name d)) as [E|Hne].
  - rewrite E, lookup_set_field_eq. unfold key_of.
    by rewrite (auth_key_name_eq _ _ E).
  - rewrite lookup_set_field_ne by done.
    apply elem_of_app in Hd as [Hd|Hd]; [by apply IH|].
    apply list_elem_of_singleton in Hd. by subst.
Qed.


(** *** The legacy path and the slotted path *)

Lemma with_entourage_same (st : storage) (r : ApiSessionData) :
  same_session r (with_entourage st r).
Proof.
  unfold with_entourage, same_session.
  destruct (JSON_parse _) as [e|]; simpl; [|done].
  by destruct (truthy _).
Qed.

Lemma legacy_keys_object (st : storage) :
  legacy_keys st = keys_object (legacy_key st <$> DC_IDS).
Proof.
  unfold legacy_keys, keys_object, legacy_key, DC_IDS.
  cbn [foldl fmap list_fmap zip zip_with].
  repeat match goal with
  | |- context [getItem st ?k] => destruct (getItem st k) as [?key|]
  end;
  repeat match goal with
  | |- context [JSON_parse ?key] => destruct (JSON_parse key) as [?v|?e]
  end;
  reflexivity.
Qed.

Lemma loadSlotSession_parsed (st : storage) slot text fs :
  st !! slot_key slot = Some text →
  JSON_parse text = Returns (JObj fs) →
  truthy (lookup_field "dcId" fs) = true →
  loadSlotSession st slot = JObj fs.
Proof.
  intros Hk Hp Hd. unfold Sessions.loadSlotSession, getItem. rewrite Hk. simpl.
  destruct (String.eqb text "") eqn:E.
  { apply String.eqb_eq in E. subst text. done. }
  rewrite Hp. simpl. by rewrite Hd.
Qed.

Lemma hasStoredSession_slot_data (st : storage) fs :
  loadSlotSession st ACCOUNT_SLOT = JObj fs →
  truthy (lookup_field "dcId" fs) = true →
  hasStoredSession st = Returns true.
Proof.
  intros Hs Hd. unfold Sessions.hasStoredSession.
  destruct (checkSessionLocked st); [done|].
  rewrite Hs. simpl. by rewrite Hd.
Qed.

(** The keys that the slotted path reads: for each data center the auth key
    of the slot data, when it is truthy. *)
Lemma slot_keys_lookup (fs : list (string * jsval)) :
  slot_keys (JObj fs) =
  Returns (keys_object
    ((λ d, let key := lookup_field (auth_key_name (NInt d)) fs in
           if truthy key then Some key else None) <$> DC_IDS)).
Proof.
  unfold slot_keys, DC_IDS. cbn [foldl get_prop bind fmap list_fmap].
  change (auth_key_name (NInt 1)) with "dc1_auth_key".
  change (auth_key_name (NInt 2)) with "dc2_auth_key".
  change (auth_key_name (NInt 3)) with "dc3_auth_key".
  change (auth_key_name (NInt 4)) with "dc4_auth_key".
  change (auth_key_name (NInt 5)) with "dc5_auth_key".
  destruct (truthy (lookup_field "dc1_auth_key" fs)),
    (truthy (lookup_field "dc2_auth_key" fs)),
    (truthy (lookup_field "dc3_auth_key" fs)),
    (truthy (lookup_field "dc4_auth_key" fs)),
    (truthy (lookup_field "dc5_auth_key" fs)); reflexivity.
Qed.

(** What holds of the keys of [keys_object] holds of the keys found. *)
Lemma keys_object_Forall (Q : jsval → Prop) (found : list (option jsval)) :
  length found = 5%nat →
  Forall (λ kv, Q kv.2) (keys_object found) →
  Forall (λ o, ∀ v, o = Some v → Q v) found.
Proof.
  intros Hlen HQ.
  destruct found as [|o1 [|o2 [|o3 [|o4 [|o5 [|]]]]]]; try done.
  destruct o1, o2, o3, o4, o5; cbn in HQ;
    repeat match goal with
    | H : Forall _ (_ :: _) |- _ => apply Forall_cons in H as [? H]
    end;
    repeat (constructor; [intros ? [= <-] || intros ? [=]; done|]);
    constructor.
Qed.

(** The connection parameters leave the other properties of the result as
    they are. *)
Lemma with_entourage_fields (st : storage) (r : ApiSessionData) :
  mainDcId (with_entourage st r) = mainDcId r ∧
  keys (with_entourage st r) = keys r ∧
  isTest (with_entourage st r) = isTest r ∧
  isLocalStorage (with_entourage st r) = isLocalStorage r.
Proof.
  unfold with_entourage.
  destruct (JSON_parse _) as [e|]; simpl; [|done].
  by destruct (truthy _).
Qed.

(** The result of a load depends on the items under [session_keys] only. *)
Lemma loadStoredSession_reads (st st2 : storage) :
  (∀ k, k ∈ session_keys → st2 !! k = st !! k) →
  loadStoredSession st2 = loadStoredSession st.
Proof.
  intros Hsame.
  assert (∀ k, k ∈ session_keys → getItem st2 k = getItem st k) as Hget
    by exact Hsame.
  assert (checkSessionLocked st2 = checkSessionLocked st) as Hlock.
  { unfold checkSessionLocked. rewrite Hget; [done|]. set_solver. }
  assert (loadSlotSession st2 ACCOUNT_SLOT = loadSlotSession st ACCOUNT_SLOT)
    as Hslot.
  { unfold Sessions.loadSlotSession. rewrite Hget; [done|]. set_solver. }
  assert (getItem st2 SESSION_LEGACY_USER_KEY = getItem st SESSION_LEGACY_USER_KEY)
    as Huser by (apply Hget; set_solver).
  assert (hasStoredSession st2 = hasStoredSession st) as Hhas.
  { unfold Sessions.hasStoredSession. by rewrite Hlock, Hslot, Huser. }
  assert (legacy_keys st2 = legacy_keys st) as Hkeys.
  { unfold legacy_keys, DC_IDS. cbn [foldl].
    rewrite !Hget; [done|unfold session_keys, DC_IDS; set_solver..]. }
  assert (∀ r, with_entourage st2 r = with_entourage st r) as Hent.
  { intros r. unfold with_entourage. rewrite Hget; [done|set_solver]. }
  assert (loadStoredLegacySession st2 = loadStoredLegacySession st) as Hleg.
  { unfold Sessions.loadStoredLegacySession.
    rewrite Hhas, Huser, Hkeys.
    destruct (hasStoredSession st) as [has|]; simpl; [|done].
    destruct (negb has); [done|].
    destruct (JSON_parse _) as [userAuth|]; simpl; [|done].
    destruct (negb (truthy userAuth)); [done|].
    destruct (get_prop userAuth "dcID") as [dcID|]; simpl; [|done].
    destruct (get_prop userAuth "test") as [test|]; simpl; [|done].
    destruct (_ =? _)%nat; [done|]. by rewrite Hent. }
  unfold Sessions.loadStoredSession. by rewrite Hhas, Hslot, Hleg.
Qed.

(** The legacy path on a store without slot data, at account slot zero, whose
    legacy user has an id and a data center. *)
Lemma loadStoredLegacySession_user (st : storage) (userText : string)
    (userAuth : jsval) :
  truthy (slot_val ACCOUNT_SLOT) = false →
  loadSlotSession st ACCOUNT_SLOT = JUndefined →
  st !! SESSION_LEGACY_USER_KEY = Some userText →
  JSON_parse userText = Returns userAuth →
  truthy (get_prop_opt userAuth "id") = true →
  truthy (get_prop_opt userAuth "dcID") = true →
  loadStoredLegacySession st =
  if (length (object_keys (legacy_keys st)) =? 0)%nat then Returns None
  else
    Returns (Some (with_entourage st
      {| mainDcId := JNum (to_number (get_prop_opt userAuth "dcID"));
         keys := legacy_keys st;
         isTest := get_prop_opt userAuth "test";
         isLocalStorage := JBool false;
         initConnectionParams := JUndefined;
         apiId := JUndefined;
         apiHash := JUndefined |})).
Proof.
  intros Hslot Hnone Huser Hparse Hid Hdc.
  assert (userText ≠ "") as Htext by (intros ->; done).
  assert (String.eqb userText "" = false) as Hne by (by apply String.eqb_neq).
  destruct userAuth as [| |b|n|s|items|fields]; try done.
  assert (hasStoredSession st = Returns true) as Hhas.
  { unfold Sessions.hasStoredSession.
    destruct (checkSessionLocked st); [done|].
    rewrite Hnone, Hslot. cbn [truthy negb]. unfold getItem. rewrite Huser, Hne.
    cbn [negb]. rewrite Hparse. unfold legacy_auth_test.
    cbn [truthy bind get_prop try_catch]. simpl in Hid, Hdc.
    rewrite Hid. cbn [bind try_catch]. by rewrite Hdc. }
  unfold Sessions.loadStoredLegacySession. rewrite Hhas. cbn [bind negb].
  unfold item_or, getItem. rewrite Huser, Hne, Hparse. reflexivity.
Qed.


(** ** Saving into the slot, and reading the slot back *)

Lemma truthy_defined (v : jsval) : truthy (defined v) = truthy v.
Proof. by destruct v. Qed.

Lemma keep_defined_length (f : jsval → jsval) (fs : list (string * jsval)) :
  (length (keep_defined f fs) ≤ length fs)%nat.
Proof.
  induction fs as [|[k v] r IH]; simpl; [done|]. destruct v; simpl; lia.
Qed.

Lemma keep_defined_fixed (f : jsval → jsval) (fs : list (string * jsval)) :
  keep_defined f fs = fs →
  Forall (λ kv, kv.2 ≠ JUndefined ∧ f kv.2 = kv.2) fs.
Proof.
  induction fs as [|[k v] r IH]; [constructor|]. intros H.
  destruct (JsonFacts.undefined_or_not v) as [->|Hv].
  - exfalso. pose proof (keep_defined_length f r) as Hl.
    change (keep_defined f ((k, JUndefined) :: r)) with (keep_defined f r) in H.
    rewrite H in Hl. simpl in Hl. lia.
  - rewrite JsonFacts.keep_defined_cons in H by done.
    injection H as Hv' Hr. constructor; [done|auto].
Qed.

(** The properties of a plain object hold plain values. *)
Lemma plain_fields (fs : list (string * jsval)) :
  plain (JObj fs) →
  ordered_fields fs = true ∧ Forall (λ kv, plain kv.2) fs.
Proof.
  intros [Hok Hdef]. simpl in Hok, Hdef.
  apply andb_true_iff in Hok as [Hord Hall]. split; [done|].
  injection Hdef as Hdef. apply keep_defined_fixed in Hdef.
  rewrite forallb_forall in Hall. rewrite Forall_forall in Hdef.
  apply Forall_forall. intros [k v] Hin.
  destruct (Hdef _ Hin) as [Hv Hd]. simpl in Hv, Hd.
  specialize (Hall _ (proj1 (list_elem_of_In _ _) Hin)). simpl in Hall.
  split; [|done]. by destruct v.
Qed.

Lemma plain_storable (v : jsval) : plain v → storable v = true.
Proof. intros [Hok _]. by destruct v. Qed.

(** The properties of a parsed object hold parsed values. *)
Lemma parsed_fields (fs : list (string * jsval)) :
  parsed (JObj fs) →
  ordered_fields fs = true ∧ Forall (λ kv, parsed kv.2) fs.
Proof.
  unfold parsed. simpl. intros [Hord H]%plain_fields.
  rewrite JsonFacts.ordered_fields_finite in Hord. split; [done|].
  clear Hord. induction fs as [|[k x] r IH]; [constructor|].
  simpl in H. apply Forall_cons in H as [Hx Hr]. constructor; auto.
Qed.

(** A value that JSON text holds without loss holds no infinity. *)
Lemma finite_storable (v : jsval) : storable v = true → finite v = v.
Proof.
  destruct (JsonFacts.undefined_or_not v) as [->|Hv]; [done|].
  intros H. assert (json_ok v = true) as Hok by (by destruct v).
  by apply JsonFacts.json_ok_finite.
Qed.

Lemma storable_finite (v : jsval) : storable v = true → storable (finite v) = true.
Proof. intros H. by rewrite finite_storable. Qed.

Lemma parsed_finite (v : jsval) : parsed v → defined (finite v) = finite v.
Proof. by intros [_ ?]. Qed.

Lemma lookup_field_Forall (Q : jsval → Prop) (k : string)
    (fs : list (string * jsval)) :
  Q JUndefined → Forall (λ kv, Q kv.2) fs → Q (lookup_field k fs).
Proof.
  intros HU HF. induction HF as [|[k0 v0] r H0 _ IH]; simpl; [done|].
  by destruct (String.eqb k k0).
Qed.

Lemma json_ok_object (fs : list (string * jsval)) :
  ordered_fields fs = true → Forall (λ kv, storable kv.2 = true) fs →
  json_ok (JObj fs) = true.
Proof.
  intros Hord HF. simpl. rewrite Hord. simpl.
  induction HF as [|[k v] r Hv _ IH]; simpl; [done|].
  simpl in Hv. unfold storable in Hv. rewrite Hv. simpl.
  apply IH. rewrite JsonFacts.ordered_fields_cons in Hord.
  by apply andb_true_iff in Hord as [_ ?].
Qed.

Lemma lookup_keep_defined (k : string) (fs : list (string * jsval)) :
  ordered_fields fs = true →
  lookup_field k (keep_defined defined fs) = defined (lookup_field k fs).
Proof.
  induction fs as [|[k0 v0] r IH]; [done|].
  rewrite JsonFacts.ordered_fields_cons.
  intros [[Hno _]%andb_true_iff Hr]%andb_true_iff.
  apply negb_true_iff in Hno.
  destruct (JsonFacts.undefined_or_not v0) as [->|Hv].
  - change (keep_defined defined ((k0, JUndefined) :: r))
      with (keep_defined defined r).
    simpl. destruct (String.eqb k k0) eqn:E; [|by apply IH].
    apply String.eqb_eq in E. subst k0.
    apply lookup_field_absent. by apply JsonFacts.has_field_keep_defined.
  - rewrite JsonFacts.keep_defined_cons by done. simpl.
    destruct (String.eqb k k0); [done|by apply IH].
Qed.

(** What the properties of the object read back hold. *)
Lemma lookup_read_back (k : string) (fs : list (string * jsval)) :
  ordered_fields fs = true →
  get_prop_opt (defined (finite (JObj fs))) k
  = defined (finite (lookup_field k fs)).
Proof.
  intros Hord. simpl.
  rewrite lookup_keep_defined by (by rewrite JsonFacts.ordered_fields_finite).
  by rewrite JsonFacts.lookup_field_finite.
Qed.

(** The slot data that [loadSlotSession] returns is a parsed object. *)
Lemma loadSlotSession_read (st : storage) slot (fs : list (string * jsval)) :
  loadSlotSession st slot = JObj fs → parsed (JObj fs).
Proof.
  unfold Sessions.loadSlotSession.
  destruct (JSON_parse _) as [data|e] eqn:Hp; simpl; [|done].
  apply JsonFacts.JSON_parse_parsed in Hp.
  destruct (get_prop data "dcId") as [dcId|e]; simpl; [|done].
  destruct (truthy dcId); simpl; [|done]. by intros ->.
Qed.

(** The object that a save builds is in property order, and holds values
    that the slot text holds without loss, but for the infinities of the
    slot data, when the incoming session does. *)
Lemma newSlotData_ok (sessionData : ApiSessionData)
    (current : list (string * jsval)) :
  parsed (JObj current) → storable_session sessionData →
  json_ok (finite (JObj (newSlotData (JObj current) sessionData))) = true.
Proof.
  intros [Hord Hcur]%parsed_fields (Hdc & _ & Htest & Hkeys).
  assert (storable (mainDcId sessionData) = true) as Hdc'
    by (by destruct (mainDcId sessionData)).
  cbn [finite]. apply json_ok_object.
  { rewrite JsonFacts.ordered_fields_finite. unfold newSlotData. simpl spread.
    generalize (key_dc_ids (keys sessionData)). intros l.
    assert (ordered_fields
              (set_field "isTest" (isTest sessionData)
                 (set_field "dcId" (mainDcId sessionData) current)) = true)
      as Hb by (by do 2 apply JsonFacts.ordered_fields_set_field).
    revert Hb. generalize (set_field "isTest" (isTest sessionData)
                 (set_field "dcId" (mainDcId sessionData) current)).
    induction l as [|d l IH]; intros base Hb; [done|].
    simpl. apply IH. by apply JsonFacts.ordered_fields_set_field. }
  apply Forall_map.
  assert (Forall (λ kv, storable (finite kv.2) = true)
            (newSlotData (JObj current) sessionData)) as H.
  { unfold newSlotData. simpl spread.
    set (base := set_field "isTest" _ _).
    assert (Forall (λ kv, storable (finite kv.2) = true) base) as Hb2.
    { do 2 (apply (JsonFacts.Forall_set_field
                     (λ v, storable (finite v) = true));
            [by apply storable_finite|]).
      eapply Forall_impl; [exact Hcur|]. intros kv. apply plain_storable. }
    clearbody base. revert base Hb2.
    induction (key_dc_ids (keys sessionData)) as [|d l IH]; intros base Hb2.
    { done. }
    simpl. apply IH.
    apply (JsonFacts.Forall_set_field (λ v, storable (finite v) = true));
      [|done].
    unfold key_of.
    apply (lookup_field_Forall (λ v, storable (finite v) = true)); [done|].
    eapply Forall_impl; [exact Hkeys|]. intros kv. apply storable_finite. }
  eapply Forall_impl; [exact H|]. by intros [k x].
Qed.

(** What the properties of the object that a save builds hold. *)
Lemma newSlotData_lookup (sessionData : ApiSessionData)
    (current : list (string * jsval)) :
  let written := newSlotData (JObj current) sessionData in
  lookup_field "userId" written = lookup_field "userId" current ∧
  (∀ k, k ≠ "dcId" → k ≠ "isTest" →
        (∀ dcId, dcId ∈ key_dc_ids (keys sessionData) → k ≠ auth_key_name dcId) →
        lookup_field k written = lookup_field k current) ∧
  lookup_field "dcId" written = mainDcId sessionData ∧
  lookup_field "isTest" written = isTest sessionData ∧
  (∀ dcId, dcId ∈ key_dc_ids (keys sessionData) →
           lookup_field (auth_key_name dcId) written
           = key_of (keys sessionData) dcId).
Proof.
  intros written.
  assert (∀ k, (∀ dcId, dcId ∈ key_dc_ids (keys sessionData) →
                        k ≠ auth_key_name dcId) →
               lookup_field k written
               = lookup_field k
                   (set_field "isTest" (isTest sessionData)
                      (set_field "dcId" (mainDcId sessionData) current)))
    as Hother.
  { intros k Hk. unfold written, newSlotData. by rewrite foldl_set_field_other. }
  assert (∀ k d, (String.length k < 11)%nat → k ≠ auth_key_name d) as Hshort.
  { intros k d Hlen E. by apply (auth_key_name_not d k). }
  split; [|split; [|split; [|split]]].
  - rewrite Hother by (intros; apply Hshort; simpl; lia).
    by rewrite !lookup_set_field_ne.
  - intros k Hd Ht Hk. rewrite Hother by done.
    by rewrite !lookup_set_field_ne.
  - rewrite Hother by (intros; apply Hshort; simpl; lia).
    rewrite lookup_set_field_ne by done. apply lookup_set_field_eq.
  - rewrite Hother by (intros; apply Hshort; simpl; lia).
    apply lookup_set_field_eq.
  - intros d Hd. unfold written, newSlotData.
    by apply foldl_set_field_written.
Qed.

Lemma storeSession_slot_text (sessionData : ApiSessionData) (st : storage) :
  storeSession sessionData st !! slot_key ACCOUNT_SLOT =
  Some (stringify_text
          (JObj (newSlotData (loadSlotSession st ACCOUNT_SLOT) sessionData))).
Proof.
  unfold Sessions.storeSession, writeSlotSession, setItem.
  apply lookup_insert_eq.
Qed.

(** The object that a save builds is in property order. *)
Lemma newSlotData_ordered (sessionData : ApiSessionData)
    (current : list (string * jsval)) :
  ordered_fields current = true →
  ordered_fields (newSlotData (JObj current) sessionData) = true.
Proof.
  intros Hord. unfold newSlotData. simpl spread.
  assert (ordered_fields
            (set_field "isTest" (isTest sessionData)
               (set_field "dcId" (mainDcId sessionData) current)) = true)
    as Hb by (by do 2 apply JsonFacts.ordered_fields_set_field).
  revert Hb. generalize (set_field "isTest" (isTest sessionData)
               (set_field "dcId" (mainDcId sessionData) current)).
  induction (key_dc_ids (keys sessionData)) as [|d l IH]; intros base Hb;
    [done|].
  simpl. apply IH. by apply JsonFacts.ordered_fields_set_field.
Qed.

(** Loading the slot after a save gives the object that the save built as
    its text reads: without the properties that hold [undefined], and with
    [null] for an infinity. *)
Lemma storeSession_reads_back (sessionData : ApiSessionData) (st : storage)
    (current : list (string * jsval)) :
  parsed (JObj current) →
  loadSlotSession st ACCOUNT_SLOT = JObj current
  ∨ loadSlotSession st ACCOUNT_SLOT = JUndefined ∧ current = [] →
  storable_session sessionData →
  loadSlotSession (storeSession sessionData st) ACCOUNT_SLOT =
  defined (finite (JObj (newSlotData (JObj current) sessionData))).
Proof.
  intros Hread Hcur Hs.
  pose proof (newSlotData_ok sessionData current Hread Hs) as Hok.
  apply parsed_fields in Hread as [Hord _].
  pose proof (newSlotData_ordered sessionData current Hord) as Hord'.
  pose proof (lookup_read_back "dcId" _ Hord') as Hdc.
  set (written := newSlotData (JObj current) sessionData) in *.
  cbn [finite defined] in Hdc |- *.
  apply (loadSlotSession_parsed _ _ (stringify_text (JObj written))).
  - rewrite storeSession_slot_text.
    by destruct Hcur as [->|[-> ->]].
  - exact (JsonFacts.JSON_parse_stringify_finite (JObj written) _ Hok eq_refl).
  - cbn [get_prop_opt] in Hdc. rewrite Hdc, truthy_defined. subst written.
    destruct (newSlotData_lookup sessionData current) as (_ & _ & -> & _).
    destruct Hs as (Hj & Ht & _).
    by rewrite JsonFacts.json_ok_finite.
Qed.

(** C10.  A save keeps the properties of the stored slot data that the
    incoming session does not carry: [userId], and every property other than
    [dcId], [isTest] and the [dc<N>_auth_key] of a data center of the incoming
    keys, holds in the data written what it held in the data loaded.  [dcId],
    [isTest] and the auth keys of the incoming data centers hold the incoming
    values.  The text of the data written is stored under the key of the
    slot.  When the incoming session holds values that JSON text holds
    without loss, loading the slot after the save gives an object whose
    properties hold what the text of the data written reads as: [userId] and
    the other properties that the session does not carry are read after the
    save as before it, but for an infinity (a number that the slot text
    wrote beyond the range of the doubles), which is read after the save as
    [null]. *)
Theorem storeSession_merges_slot_data (sessionData : ApiSessionData)
    (st : storage) (current : list (string * jsval)) :
  loadSlotSession st ACCOUNT_SLOT = JObj current →
  let written := newSlotData (JObj current) sessionData in
  storeSession sessionData st !! slot_key ACCOUNT_SLOT
    = Some (stringify_text (JObj written)) ∧
  lookup_field "userId" written = lookup_field "userId" current ∧
  (∀ k, k ≠ "dcId" → k ≠ "isTest" →
        (∀ dcId, dcId ∈ key_dc_ids (keys sessionData) → k ≠ auth_key_name dcId) →
        lookup_field k written = lookup_field k current) ∧
  lookup_field "dcId" written = mainDcId sessionData ∧
  lookup_field "isTest" written = isTest sessionData ∧
  (∀ dcId, dcId ∈ key_dc_ids (keys sessionData) →
           lookup_field (auth_key_name dcId) written
           = key_of (keys sessionData) dcId) ∧
  (storable_session sessionData →
   ∃ stored,
     loadSlotSession (storeSession sessionData st) ACCOUNT_SLOT = JObj stored ∧
     (∀ k, lookup_field k stored = defined (finite (lookup_field k written))) ∧
     lookup_field "userId" stored = finite (lookup_field "userId" current) ∧
     (∀ k, k ≠ "dcId" → k ≠ "isTest" →
           (∀ dcId, dcId ∈ key_dc_ids (keys sessionData) →
                    k ≠ auth_key_name dcId) →
           lookup_field k stored = finite (lookup_field k current)) ∧
     (∀ k, storable (lookup_field k current) = true →
           finite (lookup_field k current) = lookup_field k current)).
Proof.
  intros Hcur written.
  destruct (newSlotData_lookup sessionData current)
    as (Huser & Hother & Hdc & Htest & Hkeys).
  fold written in Huser, Hother, Hdc, Htest, Hkeys.
  split; [by rewrite storeSession_slot_text, Hcur|].
  do 5 (split; [done|]).
  intros Hs.
  pose proof (loadSlotSession_read _ _ _ Hcur) as Hread.
  pose proof (storeSession_reads_back sessionData st current Hread
                (or_introl Hcur) Hs) as Hback.
  apply parsed_fields in Hread as [Hord Hcurrent].
  pose proof (newSlotData_ordered sessionData current Hord) as Hord'.
  fold written in Hback, Hord'.
  assert (∀ k, defined (finite (lookup_field k current))
               = finite (lookup_field k current)) as Hfixed.
  { intros k.
    apply (lookup_field_Forall (λ v, defined (finite v) = finite v)); [done|].
    eapply Forall_impl; [exact Hcurrent|]. intros kv. apply parsed_finite. }
  pose proof (λ k, lookup_read_back k written Hord') as Hlook.
  cbn [finite defined] in Hback, Hlook. cbn [get_prop_opt] in Hlook.
  eexists. split; [exact Hback|].
  split; [exact Hlook|].
  split; [by rewrite Hlook, Huser|].
  split.
  - intros k H1 H2 H3. by rewrite Hlook, Hother.
  - intros k. apply finite_storable.
Qed.

(** ** More about the session store *)

Lemma string_app_cancel_l (p s t : string) : p +:+ s = p +:+ t → s = t.
Proof. induction p as [|c p IH]; simpl; [done|]. intros [= H]. auto. Qed.

(** The decimal text of an integer determines it. *)
Lemma number_to_string_int_inj (a b : Z) :
  number_to_string (NInt a) = number_to_string (NInt b) → a = b.
Proof.
  intros H.
  pose proof (JsonFacts.number_literal_roundtrip (NInt a) "" eq_refl I) as Ha.
  pose proof (JsonFacts.number_literal_roundtrip (NInt b) "" eq_refl I) as Hb.
  rewrite H, Hb in Ha. by injection Ha as ->.
Qed.

(** Two slots share a storage key exactly when [slot || 1] is the same. *)
Lemma slot_key_eq (m n : option Z) :
  slot_key m = slot_key n ↔
  js_or (slot_val m) (JNum (NInt 1)) = js_or (slot_val n) (JNum (NInt 1)).
Proof.
  split; [|unfold Sessions.slot_key; by intros ->].
  unfold Sessions.slot_key. intros H%string_app_cancel_l.
  assert (∀ s : option Z, ∃ z, js_or (slot_val s) (JNum (NInt 1)) = JNum (NInt z))
    as Hint.
  { intros [z|]; [|by exists 1]. unfold js_or. simpl.
    destruct (z =? 0); simpl; eauto. }
  destruct (Hint m) as [a Ha], (Hint n) as [b Hb].
  rewrite Ha, Hb in H |- *. simpl in H.
  by rewrite (number_to_string_int_inj a b H).
Qed.

(** X3.  Clearing a slot removes the data of the slots that share its storage
    key (the slot itself; and slot 1 together with slot 0 and the slot that
    is not set), and leaves the data of every other slot as it is. *)
Theorem clearStoredSession_other_slots (st : storage) (m n : option Z) :
  (js_or (slot_val m) (JNum (NInt 1)) = js_or (slot_val n) (JNum (NInt 1)) →
   loadSlotSession (clearStoredSession n st) m = JUndefined) ∧
  (js_or (slot_val m) (JNum (NInt 1)) ≠ js_or (slot_val n) (JNum (NInt 1)) →
   loadSlotSession (clearStoredSession n st) m = loadSlotSession st m).
Proof.
  split; intros H.
  - apply slot_key_eq in H. apply loadSlotSession_absent.
    unfold Sessions.clearStoredSession, removeItem. rewrite H.
    apply lookup_delete_eq.
  - assert (slot_key n ≠ slot_key m) as Hne.
    { intros E. apply H. by apply slot_key_eq. }
    unfold Sessions.loadSlotSession, getItem, Sessions.clearStoredSession,
      removeItem, clearStoredLegacySession.
    assert (∀ s : storage, delete (slot_key n) s !! slot_key m = s !! slot_key m)
      as Hd by (intros s; by apply lookup_delete_ne).
    by destruct (negb _); rewrite Hd.
Qed.

(** X5.  [hasStoredSession] throws nothing, whatever the store holds, and
    returns [true] in three cases only: the lock flag is set; or the slot of
    the account holds data; or the account slot is zero (or not set) and the
    legacy user text parses to a value with a truthy [id] and a truthy
    [dcID].  A damaged slot text or legacy user text counts as no session. *)
Theorem hasStoredSession_cases (st : storage) :
  hasStoredSession st =
  Returns
    (checkSessionLocked st
     || truthy (loadSlotSession st ACCOUNT_SLOT)
     || negb (truthy (slot_val ACCOUNT_SLOT))
        && match st !! SESSION_LEGACY_USER_KEY with
           | Some text =>
               match JSON_parse text with
               | Returns userAuth =>
                   truthy userAuth
                   && truthy (get_prop_opt userAuth "id")
                   && truthy (get_prop_opt userAuth "dcID")
               | Throws _ => false
               end
           | None => false
           end).
Proof.
  unfold Sessions.hasStoredSession.
  destruct (checkSessionLocked st); [done|]. cbn [orb].
  destruct (loadSlotSession_data st ACCOUNT_SLOT) as [->|(fs & -> & Hd)].
  - cbn [truthy orb]. destruct (truthy (slot_val ACCOUNT_SLOT)); [done|].
    cbn [negb andb]. unfold getItem.
    destruct (st !! SESSION_LEGACY_USER_KEY) as [text|]; [|done].
    destruct (String.eqb text "") eqn:E.
    { apply String.eqb_eq in E. by subst text. }
    cbn [negb]. destruct (JSON_parse text) as [userAuth|e]; [|done].
    cbn [bind try_catch]. unfold legacy_auth_test.
    destruct (truthy userAuth) eqn:Hu; cbn [bind try_catch andb];
      [|by rewrite Hu].
    assert (get_prop userAuth "id" = Returns (get_prop_opt userAuth "id") ∧
            get_prop userAuth "dcID" = Returns (get_prop_opt userAuth "dcID"))
      as [-> ->] by (by destruct userAuth).
    cbn [bind].
    by destruct (truthy (get_prop_opt userAuth "id")) eqn:Hid;
      cbn [bind try_catch andb]; rewrite ?Hid.
  - cbn [truthy orb get_prop bind]. by rewrite Hd.
Qed.

(** X4.  At slot zero without slot data, a legacy user text that is not empty
    and not valid JSON counts as no session while the store is not locked; with the lock
    flag set [hasStoredSession] returns [true], and [loadStoredSession] then
    reads the legacy user text outside any [try] and throws the
    SyntaxError. *)
Theorem loadStoredSession_damaged_legacy_user (st : storage) (text : string) :
  DEBUG = false →
  truthy (slot_val ACCOUNT_SLOT) = false →
  loadSlotSession st ACCOUNT_SLOT = JUndefined →
  st !! SESSION_LEGACY_USER_KEY = Some text →
  text ≠ "" →
  JSON_parse text = Throws SyntaxError →
  (checkSessionLocked st = false →
   hasStoredSession st = Returns false ∧ loadStoredSession st = Returns None) ∧
  (checkSessionLocked st = true →
   hasStoredSession st = Returns true ∧
   loadStoredSession st = Throws SyntaxError).
Proof.
  intros Hq Hslot Hnone Htext Hne%String.eqb_neq Hparse.
  rewrite (loadStoredSession_no_slot_data st Hq Hnone), Hslot.
  unfold Sessions.loadStoredLegacySession, Sessions.hasStoredSession.
  rewrite Hnone, Hslot. unfold getItem. rewrite Htext. simpl.
  rewrite Hne. simpl. rewrite Hparse.
  split; intros ->; simpl; done.
Qed.

(** *** Saving a session and loading it *)

(** The auth keys of the object that a save builds, for a session whose keys
    are those of the data centers: the incoming key, or else the key that the
    slot held. *)
Lemma newSlotData_auth_keys (a : ApiSessionData)
    (current : list (string * jsval)) (found : list (option jsval)) :
  keys a = keys_object found → length found = 5%nat →
  (λ d, lookup_field (auth_key_name (NInt d)) (newSlotData (JObj current) a))
    <$> DC_IDS =
  zip_with (λ new old, match new with Some v => v | None => old end) found
    ((λ d, lookup_field (auth_key_name (NInt d)) current) <$> DC_IDS).
Proof.
  intros Hkeys Hlen.
  destruct (newSlotData_lookup a current) as (_ & Hother & _ & _ & Hin).
  destruct found as [|o1 [|o2 [|o3 [|o4 [|o5 [|]]]]]]; try done.
  unfold DC_IDS. cbn [fmap list_fmap zip_with].
  assert (∀ d v, In (NInt d) (key_dc_ids (keys a)) →
                 lookup_field (number_to_string (NInt d)) (keys a) = v →
                 lookup_field (auth_key_name (NInt d))
                   (newSlotData (JObj current) a) = v) as Hnew.
  { intros d v Hd <-. apply Hin. by apply list_elem_of_In. }
  assert (∀ k, String.length k = 12%nat →
               (∀ d, In d (key_dc_ids (keys a)) → k ≠ auth_key_name d) →
               lookup_field k (newSlotData (JObj current) a)
               = lookup_field k current) as Hold.
  { intros k Hk Hd. apply Hother.
    - intros ->. done.
    - intros ->. done.
    - intros d Hin'. apply Hd. by apply list_elem_of_In. }
  rewrite Hkeys in Hnew, Hold.
  destruct o1, o2, o3, o4, o5;
    repeat match goal with
    | |- _ :: _ = _ :: _ => f_equal
    | |- lookup_field (auth_key_name (NInt ?d)) _ = lookup_field _ current =>
        apply Hold; [reflexivity|];
        let d' := fresh "d" in let H := fresh "H" in
        intros d' H; vm_compute in H; intros E;
        repeat (destruct H as [<-|H]; [vm_compute in E; discriminate E|]);
        exact H
    | |- lookup_field (auth_key_name (NInt ?d)) _ = _ =>
        apply Hnew; [vm_compute; tauto|reflexivity]
    end.
Qed.

(** Loading the slot after a save, whether the slot held data or not. *)
Lemma storeSession_reads_back_any (a : ApiSessionData) (st : storage) :
  storable_session a →
  parsed (JObj (spread (loadSlotSession st ACCOUNT_SLOT))) ∧
  loadSlotSession (storeSession a st) ACCOUNT_SLOT =
  defined (finite
    (JObj (newSlotData (JObj (spread (loadSlotSession st ACCOUNT_SLOT))) a))).
Proof.
  intros Hs.
  destruct (loadSlotSession_data st ACCOUNT_SLOT) as [Hu|(fs & Hfs & _)].
  - rewrite Hu. simpl spread.
    assert (parsed (JObj [])) as Hnil by (by split).
    split; [done|]. apply storeSession_reads_back; auto.
  - rewrite Hfs. simpl spread.
    pose proof (loadSlotSession_read _ _ _ Hfs) as Hread.
    split; [done|]. apply storeSession_reads_back; auto.
Qed.

(** X1.  A session saved is the session loaded.  For a session with a truthy data
    center, truthy auth keys of the data centers 1 to 5 and [isTest] absent
    or truthy, all of them values that JSON text holds as they are:
    [loadStoredSession] after [storeSession] returns the data center and the
    test flag of the session, and for each data center the incoming auth key,
    or else the auth key that the slot held before the save, as the text of
    the save holds it ([null] for an infinity), when that is truthy.  When
    the slot held no data, the session loaded is the session saved. *)
Theorem storeSession_then_load (a : ApiSessionData) (st : storage)
    (found : list (option jsval)) :
  DEBUG = false →
  keys a = keys_object found → length found = 5%nat →
  Forall (λ kv, truthy kv.2 = true ∧ plain kv.2) (keys a) →
  truthy (mainDcId a) = true → plain (mainDcId a) →
  isTest a = JUndefined ∨ truthy (isTest a) = true ∧ plain (isTest a) →
  ∃ b, loadStoredSession (storeSession a st) = Returns (Some b) ∧
    mainDcId b = mainDcId a ∧ isTest b = isTest a ∧
    keys b =
      keys_object
        (zip_with (λ new old, match new with
                              | Some v => Some v
                              | None => if truthy (finite old)
                                        then Some (finite old) else None
                              end) found
           ((λ d, lookup_field (auth_key_name (NInt d))
                    (spread (loadSlotSession st ACCOUNT_SLOT))) <$> DC_IDS)) ∧
    (loadSlotSession st ACCOUNT_SLOT = JUndefined → same_session a b).
Proof.
  intros Hq Hkeys Hlen Hall Hdc [Hdcok Hdcdef] Htest.
  assert (storable_session a) as Hs.
  { split; [done|]. split; [done|]. split.
    - destruct Htest as [->|[_ ?]]; [done|by apply plain_storable].
    - eapply Forall_impl; [exact Hall|].
      intros kv [_ ?]. by apply plain_storable. }
  destruct (storeSession_reads_back_any a st Hs) as [Hread Hload].
  set (current := spread (loadSlotSession st ACCOUNT_SLOT)) in *.
  pose proof (newSlotData_auth_keys a current found Hkeys Hlen) as Hauth.
  destruct (newSlotData_lookup a current) as (_ & _ & Hwdc & Hwtest & _).
  apply parsed_fields in Hread as [Hord0 Hcurrent].
  pose proof (newSlotData_ordered a current Hord0) as Hord.
  set (written := newSlotData (JObj current) a) in *.
  pose proof (λ k, lookup_read_back k written Hord) as Hlook.
  cbn [finite defined] in Hload, Hlook. cbn [get_prop_opt] in Hlook.
  assert (∀ k, defined (finite (lookup_field k current))
               = finite (lookup_field k current)) as Hfixed.
  { intros k.
    apply (lookup_field_Forall (λ v, defined (finite v) = finite v)); [done|].
    eapply Forall_impl; [exact Hcurrent|]. intros kv. apply parsed_finite. }
  assert (∀ v, plain v → defined (finite v) = v) as Hplain.
  { intros v [Hok Hdef]. by rewrite JsonFacts.json_ok_finite. }
  assert (hasStoredSession (storeSession a st) = Returns true) as Hhas.
  { apply (hasStoredSession_slot_data _ _ Hload).
    by rewrite Hlook, truthy_defined, Hwdc, JsonFacts.json_ok_finite. }
  rewrite (loadStoredSession_quiet _ Hq), Hhas. cbn [bind negb]. rewrite Hload.
  cbn [truthy negb bind get_prop]. rewrite slot_keys_lookup.
  cbn [bind]. eexists. split; [reflexivity|]. cbn [mainDcId isTest keys].
  rewrite !Hlook. rewrite Hwdc, Hwtest.
  assert (js_or (defined (finite (isTest a))) JUndefined = isTest a) as Hrt.
  { destruct Htest as [->|[Ht Hp]]; [done|].
    rewrite (Hplain _ Hp). unfold js_or. by rewrite Ht. }
  assert (Forall (λ o, ∀ v, o = Some v → truthy v = true ∧ plain v) found)
    as Hfound.
  { apply keys_object_Forall; [done|]. by rewrite <- Hkeys. }
  assert (keys_object
            ((λ d, let key := lookup_field (auth_key_name (NInt d))
                                (keep_defined defined
                                   (map (λ '(k, x), (k, finite x)) written)) in
                   if truthy key then Some key else None) <$> DC_IDS) =
          keys_object
            (zip_with (λ new old, match new with
                                  | Some v => Some v
                                  | None => if truthy (finite old)
                                            then Some (finite old) else None
                                  end) found
               ((λ d, lookup_field (auth_key_name (NInt d)) current)
                  <$> DC_IDS))) as Hk.
  { f_equal.
    destruct found as [|o1 [|o2 [|o3 [|o4 [|o5 [|]]]]]]; try done.
    unfold DC_IDS in *. cbn [fmap list_fmap zip_with] in Hauth |- *.
    injection Hauth as H1 H2 H3 H4 H5.
    rewrite !Hlook, H1, H2, H3, H4, H5.
    repeat match goal with
    | H : Forall _ (_ :: _) |- _ => apply Forall_cons in H as [? H]
    end.
    repeat f_equal;
      match goal with
      | |- context [match ?o with Some _ => _ | None => _ end] =>
          destruct o as [v|];
          [ match goal with
            | H : ∀ w, Some v = Some w → _ |- _ =>
                destruct (H v eq_refl) as [Htr Hpl]
            end; by rewrite (Hplain _ Hpl), Htr
          | by rewrite Hfixed ]
      end. }
  split; [by apply Hplain|]. split; [done|]. split; [exact Hk|].
  intros Hfresh. unfold same_session. cbn [mainDcId isTest keys].
  split; [symmetry; by apply Hplain|]. split; [|done].
  refine (eq_trans _ (eq_sym Hk)).
  rewrite Hkeys. f_equal. subst current. rewrite Hfresh. simpl spread.
  destruct found as [|o1 [|o2 [|o3 [|o4 [|o5 [|]]]]]]; try done.
  unfold DC_IDS. cbn [fmap list_fmap zip_with lookup_field].
  by destruct o1, o2, o3, o4, o5.
Qed.

(** X2.  Slot data always loads.  Whenever the slot of the account holds data,
    [loadStoredSession] returns a session: it has a truthy data center, its
    auth keys are truthy and belong to the data centers 1 to 5, and its test
    flag is truthy or absent. *)
Theorem loadStoredSession_slot_data (st : storage) :
  DEBUG = false →
  truthy (loadSlotSession st ACCOUNT_SLOT) = true →
  ∃ b, loadStoredSession st = Returns (Some b) ∧
       well_formed_session b ∧
       Forall (λ kv, kv.1 ∈ ["1"; "2"; "3"; "4"; "5"]) (keys b) ∧
       isLocalStorage b = JUndefined.
Proof.
  intros Hq Hslot.
  destruct (loadSlotSession_data st ACCOUNT_SLOT) as [Hu|(fs & Hfs & Hdc)].
  { by rewrite Hu in Hslot. }
  rewrite (loadStoredSession_quiet _ Hq).
  rewrite (hasStoredSession_slot_data st fs Hfs Hdc). cbn [bind negb].
  rewrite Hfs. cbn [truthy negb bind get_prop]. rewrite slot_keys_lookup.
  cbn [bind]. eexists. split; [reflexivity|].
  unfold well_formed_session. cbn [mainDcId isTest keys isLocalStorage].
  split; [|split; [|done]].
  - split; [done|]. split.
    + unfold DC_IDS. cbn [fmap list_fmap].
      destruct (truthy (lookup_field (auth_key_name (NInt 1)) fs)) eqn:H1,
        (truthy (lookup_field (auth_key_name (NInt 2)) fs)) eqn:H2,
        (truthy (lookup_field (auth_key_name (NInt 3)) fs)) eqn:H3,
        (truthy (lookup_field (auth_key_name (NInt 4)) fs)) eqn:H4,
        (truthy (lookup_field (auth_key_name (NInt 5)) fs)) eqn:H5;
        cbn; repeat constructor; done.
    + unfold js_or. destruct (truthy (lookup_field "isTest" fs)) eqn:Ht; auto.
  - unfold DC_IDS. cbn [fmap list_fmap].
    destruct (truthy (lookup_field (auth_key_name (NInt 1)) fs)),
      (truthy (lookup_field (auth_key_name (NInt 2)) fs)),
      (truthy (lookup_field (auth_key_name (NInt 3)) fs)),
      (truthy (lookup_field (auth_key_name (NInt 4)) fs)),
      (truthy (lookup_field (auth_key_name (NInt 5)) fs));
      cbn; repeat constructor; set_solver.
Qed.

(** *** Saving in the legacy format and loading it *)

(** What a sequence of [setItem] writes. *)
Lemma foldl_setItem_written (name text : number → string) (l : list number)
    (st : storage) (d : number) :
  d ∈ l →
  (∀ d', d' ∈ l → name d' = name d → text d' = text d) →
  foldl (λ acc d, setItem (name d) (text d) acc) st l !! name d
  = Some (text d).
Proof.
  induction l as [|d' l IH] using rev_ind; intros Hd Hsame.
  { by apply elem_of_nil in Hd. }
  rewrite foldl_app. cbn [foldl]. unfold setItem at 1.
  destruct (decide (name d' = name d)) as [E|Hne].
  - rewrite E, lookup_insert_eq. f_equal. apply Hsame; [|done].
    apply elem_of_app. right. by apply list_elem_of_singleton.
  - rewrite lookup_insert_ne by done.
    apply elem_of_app in Hd as [Hd|Hd].
    + apply IH; [done|]. intros d'' Hd''. apply Hsame.
      apply elem_of_app. by left.
    + apply list_elem_of_singleton in Hd. by subst.
Qed.

(** The keys that [storeLegacySession] writes, and those that it leaves. *)
Lemma storeLegacySession_lookup (a : ApiSessionData) (uid : jsval)
    (st : storage) :
  SESSION_LEGACY_USER_KEY ≠ "dc" →
  (∀ d, SESSION_LEGACY_USER_KEY ≠ auth_key_name d) →
  storeLegacySession a uid st !! SESSION_LEGACY_USER_KEY
    = Some (stringify_text (JObj [("dcID", mainDcId a); ("id", uid);
                                  ("test", isTest a)])) ∧
  (∀ d, d ∈ key_dc_ids (keys a) →
        storeLegacySession a uid st !! auth_key_name d
        = Some (stringify_text (key_of (keys a) d))) ∧
  (∀ k, k ≠ SESSION_LEGACY_USER_KEY → k ≠ "dc" →
        (∀ d, d ∈ key_dc_ids (keys a) → k ≠ auth_key_name d) →
        storeLegacySession a uid st !! k = st !! k).
Proof.
  intros Hdc Hauth. unfold Sessions.storeLegacySession.
  split; [|split].
  - rewrite foldl_setItem_other.
    + unfold setItem. rewrite lookup_insert_ne by done.
      apply lookup_insert_eq.
    + intros (d & E & _)%list_elem_of_fmap. by apply (Hauth d).
  - intros d Hd.
    apply (foldl_setItem_written auth_key_name
             (λ d, stringify_text (key_of (keys a) d))); [done|].
    intros d' _ E. unfold key_of. by rewrite (auth_key_name_eq _ _ E).
  - intros k Hk1 Hk2 Hk3. rewrite foldl_setItem_other.
    + unfold setItem. by rewrite !lookup_insert_ne.
    + intros (d & E & Hd)%list_elem_of_fmap. by apply (Hk3 d).
Qed.

(** The legacy auth keys after [storeLegacySession], for a session whose
    keys are those of the data centers and are values that JSON text holds
    as they are: the incoming key, or else the key stored before. *)
Lemma storeLegacySession_legacy_keys (a : ApiSessionData) (uid : jsval)
    (st : storage) (found : list (option jsval)) :
  SESSION_LEGACY_USER_KEY ≠ "dc" →
  (∀ d, SESSION_LEGACY_USER_KEY ≠ auth_key_name d) →
  keys a = keys_object found → length found = 5%nat →
  Forall (λ kv, plain kv.2) (keys a) →
  legacy_key (storeLegacySession a uid st) <$> DC_IDS =
  zip_with (λ new old, match new with Some v => Some v | None => old end)
    found (legacy_key st <$> DC_IDS).
Proof.
  intros Hdc Hauth Hkeys Hlen Hplain.
  destruct (storeLegacySession_lookup a uid st Hdc Hauth) as (_ & Hnew & Hold).
  assert (Forall (λ o, ∀ v, o = Some v → plain v) found) as Hfound.
  { apply keys_object_Forall; [done|]. by rewrite <- Hkeys. }
  assert (∀ d v, In (NInt d) (key_dc_ids (keys a)) →
                 lookup_field (number_to_string (NInt d)) (keys a) = v →
                 plain v →
                 legacy_key (storeLegacySession a uid st) d = Some v) as Hin.
  { intros d v Hd Hv Hpl. unfold legacy_key, getItem.
    rewrite (Hnew (NInt d)) by (by apply list_elem_of_In).
    unfold key_of. rewrite Hv.
    by rewrite (JsonFacts.JSON_parse_stringify_plain v Hpl). }
  assert (∀ d, (∀ d', In d' (key_dc_ids (keys a)) →
                      auth_key_name (NInt d) ≠ auth_key_name d') →
               legacy_key (storeLegacySession a uid st) d = legacy_key st d)
    as Hout.
  { intros d Hd. unfold legacy_key, getItem. rewrite Hold; [done| | |].
    - intros E. by apply (Hauth (NInt d)).
    - apply auth_key_name_not. simpl. lia.
    - intros d' Hd'. apply Hd. by apply list_elem_of_In. }
  rewrite Hkeys in Hin, Hout.
  destruct found as [|o1 [|o2 [|o3 [|o4 [|o5 [|]]]]]]; try done.
  repeat match goal with
  | H : Forall _ (_ :: _) |- _ => apply Forall_cons in H as [? H]
  end.
  unfold DC_IDS. cbn [fmap list_fmap zip_with].
  destruct o1, o2, o3, o4, o5;
    repeat match goal with
    | |- _ :: _ = _ :: _ => f_equal
    | |- legacy_key _ ?d = legacy_key st ?d =>
        apply Hout;
        let d' := fresh "d" in let H := fresh "H" in
        intros d' H; vm_compute in H; intros E;
        repeat (destruct H as [<-|H]; [vm_compute in E; discriminate E|]);
        exact H
    | |- legacy_key _ ?d = Some _ =>
        apply Hin; [vm_compute; tauto|reflexivity|auto]
    end.
Qed.

(** The legacy user text that [storeLegacySession] writes, read back. *)
Lemma legacy_user_text_parsed (m uid t : jsval) :
  storable m = true → storable uid = true → storable t = true →
  let text := stringify_text (JObj [("dcID", m); ("id", uid); ("test", t)]) in
  String.eqb text "" = false ∧
  ∃ fs, JSON_parse text = Returns (JObj fs) ∧
        lookup_field "dcID" fs = defined m ∧
        lookup_field "id" fs = defined uid ∧
        lookup_field "test" fs = defined t.
Proof.
  intros Hm Hu Ht text. split; [reflexivity|].
  set (fields := [("dcID", m); ("id", uid); ("test", t)]).
  assert (ordered_fields fields = true) as Hord by reflexivity.
  assert (json_ok (JObj fields) = true) as Hok.
  { apply json_ok_object; [done|]. by repeat constructor. }
  exists (keep_defined defined fields). split.
  - exact (JsonFacts.JSON_parse_stringify (JObj fields) _ Hok eq_refl).
  - by rewrite !lookup_keep_defined.
Qed.

(** X6.  A session saved in the legacy format and loaded from it.  For a session
    whose auth keys are those of the data centers 1 to 5, with values that
    JSON text holds as they are: without slot data, at slot zero and not
    locked, [hasStoredSession] sees the session saved exactly when the user
    id and the data center are truthy; and whenever [hasStoredSession]
    returns [true], the legacy load returns the data center as a number, the
    test flag, and for each data center the incoming auth key or else the
    legacy key stored before ([undefined] when there is no key at all). *)
Theorem storeLegacySession_then_load (a : ApiSessionData) (uid : jsval)
    (st : storage) (found : list (option jsval)) :
  SESSION_LEGACY_USER_KEY ≠ "dc" →
  (∀ d, SESSION_LEGACY_USER_KEY ≠ auth_key_name d) →
  keys a = keys_object found → length found = 5%nat →
  Forall (λ kv, plain kv.2) (keys a) →
  storable (mainDcId a) = true → storable uid = true →
  storable (isTest a) = true →
  let st' := storeLegacySession a uid st in
  let loaded :=
    keys_object
      (zip_with (λ new old, match new with Some v => Some v | None => old end)
         found (legacy_key st <$> DC_IDS)) in
  (checkSessionLocked st' = false →
   loadSlotSession st' ACCOUNT_SLOT = JUndefined →
   truthy (slot_val ACCOUNT_SLOT) = false →
   hasStoredSession st' = Returns (truthy uid && truthy (mainDcId a))) ∧
  (hasStoredSession st' = Returns true →
   (loaded = [] → loadStoredLegacySession st' = Returns None) ∧
   (loaded ≠ [] →
    ∃ b, loadStoredLegacySession st' = Returns (Some b) ∧
         mainDcId b = JNum (to_number (defined (mainDcId a))) ∧
         isTest b = defined (isTest a) ∧
         keys b = loaded)).
Proof.
  intros Hdc Hauth Hkeys Hlen Hplain Hm Hu Ht st' loaded.
  destruct (storeLegacySession_lookup a uid st Hdc Hauth) as (Huser & _ & _).
  fold st' in Huser.
  destruct (legacy_user_text_parsed (mainDcId a) uid (isTest a) Hm Hu Ht)
    as (Hne & fs & Hparse & Hfdc & Hfid & Hftest).
  set (text := stringify_text _) in *.
  split.
  - intros Hlock Hnone Hslot. unfold Sessions.hasStoredSession.
    rewrite Hlock, Hnone, Hslot. cbn [truthy negb]. unfold getItem.
    rewrite Huser, Hne. cbn [negb]. rewrite Hparse.
    cbn [bind try_catch]. unfold legacy_auth_test. cbn [truthy get_prop bind].
    rewrite Hfid, Hfdc, !truthy_defined.
    destruct (truthy uid) eqn:Hid; cbn [bind try_catch andb].
    + by rewrite truthy_defined.
    + by rewrite truthy_defined, Hid.
  - intros Hhas.
    assert (legacy_keys st' = loaded) as Hk.
    { rewrite legacy_keys_object. unfold loaded. f_equal.
      by apply storeLegacySession_legacy_keys. }
    unfold Sessions.loadStoredLegacySession.
    rewrite Hhas. cbn [bind negb]. unfold getItem, item_or.
    rewrite Huser, Hne, Hparse. cbn [bind truthy negb get_prop].
    rewrite Hfdc, Hftest, Hk. split.
    + intros ->. done.
    + intros Hsome. destruct loaded as [|kv l] eqn:Hl; [done|].
      cbn [object_keys map length Nat.eqb]. eexists. split; [reflexivity|].
      match goal with
      | |- context [with_entourage ?s ?r] =>
          destruct (with_entourage_same s r) as (H1 & H2 & H3)
      end.
      cbn [mainDcId keys isTest] in H1, H2, H3. by rewrite <- H1, <- H2, <- H3.
Qed.

End StoreFacts.

(** *** The theorems at the example stores *)

Import SessionExamples.

Lemma hasStoredSession_locked_witness :
  locked_store !! LOCK = Some "true" ∧
  hasStoredSession PREFIX LEGACY LOCK None locked_store = Returns true.
Proof.
  split; [reflexivity|].
  apply (hasStoredSession_locked PREFIX LEGACY LOCK None locked_store).
  reflexivity.
Defined.

(** C5, as the specification states it, fails: at slot zero a damaged slot
    text falls back to the legacy keys, and [loadStoredSession] returns the
    legacy session. *)
Lemma corrupt_slot_loads_legacy_session :
  ¬ corrupt_slot_loads_undefined PREFIX LEGACY LOCK false None corrupt_store.
Proof.
  intros H.
  destruct (H "{bad") as [_ Hload]; [reflexivity|reflexivity|].
  vm_compute in Hload. discriminate Hload.
Qed.

Lemma corrupt_slot_is_no_slot_data_witness :
  corrupt_store !! slot_key PREFIX (Some 3) = None ∧
  (<["account3" := "{bad"]> corrupt_store) !! slot_key PREFIX (Some 3)
    = Some "{bad" ∧
  JSON_parse "{bad" = Throws SyntaxError ∧
  loadStoredSession PREFIX LEGACY LOCK false (Some 3)
    (<["account3" := "{bad"]> corrupt_store) = Returns None.
Proof.
  split; [reflexivity|]. split; [reflexivity|]. split; [reflexivity|].
  destruct (corrupt_slot_is_no_slot_data PREFIX LEGACY LOCK false (Some 3)
              (<["account3" := "{bad"]> corrupt_store) "{bad")
    as (_ & H & _); [reflexivity|reflexivity|reflexivity|].
  apply H. reflexivity.
Defined.

Lemma slot_without_dcId_is_no_session_witness :
  loadSlotSession PREFIX no_dc_store (Some 3) = JUndefined ∧
  hasStoredSession PREFIX LEGACY LOCK (Some 3) no_dc_store = Returns false.
Proof.
  destruct (slot_without_dcId_is_no_session PREFIX LEGACY LOCK (Some 3)
              no_dc_store
              (text "{'userId':'77','dc2_auth_key':'abcd'}")
              (JObj [("userId", JStr "77"); ("dc2_auth_key", JStr "abcd")]))
    as [H1 H2]; [reflexivity|reflexivity|reflexivity|].
  split; [exact H1|]. apply H2; [reflexivity|]. left. reflexivity.
Defined.

(** C8, as the specification states it, fails: clearing slot zero leaves the
    legacy keys in place, and [hasStoredSession] still returns [true]. *)
Lemma clear_slot0_keeps_legacy_session :
  ¬ clear_removes_session PREFIX LEGACY LOCK false (Some 0) both_store.
Proof.
  intros H. destruct H as [Hhas _]; [reflexivity|].
  vm_compute in Hhas. discriminate Hhas.
Qed.

Lemma clearStoredSession_removes_slot_session_witness :
  checkSessionLocked LOCK both_store = false ∧
  hasStoredSession PREFIX LEGACY LOCK (Some 1)
    (clearStoredSession PREFIX (Some 1) both_store) = Returns false ∧
  loadStoredSession PREFIX LEGACY LOCK false (Some 1)
    (clearStoredSession PREFIX (Some 1) both_store) = Returns None.
Proof.
  split; [reflexivity|].
  destruct (clearStoredSession_removes_slot_session PREFIX LEGACY LOCK false (Some 1)
              both_store) as (_ & _ & H); [reflexivity|reflexivity|].
  apply H. left. reflexivity.
Defined.



(** C10 does not hold of every slot state: a user id that the slot text
    writes beyond the range of the doubles is loaded as an infinity, which
    the save writes as [null]. *)
Lemma storeSession_writes_infinity_as_null :
  ¬ save_keeps_slot_fields PREFIX LEGACY (Some 1) session2 overflow_store.
Proof.
  intros H.
  destruct (H [("dcId", JNum (NInt 1)); ("userId", JNum (NInf false))])
    as (stored & Hload & Huser & _); [reflexivity|].
  vm_compute in Hload. injection Hload as <-.
  vm_compute in Huser. discriminate Huser.
Qed.

Lemma storeSession_merges_slot_data_witness :
  loadSlotSession PREFIX slotted_store (Some 1)
    = JObj [("dcId", JNum (NInt 1)); ("userId", JStr "77");
            ("dc1_auth_key", JStr "k1")] ∧
  storeSession PREFIX LEGACY (Some 1) session2 slotted_store !! "account1"
    = Some (text
        "{'dcId':2,'userId':'77','dc1_auth_key':'k1','isTest':true,'dc2_auth_key':'abcd'}") ∧
  storable_session session2 ∧
  ∃ stored,
    loadSlotSession PREFIX
      (storeSession PREFIX LEGACY (Some 1) session2 slotted_store) (Some 1)
      = JObj stored ∧
    lookup_field "userId" stored = JStr "77".
Proof.
  split; [reflexivity|].
  destruct (storeSession_merges_slot_data PREFIX LEGACY (Some 1) session2
              slotted_store
              [("dcId", JNum (NInt 1)); ("userId", JStr "77");
               ("dc1_auth_key", JStr "k1")])
    as (H & _ & _ & _ & _ & _ & Hback); [reflexivity|].
  split; [exact H|].
  assert (storable_session session2) as Hs.
  { split; [reflexivity|]. split; [reflexivity|]. split; [reflexivity|].
    constructor; [reflexivity|constructor]. }
  split; [exact Hs|].
  destruct (Hback Hs) as (stored & Hload & _ & Huser & _).
  exists stored. split; [exact Hload|exact Huser].
Defined.



(** *** The further theorems at the example stores *)

Lemma storeSession_then_load_witness :
  ∃ b, loadStoredSession PREFIX LEGACY LOCK false (Some 1)
         (storeSession PREFIX LEGACY (Some 1) session2 slotted_store)
       = Returns (Some b) ∧
       mainDcId b = JNum (NInt 2) ∧
       keys b = [("1", JStr "k1"); ("2", JStr "abcd")].
Proof.
  destruct (storeSession_then_load PREFIX LEGACY LOCK false (Some 1) session2
              slotted_store [None; Some (JStr "abcd"); None; None; None])
    as (b & Hb & Hdc & _ & Hk & _).
  - reflexivity.
  - reflexivity.
  - reflexivity.
  - constructor; [|constructor]. split; [reflexivity|]. split; reflexivity.
  - reflexivity.
  - split; reflexivity.
  - right. split; [reflexivity|]. split; reflexivity.
  - exists b. split; [exact Hb|]. split; [exact Hdc|exact Hk].
Defined.

Lemma loadStoredSession_damaged_legacy_user_witness :
  checkSessionLocked LOCK locked_store = true ∧
  hasStoredSession PREFIX LEGACY LOCK None locked_store = Returns true ∧
  loadStoredSession PREFIX LEGACY LOCK false None locked_store
    = Throws SyntaxError.
Proof.
  split; [reflexivity|].
  destruct (loadStoredSession_damaged_legacy_user PREFIX LEGACY LOCK false
              None locked_store "{bad") as [_ H].
  - reflexivity.
  - reflexivity.
  - reflexivity.
  - reflexivity.
  - discriminate.
  - reflexivity.
  - apply H. reflexivity.
Defined.

Lemma loadStoredSession_slot_data_witness :
  truthy (loadSlotSession PREFIX slotted_store (Some 1)) = true ∧
  ∃ b, loadStoredSession PREFIX LEGACY LOCK false (Some 1) slotted_store
       = Returns (Some b) ∧ well_formed_session b.
Proof.
  split; [reflexivity|].
  destruct (loadStoredSession_slot_data PREFIX LEGACY LOCK false (Some 1)
              slotted_store) as (b & Hb & Hwf & _).
  - reflexivity.
  - reflexivity.
  - exists b. split; [exact Hb|exact Hwf].
Defined.

Lemma storeLegacySession_then_load_witness :
  hasStoredSession PREFIX LEGACY LOCK None
    (storeLegacySession LEGACY session2 (JStr "77") ∅) = Returns true ∧
  ∃ b, loadStoredLegacySession PREFIX LEGACY LOCK None
         (storeLegacySession LEGACY session2 (JStr "77") ∅)
       = Returns (Some b) ∧
       mainDcId b = JNum (NInt 2) ∧
       keys b = [("2", JStr "abcd")].
Proof.
  assert (hasStoredSession PREFIX LEGACY LOCK None
            (storeLegacySession LEGACY session2 (JStr "77") ∅) = Returns true)
    as Hhas by reflexivity.
  split; [exact Hhas|].
  destruct (storeLegacySession_then_load PREFIX LEGACY LOCK None session2
              (JStr "77") ∅ [None; Some (JStr "abcd"); None; None; None])
    as [_ H].
  - discriminate.
  - intros d E. apply (auth_key_name_not d LEGACY); [simpl; lia|]. by symmetry.
  - reflexivity.
  - reflexivity.
  - constructor; [|constructor]. split; reflexivity.
  - reflexivity.
  - reflexivity.
  - reflexivity.
  - destruct (H Hhas) as [_ H2].
    destruct H2 as (b & Hb & Hdc & _ & Hk); [discriminate|].
    exists b. split; [exact Hb|]. split; [exact Hdc|exact Hk].
Defined.

Lemma clearStoredSession_other_slots_witness :
  let st : storage := <["account3" := text "{'dcId':4}"]> slotted_store in
  loadSlotSession PREFIX (clearStoredSession PREFIX None st) (Some 1)
    = JUndefined ∧
  loadSlotSession PREFIX (clearStoredSession PREFIX None st) (Some 3)
    = JObj [("dcId", JNum (NInt 4))].
Proof.
  intros st.
  destruct (clearStoredSession_other_slots PREFIX st (Some 1) None) as [H1 _].
  destruct (clearStoredSession_other_slots PREFIX st (Some 3) None) as [_ H3].
  split; [apply H1; reflexivity|].
  rewrite H3; [reflexivity|]. intros E. vm_compute in E. discriminate E.
Defined.

End SessionFacts.
(** * Properties of the de-duplicated full-chat fetch *)

Module FullChatFacts.
Import FullChat.

Section DedupeFacts.

Variable Payload : Type.
Variable FullChatData : Type.
Variable getEntityTypeById : string → entity_type.
Variable buildFullChat : Payload → FullChatData.
Variable buildFullChannel : list (option Payload) → FullChatData.

Local Abbreviation state := (state Payload FullChatData).
Local Abbreviation event := (event Payload).
Local Abbreviation promise_state := (promise_state Payload FullChatData).
Local Abbreviation fetch := (fetch Payload).
Local Abbreviation first_stage := (first_stage getEntityTypeById).
Local Abbreviation fetchFullChat :=
  (@fetchFullChat Payload FullChatData getEntityTypeById).
Local Abbreviation continue :=
  (@continue Payload FullChatData buildFullChannel).
Local Abbreviation resume :=
  (@resume Payload FullChatData buildFullChat buildFullChannel).
Local Abbreviation step :=
  (@step Payload FullChatData getEntityTypeById buildFullChat buildFullChannel).
Local Abbreviation run :=
  (@run Payload FullChatData getEntityTypeById buildFullChat buildFullChannel).
Local Abbreviation init := (init Payload FullChatData).
Local Abbreviation fetch_requests := (fetch_requests getEntityTypeById).
Local Abbreviation on_plan := (@on_plan Payload FullChatData getEntityTypeById).

Lemma outstanding_lt (s : state) p id :
  outstanding s p id → (p < length (promises s))%nat.
Proof. intros (st & Hp & _). by apply lookup_lt_Some in Hp. Qed.

Lemma dedupe_inv_init : dedupe_inv init.
Proof.
  split.
  - intros id p H. simpl in H. by rewrite lookup_empty in H.
  - intros id p (st & Hp & _). simpl in Hp. by rewrite lookup_nil in Hp.
Qed.

Lemma fetchFullChat_known (s : state) c p :
  dedupe s !! chat_id c = Some p → fetchFullChat c s = (p, s).
Proof. intros H. unfold FullChat.fetchFullChat. by rewrite H. Qed.

Lemma fetchFullChat_new (s : state) c :
  dedupe s !! chat_id c = None →
  fetchFullChat c s =
  (length (promises s),
   {| dedupe := <[chat_id c := length (promises s)]> (dedupe s);
      promises :=
        promises s ++
        [{| pkey := chat_id c;
            pstate := Pending {| chat := c; awaiting := first_stage (chat_id c);
                                 todo := []; results := [] |} |}];
      network := network s ++ [request_of (chat_id c) (first_stage (chat_id c))] |}).
Proof. intros H. unfold FullChat.fetchFullChat. by rewrite H. Qed.

Lemma request_of_id (id : string) (s : stage) : request_id (request_of id s) = id.
Proof. by destruct s. Qed.

(** A fetch that resumes does not run the reaction of its promise, and
    issues requests for its own chat only. *)
Lemma continue_spec (id : string) c stages got :
  (∀ r0, (continue id c stages got).1 ≠ Done r0) ∧
  Forall (λ q, request_id q = id) (continue id c stages got).2.
Proof.
  destruct stages as [|s rest]; simpl; split; try done.
  constructor; [apply request_of_id|constructor].
Qed.

Lemma resume_spec (id : string) (f : fetch) r :
  (∀ r0, (resume id f r).1 ≠ Done r0) ∧
  Forall (λ q, request_id q = id) (resume id f r).2.
Proof.
  unfold FullChat.resume.
  destruct (awaiting f); try apply continue_spec;
    destruct r as [|[] cv p]; try apply continue_spec; by split.
Qed.

Lemma dedupe_inv_call (s : state) c :
  dedupe_inv s → dedupe_inv (fetchFullChat c s).2.
Proof.
  intros [Ha Hb]. destruct (dedupe s !! chat_id c) as [p|] eqn:Hd.
  { rewrite (fetchFullChat_known s c p Hd). by split. }
  rewrite (fetchFullChat_new s c Hd). set (id := chat_id c) in *.
  split; simpl.
  - intros id' p'. destruct (decide (id = id')) as [<-|Hne].
    + rewrite lookup_insert_eq. intros [= <-].
      eexists. split.
      { simpl. rewrite lookup_app_r by done. by rewrite Nat.sub_diag. }
      done.
    + rewrite lookup_insert_ne by done. intros H.
      destruct (Ha _ _ H) as (st & Hp & Hst).
      exists st. split; simpl; [|done]. by apply lookup_app_l_Some.
  - intros id' p' (st & Hp & Hst). simpl in Hp.
    apply lookup_app_Some in Hp as [Hp|[Hlen Hp]].
    + assert (dedupe s !! id' = Some p') as H by (apply Hb; by exists st).
      rewrite lookup_insert_ne; [done|]. intros <-. congruence.
    + apply list_lookup_singleton_Some in Hp as [Hz [= <- <-]].
      assert (p' = length (promises s)) as -> by lia.
      apply lookup_insert_eq.
Qed.

(** A pending promise that changes to a state other than [Done] stays
    outstanding, and nothing else changes. *)
Lemma dedupe_inv_update (s : state) p k f (st' : promise_state) net :
  promises s !! p = Some {| pkey := k; pstate := Pending f |} →
  (∀ r0, st' ≠ Done r0) →
  dedupe_inv s →
  dedupe_inv {| dedupe := dedupe s;
                promises := <[p := {| pkey := k; pstate := st' |}]> (promises s);
                network := net |}.
Proof.
  intros Hp Hst' [Ha Hb]. split; simpl.
  - intros id q H. destruct (Ha _ _ H) as (st & Hq & Hst).
    destruct (decide (q = p)) as [->|Hne].
    + rewrite Hp in Hq. injection Hq as <- <-.
      exists st'. split; simpl; [|done].
      apply list_lookup_insert_eq. by apply lookup_lt_Some in Hp.
    + exists st. split; simpl; [|done]. by rewrite list_lookup_insert_ne.
  - intros id q (st & Hq & Hst). simpl in Hq. apply Hb.
    destruct (decide (q = p)) as [->|Hne].
    + rewrite list_lookup_insert_eq in Hq by (by apply lookup_lt_Some in Hp).
      injection Hq as <- <-. by exists (Pending f).
    + rewrite list_lookup_insert_ne in Hq by done. by exists st.
Qed.

Lemma dedupe_inv_step (s : state) ev : dedupe_inv s → dedupe_inv (step s ev).
Proof.
  intros Hinv. destruct ev as [c|p r|p|p]; simpl.
  - by apply dedupe_inv_call.
  - destruct (promises s !! p) as [[k [f|r0|r0]]|] eqn:Hp; try done.
    apply (dedupe_inv_update s p k f); [done| |done].
    apply resume_spec.
  - destruct (promises s !! p) as [[k [f|r0|r0]]|] eqn:Hp; try done.
    by apply (dedupe_inv_update s p k f).
  - destruct (promises s !! p) as [[k [f|r0|r0]]|] eqn:Hp; try done.
    destruct Hinv as [Ha Hb].
    assert (dedupe s !! k = Some p) as Hk by (apply Hb; by exists (Settled r0)).
    split; simpl.
    + intros id q H. apply lookup_delete_Some in H as [Hne H].
      destruct (Ha _ _ H) as (st & Hq & Hst).
      exists st. split; simpl; [|done].
      rewrite list_lookup_insert_ne; [done|]. intros <-.
      rewrite Hp in Hq. by injection Hq as <- <-.
    + intros id q (st & Hq & Hst). simpl in Hq.
      destruct (decide (q = p)) as [->|Hne].
      { rewrite list_lookup_insert_eq in Hq by (by apply lookup_lt_Some in Hp).
        injection Hq as <- <-. by destruct (Hst r0). }
      rewrite list_lookup_insert_ne in Hq by done.
      assert (dedupe s !! id = Some q) as H by (apply Hb; by exists st).
      rewrite lookup_delete_ne; [done|]. intros <-. congruence.
Qed.

Lemma dedupe_inv_run (s : state) evs : dedupe_inv s → dedupe_inv (run s evs).
Proof.
  revert s. induction evs as [|ev evs IH]; intros s Hinv; simpl; [done|].
  apply IH. by apply dedupe_inv_step.
Qed.

Lemma promises_length_step (s : state) ev :
  (length (promises s) ≤ length (promises (step s ev)))%nat.
Proof.
  destruct ev as [c|p r|p|p]; simpl.
  - unfold FullChat.fetchFullChat.
    destruct (dedupe s !! chat_id c); simpl; [done|].
    rewrite length_app. lia.
  - destruct (promises s !! p) as [[k [f|r0|r0]]|]; simpl;
      rewrite ?length_insert; done.
  - destruct (promises s !! p) as [[k [f|r0|r0]]|]; simpl;
      rewrite ?length_insert; done.
  - destruct (promises s !! p) as [[k [f|r0|r0]]|]; simpl;
      rewrite ?length_insert; done.
Qed.

Lemma promises_length_run (s : state) evs :
  (length (promises s) ≤ length (promises (run s evs)))%nat.
Proof.
  revert s. induction evs as [|ev evs IH]; intros s; simpl; [done|].
  etrans; [apply promises_length_step|apply IH].
Qed.

(** A promise that is outstanding after a step was so before it. *)
Lemma outstanding_before (s : state) ev p id :
  (p < length (promises s))%nat →
  outstanding (step s ev) p id → outstanding s p id.
Proof.
  intros Hlt (st & Hp & Hst). destruct ev as [c|q r|q|q]; simpl in Hp.
  - unfold FullChat.fetchFullChat in Hp.
    destruct (dedupe s !! chat_id c); simpl in Hp; [by exists st|].
    rewrite lookup_app_l in Hp by done. by exists st.
  - destruct (promises s !! q) as [[k [f|r0|r0]]|] eqn:Hq;
      try by exists st.
    simpl in Hp. destruct (decide (p = q)) as [->|Hne].
    + rewrite list_lookup_insert_eq in Hp by done. injection Hp as <- <-.
      by exists (Pending f).
    + rewrite list_lookup_insert_ne in Hp by done. by exists st.
  - destruct (promises s !! q) as [[k [f|r0|r0]]|] eqn:Hq;
      try by exists st.
    simpl in Hp. destruct (decide (p = q)) as [->|Hne].
    + rewrite list_lookup_insert_eq in Hp by done. injection Hp as <- <-.
      by exists (Pending f).
    + rewrite list_lookup_insert_ne in Hp by done. by exists st.
  - destruct (promises s !! q) as [[k [f|r0|r0]]|] eqn:Hq;
      try by exists st.
    simpl in Hp. destruct (decide (p = q)) as [->|Hne].
    + rewrite list_lookup_insert_eq in Hp by done. injection Hp as <- <-.
      by destruct (Hst r0).
    + rewrite list_lookup_insert_ne in Hp by done. by exists st.
Qed.

(** *** The requests of one fetch *)

Lemma follow_ups_stages (c : ApiChat) (b : bool) :
  Forall (λ s, is_follow_up s = true) (follow_ups c b).
Proof.
  unfold follow_ups.
  destruct b, (adminRights c), (negb (isNotJoined c) && isChannelType c);
    simpl; repeat constructor.
Qed.

Lemma fetch_requests_length (c : ApiChat) (b : bool) :
  (1 ≤ length (fetch_requests c b) ≤ 5)%nat.
Proof.
  unfold FullChat.fetch_requests, follow_ups.
  destruct (getEntityTypeById (chat_id c)); simpl; try lia.
  destruct b, (adminRights c), (negb (isNotJoined c) && isChannelType c);
    simpl; lia.
Qed.

Lemma fetch_requests_first (c : ApiChat) (b : bool) :
  take 1 (fetch_requests c b)
  = [request_of (chat_id c) (first_stage (chat_id c))].
Proof.
  unfold FullChat.fetch_requests, FullChat.first_stage.
  by destruct (getEntityTypeById (chat_id c)).
Qed.

(** What a pending fetch has issued is a beginning of its requests. *)
Lemma on_plan_prefix (c : ApiChat) (issued : list request) (f : fetch) :
  on_plan c issued (Pending f) →
  ∃ b n, issued = take (S n) (fetch_requests c b).
Proof.
  intros [_ [(_ & _ & ->)|(_ & _ & Hne & b & Heq)]].
  - exists false, 0%nat. by rewrite fetch_requests_first.
  - exists b, (pred (length issued)). rewrite <- Heq.
    destruct issued as [|x l]; [done|]. simpl pred.
    change (S (length l)) with (length (x :: l)).
    by rewrite take_app_length.
Qed.

Lemma on_plan_continue (c : ApiChat) (issued : list request) stages got b :
  issued ≠ [] →
  Forall (λ s, is_follow_up s = true) stages →
  issued ++ map (request_of (chat_id c)) stages = fetch_requests c b →
  on_plan c (issued ++ (continue (chat_id c) c stages got).2)
    (continue (chat_id c) c stages got).1.
Proof.
  intros Hne Hst Heq. destruct stages as [|s rest]; simpl.
  - exists b, (pred (length issued)). rewrite app_nil_r.
    rewrite app_nil_r in Heq. rewrite <- Heq.
    destruct issued as [|x l]; [done|]. simpl pred.
    change (S (length l)) with (length (x :: l)).
    by rewrite firstn_all.
  - apply Forall_cons in Hst as [Hs Hrest].
    split; [done|]. right. split; [done|]. split; [done|].
    split; [by destruct issued|].
    exists b. by rewrite <- app_assoc.
Qed.

(** A fetch that resumes stays on its plan. *)
Lemma on_plan_resume (c : ApiChat) (issued : list request) (f : fetch) r :
  on_plan c issued (Pending f) →
  on_plan c (issued ++ (resume (chat_id c) f r).2) (resume (chat_id c) f r).1.
Proof.
  intros Hplan. pose proof (on_plan_prefix c issued f Hplan) as Hpre.
  destruct Hplan as [Hc [(Hfirst & Htodo & ->)|(Hfu & Hrest & Hne & b & Heq)]].
  - unfold FullChat.resume. rewrite Hfirst, Hc.
    unfold FullChat.first_stage in *.
    destruct (getEntityTypeById (chat_id c)) eqn:Hty.
    + destruct r as [|[] cv p]; simpl; exact Hpre.
    + destruct r as [|[] cv p]; simpl; exact Hpre.
    + destruct r as [|[] cv p]; try (simpl; exact Hpre).
      apply (on_plan_continue _ _ _ _ (cv && negb (isMonoforum c)));
        [done|apply follow_ups_stages|].
      unfold FullChat.fetch_requests. by rewrite Hty.
  - unfold FullChat.resume. rewrite Hc.
    destruct (awaiting f); try done; by apply (on_plan_continue _ _ _ _ b).
Qed.

(** While the promise of a call for the chat [c] is outstanding, the
    requests issued for the chat since the call are those of its fetch. *)
Lemma requests_while_outstanding (s0 : state) (c : ApiChat) evs :
  dedupe_inv s0 →
  dedupe s0 !! chat_id c = None →
  let p1 := (fetchFullChat c s0).1 in
  let s1 := (fetchFullChat c s0).2 in
  outstanding (run s1 evs) p1 (chat_id c) →
  ∃ issued st,
    requests_for (chat_id c) (run s1 evs)
    = requests_for (chat_id c) s0 ++ issued ∧
    promises (run s1 evs) !! p1 = Some {| pkey := chat_id c; pstate := st |} ∧
    on_plan c issued st.
Proof.
  intros Hinv0 Hnone p1 s1. set (id := chat_id c) in *.
  assert (dedupe_inv s1) as Hinv1 by by apply dedupe_inv_call.
  assert (p1 = length (promises s0)) as Hp1
    by (unfold p1; by rewrite (fetchFullChat_new s0 c Hnone)).
  assert (p1 < length (promises s1))%nat as Hlt.
  { unfold s1. rewrite (fetchFullChat_new s0 c Hnone). simpl.
    rewrite length_app. simpl. lia. }
  induction evs as [|ev evs IH] using rev_ind.
  { intros _. simpl. unfold s1, p1.
    rewrite (fetchFullChat_new s0 c Hnone). simpl.
    exists [request_of id (first_stage id)]. eexists. split; [|split].
    - unfold requests_for. simpl. rewrite filter_app. f_equal.
      by rewrite filter_cons_True by apply request_of_id.
    - rewrite lookup_app_r by done. rewrite Nat.sub_diag. reflexivity.
    - split; [done|]. by left. }
  unfold FullChat.run. rewrite foldl_app. simpl. fold (run s1 evs).
  intros Hout.
  assert (p1 < length (promises (run s1 evs)))%nat as Hlt'.
  { pose proof (promises_length_run s1 evs). lia. }
  assert (outstanding (run s1 evs) p1 id) as Hout'
    by (by eapply outstanding_before).
  destruct (IH Hout') as (issued & st & Hreq & Hp & Hplan). clear IH.
  pose proof (dedupe_inv_run s1 evs Hinv1) as [Ha Hb].
  assert (dedupe (run s1 evs) !! id = Some p1) as Hd by by apply Hb.
  set (s := run s1 evs) in *.
  assert (∀ q k (f : fetch),
            promises s !! q = Some {| pkey := k; pstate := Pending f |} →
            q ≠ p1 → k ≠ id) as Hother.
  { intros q k f Hq Hne ->. apply Hne.
    assert (dedupe s !! id = Some q) as H
      by (apply Hb; by exists (Pending f)).
    congruence. }
  assert (∀ k (l : list request),
            k ≠ id → Forall (λ q, request_id q = k) l →
            filter (λ r, request_id r = id) l = []) as Hnot.
  { intros k l Hk Hl. induction Hl as [|x l Hx _ IHl]; [done|].
    rewrite filter_cons_False by congruence. exact IHl. }
  assert (∀ (l : list request),
            Forall (λ q, request_id q = id) l →
            filter (λ r, request_id r = id) l = l) as Hall.
  { intros l Hl. induction Hl as [|x l Hx _ IHl]; [done|].
    rewrite filter_cons_True by done. by rewrite IHl. }
  destruct ev as [c'|q r|q|q]; simpl.
  - destruct (dedupe s !! chat_id c') as [q|] eqn:Hd'.
    { rewrite (fetchFullChat_known s c' q Hd'). simpl. eauto. }
    rewrite (fetchFullChat_new s c' Hd'). simpl.
    assert (chat_id c' ≠ id) as Hne by (intros E; congruence).
    exists issued, st. split; [|split; [|done]].
    + unfold requests_for in *. simpl. rewrite filter_app, Hreq.
      rewrite filter_cons_False by (by rewrite request_of_id).
      by rewrite app_nil_r.
    + by apply lookup_app_l_Some.
  - destruct (promises s !! q) as [[k [f|r0|r0]]|] eqn:Hq; simpl; eauto.
    destruct (decide (q = p1)) as [->|Hne].
    + rewrite Hp in Hq. injection Hq as Hk Hst. subst k st.
      destruct (resume_spec id f r) as [_ Hreqs].
      exists (issued ++ (resume id f r).2), (resume id f r).1.
      split; [|split].
      * unfold requests_for in *. simpl. rewrite filter_app, Hreq.
        rewrite (Hall _ Hreqs). by rewrite app_assoc.
      * by apply list_lookup_insert_eq.
      * by apply on_plan_resume.
    + destruct (resume_spec k f r) as [_ Hreqs].
      exists issued, st. split; [|split; [|done]].
      * unfold requests_for in *. simpl. rewrite filter_app, Hreq.
        rewrite (Hnot k _ (Hother _ _ _ Hq Hne) Hreqs). by rewrite app_nil_r.
      * by rewrite list_lookup_insert_ne.
  - destruct (promises s !! q) as [[k [f|r0|r0]]|] eqn:Hq; simpl; eauto.
    destruct (decide (q = p1)) as [->|Hne].
    + rewrite Hp in Hq. injection Hq as Hk Hst. subst k st.
      exists issued, (Settled Rejected). split; [done|]. split.
      * by apply list_lookup_insert_eq.
      * by apply (on_plan_prefix c issued f).
    + exists issued, st. split; [done|]. split; [|done].
      by rewrite list_lookup_insert_ne.
  - destruct (promises s !! q) as [[k [f|r0|r0]]|] eqn:Hq; simpl; eauto.
    destruct (decide (q = p1)) as [->|Hne].
    + rewrite Hp in Hq. injection Hq as Hk Hst. subst k st.
      exists issued, (Done r0). split; [done|]. split; [|done].
      by apply list_lookup_insert_eq.
    + exists issued, st. split; [done|]. split; [|done].
      by rewrite list_lookup_insert_ne.
Qed.

(** C2.  Take a state in which no call for the chat is outstanding, a first
    call of [fetchFullChat] for it, any events after it, and a second call
    for the same chat made while the promise of the first is outstanding.
    The second call returns the promise of the first and changes nothing:
    it issues no request.  The requests issued for the chat since the first
    call are those of one fetch, in their order: the one request of
    [getFullChatInfo], or the first requests of [getFullChannelInfo], which
    sends [GetFullChannel] and then up to four requests for the members.
    Both callers receive what the promise settles with, and no other promise
    for the chat is outstanding.  When the promise has settled and its
    [finally] reaction runs, the key is gone from the map, and the next call
    for the chat starts a new fetch. *)
Theorem fetchFullChat_dedupe (pre mid : list event) (c c' : ApiChat) :
  let id := chat_id c in
  chat_id c' = id →
  let s0 := run init pre in
  dedupe s0 !! id = None →
  let p1 := (fetchFullChat c s0).1 in
  let s1 := (fetchFullChat c s0).2 in
  let s2 := run s1 mid in
  outstanding s2 p1 id →
  let p2 := (fetchFullChat c' s2).1 in
  let s3 := (fetchFullChat c' s2).2 in
  p2 = p1 ∧ s3 = s2 ∧
  (∃ canLoadParticipants n,
     requests_for id s3
     = requests_for id s0 ++ take (S n) (fetch_requests c canLoadParticipants)) ∧
  (length (requests_for id s0) < length (requests_for id s3)
   ≤ length (requests_for id s0) + 5)%nat ∧
  (getEntityTypeById id ≠ EChannel →
   requests_for id s3 = requests_for id s0 ++ [GetFullChat id]) ∧
  (∀ s : state, received s p2 = received s p1) ∧
  (∀ q, outstanding s3 q id → q = p1) ∧
  ∀ (post : list event) r c'',
    chat_id c'' = id →
    let s4 := run s3 post in
    promises s4 !! p1 = Some {| pkey := id; pstate := Settled r |} →
    let s5 := step s4 (Finally p1) in
    dedupe s5 !! id = None ∧
    received s5 p1 = Some r ∧
    let p6 := (fetchFullChat c'' s5).1 in
    let s6 := (fetchFullChat c'' s5).2 in
    p6 ≠ p1 ∧ dedupe s6 !! id = Some p6 ∧
    network s6 = network s5 ++ [request_of id (first_stage id)].
Proof.
  intros id Hid s0 Hnone p1 s1 s2 Hout p2 s3.
  assert (dedupe_inv s0) as Hinv0 by apply dedupe_inv_run, dedupe_inv_init.
  assert (dedupe_inv s1) as Hinv1 by by apply dedupe_inv_call.
  assert (dedupe_inv s2) as Hinv2 by by apply dedupe_inv_run.
  assert (dedupe s2 !! chat_id c' = Some p1) as Hd2
    by (rewrite Hid; by apply Hinv2).
  assert (fetchFullChat c' s2 = (p1, s2)) as Hcall2
    by by apply fetchFullChat_known.
  assert (p2 = p1) as -> by (unfold p2; by rewrite Hcall2).
  assert (s3 = s2) as -> by (unfold s3; by rewrite Hcall2).
  destruct (requests_while_outstanding s0 c mid Hinv0 Hnone Hout)
    as (issued & st & Hreq & Hp & Hplan).
  fold id s1 s2 p1 in Hreq, Hp.
  assert (∃ b n, issued = take (S n) (fetch_requests c b)) as (b & n & Hissued).
  { destruct st as [f|r0|r0]; [by eapply on_plan_prefix|exact Hplan..]. }
  split; [done|]. split; [done|]. split; [|split; [|split; [|split; [done|split]]]].
  - exists b, n. by rewrite Hreq, Hissued.
  - rewrite Hreq, Hissued, length_app, length_take.
    pose proof (fetch_requests_length c b). lia.
  - intros Hty. rewrite Hreq, Hissued. f_equal.
    unfold FullChat.fetch_requests. fold id.
    by destruct (getEntityTypeById id); simpl; rewrite ?take_nil.
  - intros q Hq. apply Hinv2 in Hq. rewrite <- Hid in Hq. congruence.
  - intros post r c'' Hid'' s4 Hp4 s5.
    assert (s5 = {| dedupe := delete id (dedupe s4);
                    promises := <[p1 := {| pkey := id; pstate := Done r |}]>
                                  (promises s4);
                    network := network s4 |}) as Hs5.
    { unfold s5. simpl. by rewrite Hp4. }
    assert (p1 < length (promises s4))%nat as Hlt4
      by by apply lookup_lt_Some in Hp4.
    assert (dedupe s5 !! id = None) as Hd5.
    { rewrite Hs5. simpl. apply lookup_delete_eq. }
    split; [done|]. split.
    { unfold received. rewrite Hs5. simpl.
      by rewrite list_lookup_insert_eq. }
    rewrite <- Hid'' in Hd5.
    rewrite (fetchFullChat_new s5 c'' Hd5). simpl. rewrite Hid''.
    split; [|split; [|done]].
    + rewrite Hs5. simpl. rewrite length_insert. lia.
    + apply lookup_insert_eq.
Qed.

End DedupeFacts.

(** C2, as the specification states it, fails: the fetch of a channel whose
    participants can be viewed goes on to request the members while its
    promise is outstanding, so two calls issue more than one request. *)
Lemma fetchFullChat_channel_requests_members :
  ¬ one_request_for_two_calls nat nat (λ _, EChannel) (λ n, n) (λ l, length l)
      [] [Reply 0%nat (Result true true 7%nat)]
      {| chat_id := "c"; adminRights := false; isMonoforum := false;
         isNotJoined := false; isChannelType := true |}.
Proof.
  intros H. specialize (H eq_refl).
  assert (outstanding
            (run nat nat (λ _, EChannel) (λ n, n) (λ l, length l)
               (fetchFullChat nat nat (λ _, EChannel)
                  {| chat_id := "c"; adminRights := false;
                     isMonoforum := false; isNotJoined := false;
                     isChannelType := true |}
                  (run nat nat (λ _, EChannel) (λ n, n) (λ l, length l)
                     (init nat nat) [])).2
               [Reply 0%nat (Result true true 7%nat)]) 0%nat "c") as Hout.
  { eexists. split; [reflexivity|]. intros r. discriminate. }
  specialize (H Hout). vm_compute in H. discriminate H.
Qed.

Lemma fetchFullChat_dedupe_witness :
  let c := {| chat_id := "b"; adminRights := true; isMonoforum := false;
              isNotJoined := false; isChannelType := true |} in
  let fetch := fetchFullChat nat nat (λ _, EChannel) in
  let run := run nat nat (λ _, EChannel) (λ n, n) (λ l, length l) in
  let s0 := run (init nat nat) [Call c; Fail 0%nat; Finally 0%nat] in
  let s2 := run (fetch c s0).2
              [Reply 1%nat (Result true true 7%nat); Reply 1%nat NoResult] in
  dedupe s0 !! "b" = None ∧
  outstanding s2 1%nat "b" ∧
  fetch c s2 = (1%nat, s2) ∧
  requests_for "b" s2 =
    [GetFullChannel "b"; GetFullChannel "b"; GetParticipants "b" Recent;
     GetParticipants "b" Kicked].
Proof.
  intros c fetch run s0 s2.
  assert (dedupe s0 !! "b" = None) as H0 by reflexivity.
  assert (outstanding s2 1%nat "b") as H2.
  { eexists. split; [reflexivity|]. intros r. discriminate. }
  split; [exact H0|]. split; [exact H2|].
  destruct (fetchFullChat_dedupe nat nat (λ _, EChannel) (λ n, n)
              (λ l, length l) [Call c; Fail 0%nat; Finally 0%nat]
              [Reply 1%nat (Result true true 7%nat); Reply 1%nat NoResult]
              c c eq_refl H0 H2)
    as (Hp & Hs & _).
  split; [|reflexivity].
  apply injective_projections; [exact Hp|exact Hs].
Defined.

End FullChatFacts.

(** * Properties of the update sequencer *)

Module SequencerFacts.
Import Sequencer.

Lemma ordered_weaken (base : Z) (cps cps' : list Z) (st : state) :
  (∀ c, c ∈ cps → c ∈ cps') → ordered base cps st → ordered base cps' st.
Proof.
  intros Hsub [H1 H2 H3 H4]. split; try done.
  intros s Hs. destruct (H4 s Hs) as [?|(c & Hc & ?)]; [by left|right].
  exists c. auto.
Qed.

(** Applying the update that follows [lastAppliedSeq] keeps the order. *)
Lemma ordered_apply (base : Z) (cps : list Z) (st : state) (u : update) :
  seq u = lastAppliedSeq st + 1 →
  ordered base cps st → ordered base cps (apply u st).
Proof.
  intros Hu [H1 H2 H3 H4].
  split; unfold delivered_seqs in *; simpl; rewrite ?map_app; simpl.
  - apply StronglySorted_app_2; [|done|repeat constructor].
    intros x y Hx Hy. apply list_elem_of_singleton in Hy. subst y.
    specialize (H2 x Hx). lia.
  - intros s Hs. apply elem_of_app in Hs as [Hs|Hs].
    + specialize (H2 s Hs). lia.
    + apply list_elem_of_singleton in Hs. lia.
  - lia.
  - intros s Hs. destruct (decide (s = seq u)) as [->|Hne].
    + left. apply elem_of_app. right. by apply list_elem_of_singleton.
    + destruct (H4 s) as [?|?]; [lia| |by right].
      left. apply elem_of_app. by left.
Qed.

(** Chain-applying with enough fuel closes every gap that can close. *)
Lemma chain_apply_spec (base : Z) (cps : list Z) (fuel : nat) (st : state) :
  ordered base cps st →
  (length (filter (λ u, (lastAppliedSeq st < seq u)%Z) (buffer st)) ≤ fuel)%nat →
  let st' := chain_apply fuel st in
  ordered base cps st' ∧ gap_open st' ∧
  lastAppliedSeq st <= lastAppliedSeq st' ∧
  (∃ more, delivered st' = delivered st ++ more) ∧
  (∀ v, v ∈ buffer st → v ∈ buffer st' ∨ seq v <= lastAppliedSeq st') ∧
  (∀ v, v ∈ buffer st' → v ∈ buffer st).
Proof.
  revert st. induction fuel as [|fuel IH]; intros st Hord Hlen.
  - simpl.
    assert (filter (λ u, lastAppliedSeq st < seq u) (buffer st) = []) as Hnil.
    { apply nil_length_inv. lia. }
    rewrite Hnil.
    split; [by destruct Hord|]. split; [by intros u Hu%elem_of_nil|].
    split; [done|]. split; [by exists []; rewrite app_nil_r|]. split.
    + intros v Hv. right.
      destruct (decide (lastAppliedSeq st < seq v)) as [Hlt|]; [|lia].
      assert (v ∈ filter (λ u, lastAppliedSeq st < seq u) (buffer st)) as Hin
        by by apply list_elem_of_filter.
      rewrite Hnil in Hin. by apply elem_of_nil in Hin.
    + by intros v Hv%elem_of_nil.
  - simpl. set (kept := filter (λ u, lastAppliedSeq st < seq u) (buffer st)) in *.
    destruct (find _ kept) as [u|] eqn:Hfind.
    + apply find_some in Hfind as [Hin Hu]. apply list_elem_of_In in Hin.
      apply Z.eqb_eq in Hu.
      set (st1 := {| lastAppliedSeq := lastAppliedSeq st; buffer := kept;
                     delivered := delivered st |}).
      assert (ordered base cps st1) as Hord1 by by destruct Hord.
      pose proof (ordered_apply base cps st1 u Hu Hord1) as Hord2.
      destruct (IH (apply u st1) Hord2) as (Ho & Hg & Hl & [more Hd] & Hk & Hb).
      { simpl. rewrite Hu.
        assert (length (filter (λ v, (lastAppliedSeq st + 1 < seq v)%Z) kept)
                < length kept)%nat; [|lia].
        apply (length_filter_lt _ _ u); [done|lia]. }
      simpl in Hl, Hd, Hk, Hb.
      split; [done|]. split; [done|]. split; [lia|]. split; [|split].
      * exists (u :: more). by rewrite Hd, <- app_assoc.
      * intros v Hv.
        destruct (decide (lastAppliedSeq st < seq v)) as [Hlt|]; [|right; lia].
        apply Hk. by apply list_elem_of_filter.
      * intros v Hv. apply Hb in Hv. by apply list_elem_of_filter in Hv as [_ ?].
    + split; [by destruct Hord|]. split; [|split; [done|split; [|split]]].
      * intros v Hv. simpl in *.
        pose proof (find_none _ _ Hfind v) as Hne.
        apply list_elem_of_In in Hv as Hv'. specialize (Hne Hv').
        apply Z.eqb_neq in Hne.
        apply list_elem_of_filter in Hv as [Hlt _]. lia.
      * exists []. by rewrite app_nil_r.
      * intros v Hv. simpl.
        destruct (decide (lastAppliedSeq st < seq v)) as [Hlt|]; [|right; lia].
        left. by apply list_elem_of_filter.
      * intros v Hv. simpl in Hv. by apply list_elem_of_filter in Hv as [_ ?].
Qed.

Lemma flush_spec (base : Z) (cps : list Z) (st : state) :
  ordered base cps st →
  let st' := flush st in
  ordered base cps st' ∧ gap_open st' ∧
  lastAppliedSeq st <= lastAppliedSeq st' ∧
  (∃ more, delivered st' = delivered st ++ more) ∧
  (∀ v, v ∈ buffer st → v ∈ buffer st' ∨ seq v <= lastAppliedSeq st') ∧
  (∀ v, v ∈ buffer st' → v ∈ buffer st).
Proof.
  intros Hord. apply chain_apply_spec; [done|]. apply length_filter.
Qed.

(** The rule of ingestion, case by case. *)
Lemma ingest_next (st : state) (u : update) :
  seq u = lastAppliedSeq st + 1 → ingest u st = flush (apply u st).
Proof. intros H. unfold ingest. by rewrite (proj2 (Z.eqb_eq _ _) H). Qed.

Lemma ingest_duplicate (st : state) (u : update) :
  seq u <= lastAppliedSeq st → ingest u st = st.
Proof.
  intros H. unfold ingest.
  rewrite (proj2 (Z.eqb_neq _ _)) by lia. by rewrite (proj2 (Z.leb_le _ _) H).
Qed.

Lemma ingest_gap (st : state) (u : update) :
  lastAppliedSeq st + 1 < seq u →
  ingest u st = {| lastAppliedSeq := lastAppliedSeq st;
                   buffer := buffer st ++ [u];
                   delivered := delivered st |}.
Proof.
  intros H. unfold ingest.
  rewrite (proj2 (Z.eqb_neq _ _)) by lia.
  by rewrite (proj2 (Z.leb_gt _ _)) by lia.
Qed.

(** One event keeps the invariant and the account of every sequence number. *)
Lemma step_spec (base : Z) (cps : list Z) (st : state) (ev : event) :
  ordered base cps st → gap_open st →
  checkpoints_ahead st [ev] = true →
  let st' := step st ev in
  let cps' := cps ++ checkpoints [ev] in
  ordered base cps' st' ∧ gap_open st' ∧
  (∀ s, accounted cps st s → accounted cps' st' s) ∧
  (∀ u, ev = Ingest u → base < seq u → accounted cps' st' (seq u)).
Proof.
  intros Hord Hgap Hahead st' cps'.
  assert (∀ st1, ordered base cps' st1 →
            (∀ s, s ∈ delivered_seqs st → s ∈ delivered_seqs st1) →
            (∀ v, v ∈ buffer st → v ∈ buffer st1 ∨ seq v <= lastAppliedSeq st1) →
            ∀ s, accounted cps st s → accounted cps' st1 s) as Hkeep.
  { intros st1 Hord1 Hdel Hbuf s [Hs|[(v & Hv & <-)|(c & Hc & Hs)]].
    - left. auto.
    - destruct (Hbuf v Hv) as [?|Hle]; [right; left; eauto|].
      pose proof (Hgap v Hv). pose proof (ord_base _ _ _ Hord).
      destruct (ord_covered _ _ _ Hord1 (seq v)) as [?|?]; [lia|by left|].
      by right; right.
    - right; right. exists c. split; [|done]. apply elem_of_app. by left. }
  destruct ev as [u|c]; subst st' cps'; simpl in Hkeep |- *.
  - rewrite app_nil_r in Hkeep |- *.
    destruct (Z.lt_trichotomy (seq u) (lastAppliedSeq st + 1)) as [Hlt|[Heq|Hgt]].
    + rewrite ingest_duplicate by lia.
      split; [done|]. split; [done|]. split; [done|].
      intros u' [= <-] Hb.
      destruct (ord_covered _ _ _ Hord (seq u)) as [?|?]; [lia|by left|].
      by right; right.
    + rewrite ingest_next by done.
      destruct (flush_spec base cps (apply u st)) as (Ho & Hg & Hl & [more Hd] & Hk & Hb).
      { by apply ordered_apply. }
      simpl in Hd, Hk.
      assert (∀ s, s ∈ delivered_seqs st ++ [seq u] →
                   s ∈ delivered_seqs (flush (apply u st))) as Hdel.
      { intros s Hs. unfold delivered_seqs. rewrite Hd, !map_app. simpl.
        apply elem_of_app. by left. }
      split; [done|]. split; [done|]. split.
      * apply Hkeep; [done| |done]. intros s Hs. apply Hdel.
        apply elem_of_app. by left.
      * intros u' [= <-] _. left. apply Hdel. apply elem_of_app. right.
        by apply list_elem_of_singleton.
    + rewrite ingest_gap by done. split; [|split; [|split]].
      * by destruct Hord.
      * intros v Hv. simpl in *. apply elem_of_app in Hv as [Hv|Hv]; [by apply Hgap|].
        apply list_elem_of_singleton in Hv. by subst.
      * apply Hkeep; [by destruct Hord|done|].
        intros v Hv. left. simpl. apply elem_of_app. by left.
      * intros u' [= <-] _. right; left. exists u. split; [|done].
        simpl. apply elem_of_app. right. by apply list_elem_of_singleton.
  - simpl in Hahead. rewrite andb_true_r in Hahead. apply Z.leb_le in Hahead.
    set (st1 := {| lastAppliedSeq := c; buffer := buffer st;
                   delivered := delivered st |}).
    set (cps' := cps ++ [c]) in *.
    assert (ordered base cps' st1) as Hord1.
    { destruct Hord as [H1 H2 H3 H4]. split; simpl; [done| | |].
      - intros s Hs. specialize (H2 s Hs). lia.
      - lia.
      - intros s Hs. destruct (decide (s <= lastAppliedSeq st)).
        + destruct (H4 s) as [?|(c' & ? & ?)]; [lia|by left|right].
          exists c'. split; [|done]. apply elem_of_app. by left.
        + right. exists c. split; [|lia]. apply elem_of_app. right.
          by apply list_elem_of_singleton. }
    destruct (flush_spec base cps' st1 Hord1) as (Ho & Hg & Hl & [more Hd] & Hk & Hb).
    change (catch_up c st) with (flush st1). simpl in Hd, Hk.
    split; [done|]. split; [done|]. split; [|done].
    apply Hkeep; [done| |done].
    intros s Hs. unfold delivered_seqs. rewrite Hd, map_app.
    apply elem_of_app. by left.
Qed.

Lemma checkpoints_ahead_cons (st : state) (ev : event) (evs : list event) :
  checkpoints_ahead st (ev :: evs) = true →
  checkpoints_ahead st [ev] = true ∧ checkpoints_ahead (step st ev) evs = true.
Proof.
  simpl. intros H. apply andb_true_iff in H as [H1 H2].
  by rewrite H1, H2.
Qed.

(** A run keeps the invariant and accounts for every update it ingests. *)
Lemma run_spec (base : Z) (evs : list event) (cps : list Z) (st : state) :
  ordered base cps st → gap_open st →
  checkpoints_ahead st evs = true →
  let st' := run st evs in
  let cps' := cps ++ checkpoints evs in
  ordered base cps' st' ∧ gap_open st' ∧
  (∀ s, accounted cps st s → accounted cps' st' s) ∧
  (∀ u, Ingest u ∈ evs → base < seq u → accounted cps' st' (seq u)).
Proof.
  revert cps st. induction evs as [|ev evs IH]; intros cps st Hord Hgap Hahead.
  { simpl. rewrite app_nil_r. split; [done|]. split; [done|]. split; [done|].
    by intros u Hu%elem_of_nil. }
  apply checkpoints_ahead_cons in Hahead as [Hev Hevs].
  destruct (step_spec base cps st ev Hord Hgap Hev) as (Ho & Hg & Hacc & Hin).
  destruct (IH _ _ Ho Hg Hevs) as (Ho' & Hg' & Hacc' & Hin').
  assert ((cps ++ checkpoints [ev]) ++ checkpoints evs
          = cps ++ checkpoints (ev :: evs)) as Hcps.
  { rewrite <- app_assoc. f_equal. by destruct ev. }
  rewrite Hcps in *. simpl.
  split; [done|]. split; [done|]. split; [by auto|].
  intros u Hu Hb. apply elem_of_cons in Hu as [<-|Hu]; [|by auto].
  apply Hacc'. by apply Hin.
Qed.

Lemma ordered_init (base : Z) : ordered base [] (init base).
Proof.
  split; simpl; [constructor| |done|].
  - by intros s Hs%elem_of_nil.
  - intros s Hs. lia.
Qed.

(** In a strictly increasing list a number occurs once or not at all. *)
Lemma sorted_count (l : list Z) (s : Z) :
  StronglySorted Z.lt l →
  length (filter (λ x, x = s) l) = if decide (s ∈ l) then 1%nat else 0%nat.
Proof.
  induction 1 as [|x l Hl IH Hx]; [done|].
  rewrite filter_cons. destruct (decide (x = s)) as [->|Hne].
  - rewrite decide_True by by left. simpl. f_equal.
    rewrite IH. rewrite decide_False; [done|].
    rewrite Forall_forall in Hx. intros Hs%Hx. lia.
  - rewrite IH. destruct (decide (s ∈ l)).
    + rewrite decide_True; [done|]. by right.
    + rewrite decide_False; [done|]. intros [?|?]%elem_of_cons; done.
Qed.

Lemma elem_of_checkpoints (evs : list event) (c : Z) :
  c ∈ checkpoints evs ↔ CatchUp c ∈ evs.
Proof.
  unfold checkpoints. rewrite list_elem_of_omap. split.
  - intros ([u|c'] & Hin & Hc); [done|]. by injection Hc as ->.
  - intros H. by exists (CatchUp c).
Qed.

(** C1.  For a scope that starts at [base] and a run of ingested updates and
    catch-up responses whose checkpoints never fall behind [lastAppliedSeq]:
    the sequence numbers delivered increase strictly (so they are in
    non-decreasing order without duplicates); an ingested update that follows
    [lastAppliedSeq] is delivered at once and advances it, one at or below it
    is discarded, one beyond the next is buffered and not delivered; and every
    ingested update above [base] is either delivered exactly once, or not
    delivered and at or below a catch-up checkpoint of the run, or not
    delivered and still buffered behind an open gap. *)
Theorem delivery_in_order (base : Z) (evs : list event) :
  checkpoints_ahead (init base) evs = true →
  let st := run (init base) evs in
  StronglySorted Z.lt (delivered_seqs st) ∧
  (∀ s (u : update),
     (seq u = lastAppliedSeq s + 1 →
        (∃ more, delivered (ingest u s) = delivered s ++ u :: more) ∧
        seq u <= lastAppliedSeq (ingest u s)) ∧
     (seq u <= lastAppliedSeq s → ingest u s = s) ∧
     (lastAppliedSeq s + 1 < seq u →
        delivered (ingest u s) = delivered s ∧
        buffer (ingest u s) = buffer s ++ [u] ∧
        lastAppliedSeq (ingest u s) = lastAppliedSeq s)) ∧
  (∀ u, u ∈ buffer st →
        lastAppliedSeq st + 1 < seq u ∧ times_delivered (seq u) st = 0%nat) ∧
  (∀ u, Ingest u ∈ evs → base < seq u →
     times_delivered (seq u) st = 1%nat ∨
     (times_delivered (seq u) st = 0%nat ∧
      ∃ c, CatchUp c ∈ evs ∧ seq u <= c) ∨
     (times_delivered (seq u) st = 0%nat ∧
      ∃ v, v ∈ buffer st ∧ seq v = seq u)).
Proof.
  intros Hahead st.
  destruct (run_spec base evs [] (init base) (ordered_init base))
    as (Hord & Hgap & _ & Hacc); [by intros u Hu%elem_of_nil|done|].
  fold st in Hord, Hgap, Hacc. simpl in Hord, Hacc.
  pose proof (ord_sorted _ _ _ Hord) as Hsorted.
  assert (∀ u, u ∈ buffer st → times_delivered (seq u) st = 0%nat) as Hnot.
  { intros u Hu. unfold times_delivered. rewrite sorted_count by done.
    rewrite decide_False; [done|]. intros Hin.
    pose proof (ord_range _ _ _ Hord _ Hin). pose proof (Hgap u Hu). lia. }
  split; [done|]. split; [|split].
  - intros s u. split; [|split].
    + intros Hu. rewrite ingest_next by done.
      unfold flush.
      set (n := length (buffer (apply u s))).
      assert (∀ fuel st1,
                (∃ more, delivered (chain_apply fuel st1) = delivered st1 ++ more) ∧
                lastAppliedSeq st1 <= lastAppliedSeq (chain_apply fuel st1)) as Hchain.
      { clear. induction fuel as [|fuel IH]; intros st1; simpl.
        - split; [by exists []; rewrite app_nil_r|done].
        - destruct (find _ _) as [v|] eqn:Hf; simpl.
          + apply find_some in Hf as [_ Hv]. apply Z.eqb_eq in Hv.
            match goal with |- context [chain_apply fuel ?s] =>
              destruct (IH s) as [[more Hd] Hl] end.
            simpl in Hd, Hl. split; [|lia].
            exists (v :: more). by rewrite Hd, <- app_assoc.
          + split; [by exists []; rewrite app_nil_r|done]. }
      destruct (Hchain n (apply u s)) as [[more Hd] Hl]. simpl in Hd, Hl.
      split; [|done]. exists more. by rewrite Hd, <- app_assoc.
    + apply ingest_duplicate.
    + intros Hu. by rewrite ingest_gap.
  - intros u Hu. split; [by apply Hgap|by apply Hnot].
  - intros u Hu Hb. unfold times_delivered. rewrite sorted_count by done.
    destruct (decide (seq u ∈ delivered_seqs st)) as [|Hout]; [by left|right].
    destruct (Hacc u Hu Hb) as [?|[(v & Hv & Hs)|(c & Hc & Hs)]]; [done| |].
    + right. split; [done|]. eauto.
    + left. split; [done|]. exists c. split; [|done].
      by apply elem_of_checkpoints.
Qed.

Lemma delivery_in_order_witness :
  let upd n := {| seq := n; body := "" |} in
  let evs := [Ingest (upd 1); Ingest (upd 2); Ingest (upd 4); Ingest (upd 5);
              Ingest (upd 4); Ingest (upd 3); Ingest (upd 9); CatchUp 7;
              Ingest (upd 6); Ingest (upd 8)] in
  checkpoints_ahead (init 0) evs = true ∧
  delivered_seqs (run (init 0) evs) = [1; 2; 3; 4; 5; 8; 9] ∧
  StronglySorted Z.lt (delivered_seqs (run (init 0) evs)).
Proof.
  intros upd evs.
  split; [reflexivity|]. split; [reflexivity|].
  exact (proj1 (delivery_in_order 0 evs eq_refl)).
Defined.

End SequencerFacts.

(** * Properties of the affected-history loop *)

Module TopicsFacts.
Import Topics.

Section DeleteTopicFacts.

Variable invokeRequest : nat → option AffectedHistory.

Local Abbreviation deleteTopic := (deleteTopic invokeRequest).
Local Abbreviation last_request := (last_request invokeRequest).
Local Abbreviation offsets_decrease := (offsets_decrease invokeRequest).
Local Abbreviation offsets_reach_zero := (offsets_reach_zero invokeRequest).

(** The results of the first [n] requests that [processAffectedHistory]
    receives. *)
Local Abbreviation results n := (omap invokeRequest (seq 0 n)).

Lemma last_request_dec (n : nat) : Decision (last_request n).
Proof.
  unfold Topics.last_request. destruct (invokeRequest n); apply _.
Qed.

(** Below any bound, either no request ends the loop or a first one does. *)
Lemma first_last_request_below (n : nat) :
  (∀ i, (i < n)%nat → ¬ last_request i) ∨
  ∃ m, (m < n)%nat ∧ last_request m ∧ ∀ i, (i < m)%nat → ¬ last_request i.
Proof.
  induction n as [|n [IH|IH]].
  - left. intros i Hi. lia.
  - destruct (last_request_dec n) as [Hn|Hn].
    + right. exists n. split; [lia|done].
    + left. intros i Hi. destruct (decide (i = n)) as [->|]; [done|].
      apply IH. lia.
  - right. destruct IH as (m & Hm & H). exists m. split; [lia|done].
Qed.

(** If some request ends the loop, a first one does. *)
Lemma first_last_request (n : nat) :
  last_request n →
  ∃ m, (m ≤ n)%nat ∧ last_request m ∧ ∀ i, (i < m)%nat → ¬ last_request i.
Proof.
  intros Hn. destruct (first_last_request_below (S n)) as [Hno|(m & Hm & H)].
  - destruct (Hno n); [lia|done].
  - exists m. split; [lia|done].
Qed.

(** Offsets that decrease reach zero, within as many requests as the first
    offset counts. *)
Lemma decrease_reaches_zero (n : nat) (r : AffectedHistory) :
  offsets_decrease → invokeRequest n = Some r → 0 <= offset r →
  ∃ m, (n ≤ m ≤ n + Z.to_nat (offset r))%nat ∧ last_request m.
Proof.
  intros Hdec. remember (Z.to_nat (offset r)) as k eqn:Hk.
  revert n r Hk. induction k as [k IH] using lt_wf_ind. intros n r Hk Hn Hpos.
  destruct (decide (offset r = 0)) as [Hz|Hnz].
  { exists n. split; [lia|]. unfold Topics.last_request. by rewrite Hn. }
  destruct (Hdec n r Hn Hnz) as [Hgt Hnext].
  destruct (invokeRequest (S n)) as [r'|] eqn:Hn'.
  - specialize (Hnext r' eq_refl).
    destruct (IH (Z.to_nat (offset r')) ltac:(lia) (S n) r' eq_refl Hn' ltac:(lia))
      as (m & Hm & Hl).
    exists m. split; [lia|done].
  - exists (S n). split; [lia|]. unfold Topics.last_request. by rewrite Hn'.
Qed.

Lemma results_S (n : nat) :
  results (S n) = results n ++ match invokeRequest n with
                               | Some r => [r]
                               | None => []
                               end.
Proof.
  rewrite seq_S, omap_app. simpl. by destruct (invokeRequest n).
Qed.

Lemma deleteTopic_S (fuel : nat) (w : world) :
  deleteTopic (S fuel) w =
  match invokeRequest (sent w) with
  | None => Some {| sent := S (sent w); processed := processed w |}
  | Some result =>
      let w2 := {| sent := S (sent w); processed := processed w ++ [result] |} in
      if negb (offset result =? 0) then deleteTopic fuel w2 else Some w2
  end.
Proof. reflexivity. Qed.

(** From the [k]-th request on, the loop runs to the first request that ends
    it, and no further. *)
Lemma deleteTopic_from (n k fuel : nat) :
  last_request n → (∀ i, (i < n)%nat → ¬ last_request i) →
  (k ≤ n)%nat → (n - k < fuel)%nat →
  deleteTopic fuel {| sent := k; processed := results k |}
  = Some {| sent := S n; processed := results (S n) |}.
Proof.
  intros Hlast Hfirst. revert k. induction fuel as [|fuel IH]; intros k Hk Hfuel.
  { lia. }
  rewrite deleteTopic_S. cbn [sent processed].
  destruct (decide (k = n)) as [->|Hne].
  - rewrite (results_S n). unfold Topics.last_request in Hlast.
    destruct (invokeRequest n) as [r|]; [|by rewrite app_nil_r].
    rewrite Hlast. reflexivity.
  - assert (¬ last_request k) as Hnl by (apply Hfirst; lia).
    unfold Topics.last_request in Hnl.
    destruct (invokeRequest k) as [r|] eqn:Hr; [|done].
    rewrite (proj2 (Z.eqb_neq _ _) Hnl). cbn [negb].
    rewrite <- (IH (S k)) by lia. rewrite (results_S k), Hr. reflexivity.
Qed.

(** With too little fuel the loop has not returned. *)
Lemma deleteTopic_short (n k fuel : nat) (log : list AffectedHistory) :
  (∀ i, (i < n)%nat → ¬ last_request i) →
  (k + fuel ≤ n)%nat →
  deleteTopic fuel {| sent := k; processed := log |} = None.
Proof.
  intros Hfirst. revert k log. induction fuel as [|fuel IH]; intros k log Hk.
  { done. }
  rewrite deleteTopic_S. cbn [sent processed].
  assert (¬ last_request k) as Hnl by (apply Hfirst; lia).
  unfold Topics.last_request in Hnl.
  destruct (invokeRequest k) as [r|] eqn:Hr; [|done].
  rewrite (proj2 (Z.eqb_neq _ _) Hnl). cbn [negb]. apply IH. lia.
Qed.

(** C7.  When the offsets reported decrease strictly, or some request fails
    or reports the offset zero, [deleteTopic] returns: there is a first
    request [n] that ends the loop, every request before it reported an
    offset other than zero and was followed by another request, the run sends
    [n + 1] requests and hands every result to [processAffectedHistory] in
    order, and, when the offsets decrease, [n] is at most the first offset
    reported. *)
Theorem deleteTopic_terminates :
  offsets_decrease ∨ offsets_reach_zero →
  ∃ n, last_request n ∧
    (∀ i, (i < n)%nat → ∃ r, invokeRequest i = Some r ∧ offset r ≠ 0) ∧
    (∀ fuel, (n < fuel)%nat →
       deleteTopic fuel start
       = Some {| sent := S n; processed := results (S n) |}) ∧
    (∀ fuel, (fuel ≤ n)%nat → deleteTopic fuel start = None) ∧
    (offsets_decrease →
     ∀ r, invokeRequest 0 = Some r → (n ≤ Z.to_nat (offset r))%nat).
Proof.
  intros H.
  assert (∃ m, last_request m) as (m & Hm).
  { destruct H as [Hdec|[m Hm]]; [|by exists m].
    destruct (invokeRequest 0) as [r|] eqn:H0.
    - assert (0 <= offset r) as Hpos.
      { destruct (decide (offset r = 0)) as [->|Hnz]; [done|].
        destruct (Hdec 0%nat r H0 Hnz). lia. }
      destruct (decrease_reaches_zero 0 r Hdec H0 Hpos) as (m & _ & Hl).
      by exists m.
    - exists 0%nat. unfold Topics.last_request. by rewrite H0. }
  destruct (first_last_request m Hm) as (n & Hle & Hn & Hfirst).
  exists n. split; [done|]. split; [|split; [|split]].
  - intros i Hi. specialize (Hfirst i Hi). unfold Topics.last_request in Hfirst.
    destruct (invokeRequest i) as [r|]; [|done]. by exists r.
  - intros fuel Hfuel. apply (deleteTopic_from n 0 fuel); [done|done|lia|lia].
  - intros fuel Hfuel. by apply (deleteTopic_short n 0 fuel []).
  - intros Hdec r H0.
    assert (0 <= offset r) as Hpos.
    { destruct (decide (offset r = 0)) as [->|Hnz]; [done|].
      destruct (Hdec 0%nat r H0 Hnz). lia. }
    destruct (decrease_reaches_zero 0 r Hdec H0 Hpos) as (m' & Hm' & Hl).
    destruct (decide (n ≤ m')%nat) as [|Hgt]; [lia|].
    destruct (Hfirst m'); [lia|done].
Qed.

End DeleteTopicFacts.

Lemma deleteTopic_terminates_witness :
  let server (n : nat) :=
    Some {| pts := 100 + Z.of_nat n; ptsCount := 1;
            offset := Z.max 0 (3 - Z.of_nat n) |} in
  offsets_decrease server ∧
  ∃ n, last_request server n ∧
       deleteTopic server (S n) (start) =
       Some {| sent := S n; processed := omap server (seq 0 (S n)) |}.
Proof.
  intros server.
  assert (offsets_decrease server) as Hdec.
  { intros n r [= <-] Hnz. simpl in *. split; [lia|].
    intros r' [= <-]. simpl. lia. }
  split; [exact Hdec|].
  destruct (deleteTopic_terminates server (or_introl Hdec))
    as (n & Hlast & _ & Hrun & _).
  exists n. split; [exact Hlast|]. apply Hrun. lia.
Defined.

End TopicsFacts.


(** * Properties of the chat list methods *)

Module ChatListFacts.
Import Js ChatLists.

Section PreparePeersFacts.

Variable Entity : Type.
Variable entity_id : Entity → Z.
Variable entity_min : Entity → option bool.

Local Abbreviation preparePeers := (preparePeers Entity entity_id entity_min).
Local Abbreviation store_peer := (store_peer Entity entity_id entity_min).
Local Abbreviation stored_under := (stored_under Entity entity_id entity_min).
Local Abbreviation peer_key := (peer_key Entity entity_id).
Local Abbreviation min_flag := (min_flag Entity entity_min).
Local Abbreviation known := (known Entity).

(** A loop of [preparePeers] leaves under a key the last entity of the key
    that it stores. *)
Lemma foldl_store_peer (prefix : string) (cs : option (gmap string Entity))
    (l : list Entity) (s : gmap string Entity) (k : string) :
  foldl (store_peer prefix cs) s l !! k =
  match last (filter (stored_under prefix cs k) l) with
  | Some e => Some e
  | None => s !! k
  end.
Proof.
  induction l as [|x l IH] using rev_ind; [done|].
  rewrite foldl_app, filter_app. simpl.
  unfold ChatLists.store_peer at 1.
  destruct (decide (peer_key prefix x = k)) as [Hk|Hk].
  - destruct (known cs (peer_key prefix x) && min_flag x) eqn:Hskip.
    + rewrite filter_cons_False, filter_nil, app_nil_r; [done|].
      intros [_ H]. rewrite <- Hk in H. congruence.
    + rewrite filter_cons_True, filter_nil by (split; [done|by rewrite <- Hk]).
      rewrite last_snoc, Hk. apply lookup_insert_eq.
  - rewrite filter_cons_False, filter_nil, app_nil_r by (by intros [? _]).
    destruct (known cs (peer_key prefix x) && min_flag x); [done|].
    by rewrite lookup_insert_ne.
Qed.

(** X7.  [preparePeers] holds under a key the last user of that key that it
    stores, or else the last chat: an entity is stored unless it is a [min]
    one whose key the current store has. *)
Theorem preparePeers_lookup (chats users : option (list Entity))
    (cs : option (gmap string Entity)) (k : string) :
  preparePeers chats users cs !! k =
  match last (filter (stored_under "user" cs k) (default [] users)) with
  | Some e => Some e
  | None => last (filter (stored_under "chat" cs k) (default [] chats))
  end.
Proof.
  unfold ChatLists.preparePeers. rewrite !foldl_store_peer.
  rewrite lookup_empty.
  by destruct (last (filter (stored_under "chat" cs k) (default [] chats))).
Qed.

(** Given a current store, [preparePeers] stores no [min] entity under a
    key that the current store has. *)
Lemma preparePeers_known_min (chats users : option (list Entity))
    (cs : gmap string Entity) (k : string) (e : Entity) :
  preparePeers chats users (Some cs) !! k = Some e →
  is_Some (cs !! k) → min_flag e = false.
Proof.
  unfold ChatLists.preparePeers. rewrite !foldl_store_peer, lookup_empty.
  intros He Hk.
  assert (known (Some cs) k = true) as Hkn by (by apply bool_decide_eq_true).
  assert (∀ prefix l, last (filter (stored_under prefix (Some cs) k) l) = Some e →
                      min_flag e = false) as Hlast.
  { intros prefix l Hl. apply last_Some_elem_of in Hl.
    apply list_elem_of_filter in Hl as [[_ H] _]. by rewrite Hkn in H. }
  destruct (last (filter (stored_under "user" (Some cs) k) _)) eqn:Hu.
  - injection He as ->. by eapply Hlast.
  - destruct (last (filter (stored_under "chat" (Some cs) k) _)) eqn:Hc; [|done].
    injection He as ->. by eapply Hlast.
Qed.

End PreparePeersFacts.

Section FetchChatsFacts.

Variable Entity : Type.
Variable entity_id : Entity → Z.
Variable entity_min : Entity → option bool.
Variable Peer MtpMessage MtpNotifySettings MtpDraft : Type.
Variable ChatBody MessageBody NotifySettings Draft ApiUser UserStatuses : Type.

Local Abbreviation Dialog := (Dialog Peer MtpNotifySettings MtpDraft).
Local Abbreviation ApiChat := (ApiChat ChatBody).
Local Abbreviation ApiMessage := (ApiMessage MessageBody).
Local Abbreviation DialogList :=
  (DialogList Entity Peer MtpMessage MtpNotifySettings MtpDraft).
Local Abbreviation DialogsResponse :=
  (DialogsResponse Entity Peer MtpMessage MtpNotifySettings MtpDraft).

Variable getPeerKey : Peer → string.
Variable buildApiChatFromDialog : Dialog → option Entity → ApiChat.
Variable buildApiMessage : MtpMessage → option ApiMessage.
Variable buildApiPeerNotifySettings : MtpNotifySettings → NotifySettings.
Variable has_settings : NotifySettings → bool.
Variable mutedUntil : NotifySettings → option Z.
Variable buildMessageDraft : MtpDraft → option Draft.
Variable buildApiUser : Entity → option ApiUser.
Variable buildApiUserStatuses : list Entity → UserStatuses.
Variable ARCHIVED_FOLDER_ID : Z.
Variable SERVICE_NOTIFICATIONS_USER_ID : string.

Local Abbreviation fetchChats :=
  (fetchChats Entity entity_id entity_min Peer MtpMessage MtpNotifySettings
     MtpDraft ChatBody MessageBody NotifySettings Draft ApiUser UserStatuses
     getPeerKey buildApiChatFromDialog buildApiMessage
     buildApiPeerNotifySettings has_settings mutedUntil buildMessageDraft
     buildApiUser buildApiUserStatuses ARCHIVED_FOLDER_ID
     SERVICE_NOTIFICATIONS_USER_ID).
Local Abbreviation loop_body :=
  (loop_body Entity Peer MtpNotifySettings MtpDraft ChatBody NotifySettings
     Draft getPeerKey buildApiChatFromDialog buildApiPeerNotifySettings
     has_settings mutedUntil buildMessageDraft ARCHIVED_FOLDER_ID
     SERVICE_NOTIFICATIONS_USER_ID).
Local Abbreviation listed_dialog :=
  (listed_dialog Peer MtpNotifySettings MtpDraft ARCHIVED_FOLDER_ID).
Local Abbreviation listed_chat :=
  (listed_chat Entity Peer MtpNotifySettings MtpDraft ChatBody getPeerKey
     buildApiChatFromDialog).
Local Abbreviation last_message_of :=
  (last_message_of Peer MtpNotifySettings MtpDraft
     SERVICE_NOTIFICATIONS_USER_ID).
Local Abbreviation dialog_effects :=
  (dialog_effects Peer MtpNotifySettings MtpDraft NotifySettings
     buildApiPeerNotifySettings has_settings mutedUntil).
Local Abbreviation peers_by_key :=
  (peers_by_key Entity entity_id entity_min Peer MtpMessage MtpNotifySettings
     MtpDraft).
Local Abbreviation loop_state :=
  (loop_state ChatBody NotifySettings Draft).

Section Loop.

Variable archived withPinned : bool.
Variable local : option Z.
Variable peersByKey : gmap string Entity.

Local Abbreviation body := (loop_body archived withPinned local peersByKey).
Local Abbreviation chat_of := (listed_chat peersByKey).
Local Abbreviation id_of := (λ d, chat_id _ (chat_of d)).

(** One turn of the loop, for a dialog that is listed. *)
Lemma loop_body_listed (s : loop_state) (d : option Dialog) (dialog : Dialog) :
  listed_dialog archived d = Some dialog →
  l_chats _ _ _ (body s d) = l_chats _ _ _ s ++ [chat_of dialog] ∧
  l_orderedPinnedIds _ _ _ (body s d) =
    l_orderedPinnedIds _ _ _ s ++
    (if withPinned && default false (pinned _ _ _ dialog)
     then [id_of dialog] else []) ∧
  l_lastMessageByChatId _ _ _ (body s d) =
    <[id_of dialog := last_message_of local (id_of dialog) dialog]>
      (l_lastMessageByChatId _ _ _ s) ∧
  l_effects _ _ _ (body s d) =
    l_effects _ _ _ s ++ dialog_effects (id_of dialog) dialog.
Proof.
  intros Hd. unfold ChatLists.loop_body. rewrite Hd. cbn.
  split; [done|]. split.
  { by destruct (withPinned && _); rewrite ?app_nil_r. }
  split.
  - unfold ChatLists.last_message_of. destruct local as [l|]; [|done].
    destruct (_ && _ && _); [|done]. by rewrite insert_insert_eq.
  - unfold ChatLists.dialog_effects, nonzero. f_equal.
    destruct (pts _ _ _ dialog) as [p|]; [|done]. simpl.
    by destruct (negb (p =? 0)).
Qed.

Lemma loop_body_skipped (s : loop_state) (d : option Dialog) :
  listed_dialog archived d = None → body s d = s.
Proof. intros Hd. unfold ChatLists.loop_body. by rewrite Hd. Qed.

(** The loop over the dialogs. *)
Lemma loop_spec (ds : list (option Dialog)) (s : loop_state) :
  let kept := omap (listed_dialog archived) ds in
  let s' := foldl body s ds in
  l_chats _ _ _ s' = l_chats _ _ _ s ++ map chat_of kept ∧
  l_orderedPinnedIds _ _ _ s' =
    l_orderedPinnedIds _ _ _ s ++
    (if withPinned
     then map id_of (filter (λ d, pinned _ _ _ d = Some true) kept)
     else []) ∧
  (∀ i, l_lastMessageByChatId _ _ _ s' !! i =
        match last (filter (λ d, id_of d = i) kept) with
        | Some d => Some (last_message_of local i d)
        | None => l_lastMessageByChatId _ _ _ s !! i
        end) ∧
  l_effects _ _ _ s' =
    l_effects _ _ _ s ++ concat (map (λ d, dialog_effects (id_of d) d) kept).
Proof.
  induction ds as [|d ds IH] using rev_ind.
  { cbn. rewrite !app_nil_r. by destruct withPinned; rewrite ?app_nil_r. }
  cbn zeta in *. rewrite foldl_app, omap_app. cbn [foldl].
  assert (omap (listed_dialog archived) [d] =
          match listed_dialog archived d with
          | Some dialog => [dialog]
          | None => []
          end) as -> by (cbn; by destruct (listed_dialog archived d)).
  destruct IH as (IH1 & IH2 & IH3 & IH4).
  destruct (listed_dialog archived d) as [dialog|] eqn:Hd.
  - destruct (loop_body_listed (foldl body s ds) d dialog Hd)
      as (H1 & H2 & H3 & H4).
    rewrite H1, H2, H3, H4, IH1, IH2, IH4.
    rewrite !map_app, filter_app, concat_app, <- !app_assoc. cbn [map concat].
    rewrite app_nil_r.
    split; [done|]. split; [|split; [|done]].
    + f_equal. destruct withPinned; cbn [andb]; [|done].
      destruct (pinned _ _ _ dialog) as [[]|] eqn:Hp; cbn [default].
      * rewrite filter_cons_True, filter_nil by done. by rewrite map_app.
      * rewrite filter_cons_False, filter_nil by (by rewrite Hp).
        by rewrite !app_nil_r.
      * rewrite filter_cons_False, filter_nil by (by rewrite Hp).
        by rewrite !app_nil_r.
    + intros i. rewrite filter_app.
      destruct (decide (id_of dialog = i)) as [<-|Hne].
      * rewrite filter_cons_True, filter_nil, last_snoc by done.
        apply lookup_insert_eq.
      * rewrite filter_cons_False, filter_nil, app_nil_r by done.
        rewrite lookup_insert_ne by done. apply IH3.
  - rewrite (loop_body_skipped _ _ Hd), !app_nil_r. done.
Qed.

End Loop.

Lemma listed_dialog_folder (archived : bool) (d : option Dialog)
    (dialog : Dialog) :
  listed_dialog archived d = Some dialog →
  d = Some dialog ∧
  bool_decide (folderId _ _ _ dialog = Some ARCHIVED_FOLDER_ID) = archived.
Proof.
  unfold ChatLists.listed_dialog. destruct d as [d|]; [|done].
  destruct (bool_decide (folderId _ _ _ d = Some ARCHIVED_FOLDER_ID)) eqn:E;
    destruct archived; cbn; intros [= <-]; done.
Qed.

Lemma last_filter_last {A} (P : A → Prop) `{∀ x, Decision (P x)}
    (l : list A) (x : A) :
  last l = Some x → P x → last (filter P l) = Some x.
Proof.
  intros [l' ->]%last_Some Hx.
  by rewrite filter_app, filter_cons_True, filter_nil, last_snoc.
Qed.

Lemma find_never {A} (f : A → bool) (l : list A) :
  (∀ x, f x = false) → find f l = None.
Proof. intros Hf. induction l as [|x l IH]; cbn; [done|]. by rewrite Hf. Qed.

(** The dialogs that the loop of [fetchChats] goes over: those of the pinned
    response first. *)
Local Abbreviation dialogs_of result rp :=
  (match rp with
   | Some p => dialogs _ _ _ _ _ p
   | None => []
   end ++ dialogs _ _ _ _ _ result).

(** X9.  The chats that [fetchChats] returns are the dialogs of the folder asked
    for, those of the pinned response first, in the order of the responses:
    no [DialogFolder], no dialog of the archive in the main list and none of
    the main list in the archive.  [chatIds] are their ids, each chat is
    marked as listed, [orderedPinnedIds] are the ids of those that are
    pinned (with [withPinned]), and [totalChatCount] is the count of a
    slice, or else the number of chats returned. *)
Theorem fetchChats_lists (archived withPinned : bool) (local : option Z)
    (result : DialogList) (pinnedResponse : option DialogList) :
  let rp := if withPinned then pinnedResponse else None in
  let kept := omap (listed_dialog archived) (dialogs_of result rp) in
  ∃ r effs,
    fetchChats archived withPinned local (Some (Dialogs _ _ _ _ _ result))
      pinnedResponse = (Some r, effs) ∧
    r_chats _ _ _ _ _ _ r = map (listed_chat (peers_by_key result rp)) kept ∧
    chatIds _ _ _ _ _ _ r = map (chat_id _) (r_chats _ _ _ _ _ _ r) ∧
    Forall (λ c, isListed _ c = Some true) (r_chats _ _ _ _ _ _ r) ∧
    Forall (λ d, Some d ∈ dialogs_of result rp ∧
                 bool_decide (folderId _ _ _ d = Some ARCHIVED_FOLDER_ID)
                 = archived) kept ∧
    orderedPinnedIds _ _ _ _ _ _ r =
      (if withPinned
       then Some (map (λ d, chat_id _ (listed_chat (peers_by_key result rp) d))
                      (filter (λ d, pinned _ _ _ d = Some true) kept))
       else None) ∧
    totalChatCount _ _ _ _ _ _ r =
      match slice_count _ _ _ _ _ result with
      | Some count => count
      | None => Z.of_nat (length kept)
      end.
Proof.
  intros rp kept. eexists _, _. split; [reflexivity|]. cbn.
  fold rp.
  destruct (loop_spec archived withPinned local (peers_by_key result rp)
              (dialogs_of result rp)
              (loop_start ChatBody NotifySettings Draft))
    as (H1 & H2 & _ & _).
  cbn in H1, H2. fold kept in H1, H2.
  rewrite H1, H2.
  split; [done|]. split; [done|]. split.
  { apply Forall_forall. by intros c (d & -> & _)%list_elem_of_fmap. }
  split.
  { apply Forall_forall. intros d (x & Hx & Hd)%list_elem_of_omap.
    apply listed_dialog_folder in Hd as [-> Hd]. done. }
  split; [by destruct withPinned|].
  destruct (slice_count _ _ _ _ _ result); [done|].
  by rewrite !length_map.
Qed.

(** X10.  The offsets for the next page come from the last chat returned: its id,
    the last message id recorded for it (the top message of its dialog, or
    the id of the local service message when that is later), and the date
    of a message returned that has this chat and this id.  When no dialog is
    listed there is no next offset. *)
Theorem fetchChats_next_offset (archived withPinned : bool) (local : option Z)
    (result : DialogList) (pinnedResponse : option DialogList) :
  let rp := if withPinned then pinnedResponse else None in
  let kept := omap (listed_dialog archived) (dialogs_of result rp) in
  let id_of d := chat_id _ (listed_chat (peers_by_key result rp) d) in
  ∃ r effs,
    fetchChats archived withPinned local (Some (Dialogs _ _ _ _ _ result))
      pinnedResponse = (Some r, effs) ∧
    (kept = [] →
     nextOffsetPeerId _ _ _ _ _ _ r = None ∧
     nextOffsetId _ _ _ _ _ _ r = None ∧
     nextOffsetDate _ _ _ _ _ _ r = None) ∧
    (∀ d, last kept = Some d →
     nextOffsetPeerId _ _ _ _ _ _ r = Some (id_of d) ∧
     nextOffsetId _ _ _ _ _ _ r = Some (last_message_of local (id_of d) d) ∧
     lastMessageByChatId _ _ _ _ _ _ r !! id_of d
       = Some (last_message_of local (id_of d) d) ∧
     ∀ date, nextOffsetDate _ _ _ _ _ _ r = Some date →
       ∃ m, m ∈ r_messages _ _ _ _ _ _ r ∧
            msg_chatId _ m = id_of d ∧
            msg_id _ m = last_message_of local (id_of d) d ∧
            msg_date _ m = date).
Proof.
  intros rp kept id_of. eexists _, _. split; [reflexivity|]. cbn.
  fold rp.
  destruct (loop_spec archived withPinned local (peers_by_key result rp)
              (dialogs_of result rp)
              (loop_start ChatBody NotifySettings Draft))
    as (H1 & _ & H3 & _).
  cbn in H1, H3. fold kept in H1, H3.
  rewrite H1. rewrite !fmap_last. split.
  - intros Hnil. rewrite Hnil in H3 |- *. cbn.
    rewrite H3. cbn. rewrite lookup_empty. split; [done|]. split; [done|].
    by rewrite find_never.
  - intros d Hd. rewrite Hd. cbn.
    assert (l_lastMessageByChatId _ _ _
              (foldl (loop_body archived withPinned local
                        (peers_by_key result rp))
                 (loop_start ChatBody NotifySettings Draft)
                 (dialogs_of result rp)) !! id_of d
            = Some (last_message_of local (id_of d) d)) as Hlast.
    { rewrite H3. by rewrite (last_filter_last _ kept d Hd). }
    subst id_of. cbn in Hlast |- *. rewrite Hlast.
    split; [done|]. split; [done|]. split; [done|].
    intros date Hdate.
    destruct (find _ _) as [m|] eqn:Hfind; [|done].
    injection Hdate as <-. apply find_some in Hfind as [Hin Hm].
    apply andb_true_iff in Hm as [Hc Hi].
    apply bool_decide_eq_true in Hc, Hi.
    injection Hc as Hc. injection Hi as Hi.
    exists m. split; [by apply list_elem_of_In|]. done.
Qed.

(** X11.  The calls that [fetchChats] makes are those of the dialogs listed, in
    their order: the channel state is updated for the listed dialogs whose
    [pts] is not zero, and an unmute is scheduled for those with notify
    settings.  A dialog that is not listed causes no call. *)
Theorem fetchChats_effects (archived withPinned : bool) (local : option Z)
    (result : DialogList) (pinnedResponse : option DialogList) :
  let rp := if withPinned then pinnedResponse else None in
  let kept := omap (listed_dialog archived) (dialogs_of result rp) in
  let id_of d := chat_id _ (listed_chat (peers_by_key result rp) d) in
  (fetchChats archived withPinned local (Some (Dialogs _ _ _ _ _ result))
     pinnedResponse).2
  = concat (map (λ d, dialog_effects (id_of d) d) kept) ∧
  ∀ i p, UpdateChannelState i p ∈
           (fetchChats archived withPinned local
              (Some (Dialogs _ _ _ _ _ result)) pinnedResponse).2 ↔
         ∃ d, d ∈ kept ∧ id_of d = i ∧ pts _ _ _ d = Some p ∧ p ≠ 0.
Proof.
  intros rp kept id_of. cbn. fold rp.
  destruct (loop_spec archived withPinned local (peers_by_key result rp)
              (dialogs_of result rp)
              (loop_start ChatBody NotifySettings Draft))
    as (_ & _ & _ & H4).
  cbn in H4. fold kept in H4. rewrite H4. split; [done|].
  intros i p. rewrite list_elem_of_In, in_concat. split.
  - intros (es & (d & -> & Hd)%list_elem_of_In%list_elem_of_fmap
              & Hin%list_elem_of_In).
    exists d. split; [done|].
    unfold ChatLists.dialog_effects, nonzero in Hin.
    apply elem_of_app in Hin as [Hin|Hin].
    + destruct (pts _ _ _ d) as [q|]; [|by apply elem_of_nil in Hin].
      destruct (negb (q =? 0)) eqn:Hq; [|by apply elem_of_nil in Hin].
      apply list_elem_of_singleton in Hin. injection Hin as <- ->.
      apply negb_true_iff, Z.eqb_neq in Hq. done.
    + destruct (has_settings _); [|by apply elem_of_nil in Hin].
      by apply list_elem_of_singleton in Hin.
  - intros (d & Hd & <- & Hp & Hnz).
    exists (dialog_effects (id_of d) d). split.
    + apply list_elem_of_In, list_elem_of_fmap. by exists d.
    + unfold ChatLists.dialog_effects, nonzero. rewrite Hp.
      apply Z.eqb_neq in Hnz. rewrite Hnz. cbn. by left.
Qed.

(** X8.  An entity that the response with the dialogs supplied is replaced by one
    of the pinned response only if that one is not a [min] entity. *)
Theorem fetchChats_peers_keep_full (result rp : DialogList) (k : string)
    (e : Entity) :
  peers_by_key result None !! k = Some e →
  ∃ e', peers_by_key result (Some rp) !! k = Some e' ∧
        (e' = e ∨
         min_flag Entity entity_min e' = false ∧
         e' ∈ chats _ _ _ _ _ rp ++ users _ _ _ _ _ rp).
Proof.
  unfold ChatLists.peers_by_key. intros He.
  set (first := preparePeers Entity entity_id entity_min _ _ None) in *.
  destruct (preparePeers Entity entity_id entity_min
              (Some (chats _ _ _ _ _ rp)) (Some (users _ _ _ _ _ rp))
              (Some first) !! k) as [e'|] eqn:Hp.
  - exists e'. split; [by apply lookup_union_Some_l|]. right. split.
    + by eapply (preparePeers_known_min Entity entity_id entity_min).
    + unfold ChatLists.preparePeers in Hp.
      rewrite !foldl_store_peer, lookup_empty in Hp. cbn in Hp.
      apply elem_of_app.
      destruct (last (filter _ (users _ _ _ _ _ rp))) eqn:Hu.
      * right. injection Hp as ->. apply last_Some_elem_of in Hu.
        by apply list_elem_of_filter in Hu as [_ ?].
      * left. destruct (last (filter _ (chats _ _ _ _ _ rp))) eqn:Hc; [|done].
        injection Hp as ->. apply last_Some_elem_of in Hc.
        by apply list_elem_of_filter in Hc as [_ ?].
  - exists e. split; [|by left]. by rewrite lookup_union_r.
Qed.

End FetchChatsFacts.

(** The theorem at a dialogs response with the full chat 5 and a pinned
    response with its [min] version. *)
Lemma fetchChats_peers_keep_full_witness :
  let result : DialogList (Z * bool) unit unit unit unit :=
    {| slice_count := None; dialogs := []; messages := [];
       chats := [(5, false)]; users := [] |} in
  let rp : DialogList (Z * bool) unit unit unit unit :=
    {| slice_count := None; dialogs := []; messages := [];
       chats := [(5, true); (7, true)]; users := [] |} in
  peers_by_key (Z * bool) fst (λ e, Some e.2) unit unit unit unit result None
    !! "chat5" = Some (5, false) ∧
  ∃ e', peers_by_key (Z * bool) fst (λ e, Some e.2) unit unit unit unit
          result (Some rp) !! "chat5" = Some e' ∧
        (e' = (5, false) ∨
         min_flag (Z * bool) (λ e, Some e.2) e' = false ∧
         e' ∈ [(5, true); (7, true)] ++ []).
Proof.
  intros result rp.
  assert (peers_by_key (Z * bool) fst (λ e, Some e.2) unit unit unit unit
            result None !! "chat5" = Some (5, false)) as H by reflexivity.
  split; [exact H|].
  exact (fetchChats_peers_keep_full (Z * bool) fst (λ e, Some e.2)
           unit unit unit unit result rp "chat5" (5, false) H).
Defined.

End ChatListFacts.

(** * Properties of the search, of the chat folders and of the topics *)

Module ChatSearchFacts.
Import ChatSearch.

(** X12.  No id is in both lists of [searchChats]: the global results are the ids
    found that are not among the account's own, in the order of the
    response, and every id found is in one of the two lists. *)
Theorem searchChats_disjoint (Peer : Type) (getId : Peer → string)
    (found : Found Peer) :
  ∃ r, searchChats Peer getId (Some found) = Some r ∧
    accountResultIds r = map getId (myResults Peer found) ∧
    (∀ id, id ∈ globalResultIds r → id ∉ accountResultIds r) ∧
    (∀ id, id ∈ map getId (results Peer found) →
           id ∈ accountResultIds r ∨ id ∈ globalResultIds r) ∧
    globalResultIds r `sublist_of` map getId (results Peer found).
Proof.
  eexists. split; [reflexivity|]. cbn. split; [done|]. split; [|split].
  - by intros id [? _]%list_elem_of_filter.
  - intros id Hid.
    destruct (decide (id ∈ map getId (myResults Peer found))); [by left|].
    right. by apply list_elem_of_filter.
  - apply sublist_filter.
Qed.

End ChatSearchFacts.

Module ChatFolderFacts.
Import ChatFolders.

Section FetchChatFoldersFacts.

Variable DialogFilter ApiChatFolder FoldersById : Type.
Variable is_default : DialogFilter → bool.
Variable isChatFolder : DialogFilter → bool.
Variable filter_id : DialogFilter → Z.
Variable buildApiChatFolder : DialogFilter → ApiChatFolder.
Variable buildCollectionByKey : list ApiChatFolder → FoldersById.
Variable ALL_FOLDER_ID : Z.

Local Abbreviation fetchChatFolders :=
  (fetchChatFolders DialogFilter ApiChatFolder FoldersById is_default
     isChatFolder filter_id buildApiChatFolder buildCollectionByKey
     ALL_FOLDER_ID).

Lemma ids_without_default (l : list DialogFilter) :
  (∀ f, isChatFolder f = negb (is_default f)) →
  filter (λ f, is_default f = true) l = [] →
  map filter_id (filter (λ f, isChatFolder f = true) l)
  = map (λ f, if is_default f then ALL_FOLDER_ID else filter_id f) l.
Proof.
  intros Hfolder. induction l as [|y l IH]; [done|]. intros Hnone.
  destruct (is_default y) eqn:Hy.
  { rewrite filter_cons_True in Hnone by done. done. }
  rewrite filter_cons_False in Hnone by (by rewrite Hy).
  rewrite filter_cons_True by (rewrite Hfolder, Hy; done).
  cbn [map]. rewrite Hy. f_equal. by apply IH.
Qed.

(** The place of the first default filter, and the ids of the chat folders
    with [ALL_FOLDER_ID] put in at that place. *)
Lemma ordered_ids_spec (filters : list DialogFilter) :
  (∀ f, isChatFolder f = negb (is_default f)) →
  (length (filter (λ f, is_default f = true) filters) ≤ 1)%nat →
  match fst <$> list_find (λ f, is_default f = true) filters with
  | Some p =>
      splice_in p ALL_FOLDER_ID
        (map filter_id (filter (λ f, isChatFolder f = true) filters))
  | None => map filter_id (filter (λ f, isChatFolder f = true) filters)
  end
  = map (λ f, if is_default f then ALL_FOLDER_ID else filter_id f) filters.
Proof.
  intros Hfolder. induction filters as [|x l IH]; [done|]. intros Hone.
  cbn [list_find]. destruct (is_default x) eqn:Hx.
  - rewrite decide_True by done. cbn [fmap option_fmap option_map fst].
    rewrite filter_cons_True in Hone by done. cbn in Hone.
    assert (filter (λ f, is_default f = true) l = []) as Hnone.
    { destruct (filter _ l); [done|]. cbn in Hone. lia. }
    rewrite filter_cons_False by (rewrite Hfolder, Hx; done).
    unfold splice_in. rewrite take_0, drop_0. cbn [app map]. rewrite Hx.
    f_equal. by apply ids_without_default.
  - rewrite decide_False by done.
    rewrite filter_cons_False in Hone by (by rewrite Hx).
    rewrite filter_cons_True by (rewrite Hfolder, Hx; done).
    cbn [map]. rewrite Hx. rewrite <- (IH Hone).
    destruct (list_find _ l) as [[p y]|]; cbn; [|done].
    by unfold splice_in.
Qed.

(** X13.  When every filter other than the default one is a chat folder, and
    there is at most one default filter, the ordered ids are the ids of the
    filters in the order of the server, with [ALL_FOLDER_ID] in the place
    of the default filter. *)
Theorem fetchChatFolders_ordered_ids (filters : list DialogFilter) :
  (∀ f, isChatFolder f = negb (is_default f)) →
  (length (filter (λ f, is_default f = true) filters) ≤ 1)%nat →
  ∃ r, fetchChatFolders (Some filters) = Some r ∧
       orderedIds _ r =
       map (λ f, if is_default f then ALL_FOLDER_ID else filter_id f) filters ∧
       length (orderedIds _ r) = length filters.
Proof.
  intros Hfolder Hone. eexists. split; [reflexivity|]. cbn [orderedIds].
  rewrite (ordered_ids_spec filters Hfolder Hone).
  split; [done|]. by rewrite length_map.
Qed.

End FetchChatFoldersFacts.

Lemma fetchChatFolders_ordered_ids_witness :
  let filters : list (option Z) := [Some 2; None; Some 7] in
  ∃ r, fetchChatFolders (option Z) (option Z) (list (option Z))
         (λ f, bool_decide (f = None)) (λ f, bool_decide (f ≠ None))
         (default 0) id id 0 (Some filters) = Some r ∧
       orderedIds _ r = [2; 0; 7].
Proof.
  intros filters.
  destruct (fetchChatFolders_ordered_ids (option Z) (option Z)
              (list (option Z)) (λ f, bool_decide (f = None))
              (λ f, bool_decide (f ≠ None)) (default 0) id id 0 filters)
    as (r & Hr & Hids & _).
  - by intros [z|].
  - vm_compute. lia.
  - exists r. split; [exact Hr|]. exact Hids.
Defined.

Section EditChatFolderFacts.

Variable FolderBody MtpFilter : Type.
Variable buildFilterFromApiFolder : ChatFolder FolderBody → MtpFilter.

Local Abbreviation editChatFolder :=
  (editChatFolder FolderBody MtpFilter buildFilterFromApiFolder).

(** X14.  [editChatFolder] sends no chat as both included and excluded: the
    excluded chats sent are those of the folder that are not included, in
    their order, the included chats are as they were, the update carries
    the folder that the request was built from and is sent only when the
    request succeeds, and the caller's folder is left as the folder sent, on
    which a second edit changes nothing. *)
Theorem editChatFolder_excluded (id : Z) (folder : ChatFolder FolderBody)
    (ok : bool) :
  ∃ folder',
    editChatFolder id folder ok =
      ({| req_id := id; req_filter := buildFilterFromApiFolder folder' |},
       if ok then Some {| upd_id := id; upd_folder := folder' |} else None,
       folder') ∧
    includedChatIds _ folder' = includedChatIds _ folder ∧
    (∀ c, c ∈ excludedChatIds _ folder' ↔
          c ∈ excludedChatIds _ folder ∧ c ∉ includedChatIds _ folder) ∧
    excludedChatIds _ folder' `sublist_of` excludedChatIds _ folder ∧
    editChatFolder id folder' ok = editChatFolder id folder ok.
Proof.
  exists (drop_included FolderBody folder).
  split; [reflexivity|]. split; [reflexivity|]. split; [|split].
  - intros c. cbn. rewrite list_elem_of_filter. tauto.
  - apply sublist_filter.
  - unfold ChatFolders.editChatFolder.
    assert (drop_included FolderBody (drop_included FolderBody folder)
            = drop_included FolderBody folder) as ->; [|done].
    unfold drop_included. cbn. f_equal.
    apply list_filter_filter_l. by intros c.
Qed.

End EditChatFolderFacts.

End ChatFolderFacts.

Module ForumTopicFacts.
Import ForumTopics.

Section FetchTopicsFacts.

Variable MtpMessage MtpDraft TopicBody ApiTopic ApiMessage Draft : Type.
Variable buildApiTopic : TypeForumTopic MtpDraft TopicBody → option ApiTopic.
Variable buildApiMessage : MtpMessage → option ApiMessage.
Variable buildMessageDraft : MtpDraft → option Draft.

Local Abbreviation ForumTopic := (ForumTopic MtpDraft TopicBody).
Local Abbreviation TypeForumTopic := (TypeForumTopic MtpDraft TopicBody).
Local Abbreviation fetchTopics :=
  (fetchTopics MtpMessage MtpDraft TopicBody ApiTopic ApiMessage Draft
     buildApiTopic buildApiMessage buildMessageDraft).
Local Abbreviation add_read_inbox := (add_read_inbox MtpDraft TopicBody).

(** The topics of the response that are forum topics. *)
Local Abbreviation forum_topics l :=
  (omap (λ t : TypeForumTopic,
           match t with
           | IsForumTopic _ _ ft => Some ft
           | ForumTopicDeleted _ _ _ => None
           end) l).

Lemma foldl_add_read_inbox (l : list TypeForumTopic) (acc : gmap Z Z) (i : Z) :
  foldl add_read_inbox acc l !! i =
  match last (filter (λ t : ForumTopic,
                        topic_id _ _ t = i ∧ readInboxMaxId _ _ t ≠ 0)
                     (forum_topics l)) with
  | Some t => Some (readInboxMaxId _ _ t)
  | None => acc !! i
  end.
Proof.
  induction l as [|x l IH] using rev_ind; [done|].
  rewrite foldl_app, omap_app, filter_app. cbn [foldl].
  destruct x as [j|t].
  { change (forum_topics [ForumTopicDeleted MtpDraft TopicBody j])
      with (@nil ForumTopic).
    rewrite filter_nil, app_nil_r. apply IH. }
  change (forum_topics [IsForumTopic MtpDraft TopicBody t]) with [t].
  unfold ForumTopics.add_read_inbox at 1.
  destruct (readInboxMaxId _ _ t =? 0) eqn:Hz; cbn [negb].
  - apply Z.eqb_eq in Hz.
    rewrite filter_cons_False, filter_nil, app_nil_r by (by intros [_ ?]).
    apply IH.
  - apply Z.eqb_neq in Hz.
    destruct (decide (topic_id _ _ t = i)) as [<-|Hne].
    + rewrite filter_cons_True, filter_nil, last_snoc by done.
      apply lookup_insert_eq.
    + rewrite filter_cons_False, filter_nil, app_nil_r by (by intros [? _]).
      rewrite lookup_insert_ne by done. apply IH.
Qed.

(** X15.  [fetchTopics] counts the general topic besides the topics of the
    server, and records for a topic the read-inbox id of the last forum
    topic of that id in the response whose read-inbox id is not zero: a
    deleted topic and a topic with nothing read have no entry, and no entry
    is zero. *)
Theorem fetchTopics_read_inbox (response : ForumTopics MtpMessage MtpDraft TopicBody) :
  ∃ r, fetchTopics (Some response) = Some r ∧
    r_count _ _ _ r = count _ _ _ response + 1 ∧
    (∀ i, readInboxMessageIdByTopicId _ _ _ r !! i =
          readInboxMaxId _ _ <$>
          last (filter (λ t : ForumTopic,
                          topic_id _ _ t = i ∧ readInboxMaxId _ _ t ≠ 0)
                       (forum_topics (topics _ _ _ response)))) ∧
    (∀ i, readInboxMessageIdByTopicId _ _ _ r !! i ≠ Some 0).
Proof.
  eexists. split; [reflexivity|]. cbn. split; [done|].
  assert (∀ i, foldl add_read_inbox ∅ (topics _ _ _ response) !! i =
               readInboxMaxId _ _ <$>
               last (filter (λ t : ForumTopic,
                               topic_id _ _ t = i ∧ readInboxMaxId _ _ t ≠ 0)
                            (forum_topics (topics _ _ _ response)))) as H.
  { intros i. rewrite foldl_add_read_inbox, lookup_empty.
    by destruct (last _). }
  split; [exact H|]. intros i. rewrite H.
  destruct (last _) as [t|] eqn:Hl; [|done].
  apply last_Some_elem_of, list_elem_of_filter in Hl as [[_ Hnz] _].
  cbn. congruence.
Qed.

End FetchTopicsFacts.

End ForumTopicFacts.

(** * Properties of [initApi] *)

Module ApiInitFacts.
Import Js Sessions ApiInit.

Lemma collect_keys_spec (lsd : jsval) :
  foldl (collect_keys lsd) ([], []) [1; 2; 3; 4; 5] =
  (keys_object
     ((λ d, let v := get_prop_opt lsd (auth_key_name (NInt d)) in
            if truthy v then Some v else None) <$> DC_IDS),
   keys_object
     ((λ d, let v := get_prop_opt lsd (hash_name (NInt d)) in
            if truthy v then Some v else None) <$> DC_IDS)).
Proof.
  unfold DC_IDS, collect_keys. cbn [foldl fmap list_fmap fst snd].
  f_equal.
  - destruct (truthy (get_prop_opt lsd (auth_key_name (NInt 1)))),
      (truthy (get_prop_opt lsd (auth_key_name (NInt 2)))),
      (truthy (get_prop_opt lsd (auth_key_name (NInt 3)))),
      (truthy (get_prop_opt lsd (auth_key_name (NInt 4)))),
      (truthy (get_prop_opt lsd (auth_key_name (NInt 5)))); reflexivity.
  - destruct (truthy (get_prop_opt lsd (hash_name (NInt 1)))),
      (truthy (get_prop_opt lsd (hash_name (NInt 2)))),
      (truthy (get_prop_opt lsd (hash_name (NInt 3)))),
      (truthy (get_prop_opt lsd (hash_name (NInt 4)))),
      (truthy (get_prop_opt lsd (hash_name (NInt 5)))); reflexivity.
Qed.

(** X16.  [initApi] leaves a session that it is given as it is, and builds none
    without a truthy [userAuth].  The session that it builds from the
    storage data is marked as coming from local storage, has the data center
    of [userAuth] as a number, and holds as keys and hashes exactly the
    truthy values that the storage data has for the data centers 1 to 5. *)
Theorem initApi_session (sessionData localStorageData : jsval) :
  (truthy sessionData = true →
   initApi sessionData localStorageData = sessionData) ∧
  (truthy (get_prop_opt localStorageData "userAuth") = false →
   initApi sessionData localStorageData = sessionData) ∧
  (truthy sessionData = false →
   truthy (get_prop_opt localStorageData "userAuth") = true →
   ∃ fields,
     initApi sessionData localStorageData = JObj fields ∧
     lookup_field "isLocalStorage" fields = JBool true ∧
     lookup_field "mainDcId" fields =
       JNum (to_number (get_prop_opt
                          (get_prop_opt localStorageData "userAuth") "dcID")) ∧
     lookup_field "keys" fields =
       JObj (keys_object
               ((λ d, let v := get_prop_opt localStorageData
                                 (auth_key_name (NInt d)) in
                      if truthy v then Some v else None) <$> DC_IDS)) ∧
     lookup_field "hashes" fields =
       JObj (keys_object
               ((λ d, let v := get_prop_opt localStorageData
                                 (hash_name (NInt d)) in
                      if truthy v then Some v else None) <$> DC_IDS))).
Proof.
  unfold initApi. split; [by intros ->|]. split.
  - intros Hu. destruct (truthy sessionData); [done|]. cbn [negb].
    assert (truthy (get_prop_opt (js_or localStorageData (JObj [])) "userAuth")
            = false) as ->; [|done].
    unfold js_or. by destruct (truthy localStorageData).
  - intros -> Hu. cbn [negb].
    assert (js_or localStorageData (JObj []) = localStorageData) as ->.
    { unfold js_or. destruct (truthy localStorageData) eqn:E; [done|].
      by destruct localStorageData. }
    rewrite Hu, collect_keys_spec.
    destruct (truthy (js_and _ _)); eexists; (split; [reflexivity|]);
      repeat split; reflexivity.
Qed.

Lemma initApi_session_witness :
  let storageData :=
    JObj [("userAuth", JObj [("dcID", JStr "2"); ("id", JStr "77")]);
          ("dc2_auth_key", JStr "abcd"); ("dc3_auth_key", JStr "")] in
  ∃ fields,
    initApi JUndefined storageData = JObj fields ∧
    lookup_field "mainDcId" fields = JNum (NInt 2) ∧
    lookup_field "keys" fields = JObj [("2", JStr "abcd")].
Proof.
  intros storageData.
  destruct (initApi_session JUndefined storageData) as (_ & _ & H).
  destruct H as (fields & Hf & _ & Hdc & Hkeys & _); [reflexivity|reflexivity|].
  exists fields. split; [exact Hf|]. split; [exact Hdc|exact Hkeys].
Defined.

End ApiInitFacts.
